(** * Verification of the video-downloader backend

    A shallow embedding of the backend's services
    ([utils/urlValidator.js], [services/videoProcessor.js],
    [services/cleanup.js], [services/jobQueue.js], [routes/video.js],
    [middleware/errorHandler.js], [middleware/auth.js])
    together with the properties stated about them.

    Conventions of the embedding:
    - JavaScript strings are [string]s of ASCII characters; URLs, quality
      names and paths of this program are ASCII.
    - JavaScript integers are [Z]; progress percentages, which the
      processor computes with fractions, are [Q].
    - the [Map] holding the jobs is a [gmap string JobRecord].
    - code that awaits external processes or the file system is a function
      of the answers it gets from them, and returns the effects it issues
      in order. *)

From Stdlib Require Import ZArith QArith List String Ascii Bool Lia Sorted.
From stdpp Require Import base gmap strings list pretty.
Import ListNotations.

Local Open Scope string_scope.
Local Open Scope Z_scope.

(** ** JavaScript string helpers *)

Module JsString.

(** [s.startsWith(p)] *)
Definition startsWith (p s : string) : bool := String.prefix p s.

(** [s.includes(sub)]: [sub] occurs at some position of [s]. *)
Fixpoint includes (sub s : string) : bool :=
  String.prefix sub s ||
  match s with
  | EmptyString => false
  | String _ rest => includes sub rest
  end.

(** [c.toLowerCase()] on an ASCII character. *)
Definition lowerAscii (c : ascii) : ascii :=
  let n := nat_of_ascii c in
  if (65 <=? n)%nat && (n <=? 90)%nat then ascii_of_nat (n + 32) else c.

(** [s.toLowerCase()] *)
Fixpoint toLowerCase (s : string) : string :=
  match s with
  | EmptyString => EmptyString
  | String c rest => String (lowerAscii c) (toLowerCase rest)
  end.

(** [parts.join(sep)] *)
Fixpoint join (sep : string) (parts : list string) : string :=
  match parts with
  | [] => ""
  | [p] => p
  | p :: rest => p ++ sep ++ join sep rest
  end.

End JsString.

(** ** services/videoProcessor.js: pure helpers *)

Module VideoProcessor.

(** One entry of the extractor's [formats] array.  A field that is
    absent (or [null]) in the JSON is [None]. *)
Record Format := mkFormat {
  height : option Z;
  filesize : option Z;
  acodec : option string
}.

(** [if (format.height)]: the height counts as declared when it is
    present and truthy, that is, not [0]. *)
Definition declaredHeight (f : Format) : option Z :=
  match height f with
  | Some h => if h =? 0 then None else Some h
  | None => None
  end.

(** A JavaScript [Set] of strings keeps insertion order and ignores a
    value it already holds. *)
Definition set_add (x : string) (s : list string) : list string :=
  if existsb (String.eqb x) s then s else (s ++ [x])%list.

(** The body of the [forEach] callback of [extractAvailableQualities]:
    four independent [if]s. *)
Definition addQualities (qualities : list string) (format : Format) : list string :=
  match declaredHeight format with
  | Some h =>
      let q1 := if h <=? 360 then set_add "360p" qualities else qualities in
      let q2 := if h <=? 720 then set_add "720p" q1 else q1 in
      let q3 := if h <=? 1080 then set_add "1080p" q2 else q2 in
      if h >? 1080 then set_add "4K" q3 else q3
  | None => qualities
  end.

(** [const order = { '360p': 1, '720p': 2, '1080p': 3, '4K': 4 }];
    a key that is missing reads as [undefined]. *)
Definition order (q : string) : option Z :=
  if String.eqb q "360p" then Some 1
  else if String.eqb q "720p" then Some 2
  else if String.eqb q "1080p" then Some 3
  else if String.eqb q "4K" then Some 4
  else None.

(** [(a, b) => order[a] - order[b]]; with an [undefined] operand the
    difference is [NaN], which [sort] reads as [0]. *)
Definition compareQuality (a b : string) : Z :=
  match order a, order b with
  | Some x, Some y => x - y
  | _, _ => 0
  end.

(** [Array.prototype.sort] is a stable sort; this is the stable
    insertion sort for a comparator. *)
Fixpoint sortInsert (cmp : string -> string -> Z) (x : string) (l : list string) : list string :=
  match l with
  | [] => [x]
  | y :: rest => if cmp x y <? 0 then x :: y :: rest else y :: sortInsert cmp x rest
  end.

Definition sortBy (cmp : string -> string -> Z) (l : list string) : list string :=
  fold_left (fun acc x => sortInsert cmp x acc) l [].

Definition extractAvailableQualities (formats : list Format) : list string :=
  sortBy compareQuality (fold_left addQualities formats []).

(** [getYtDlpQualityFormat]: a [switch] on the quality string. *)
Definition getYtDlpQualityFormat (quality : string) : string :=
  if String.eqb quality "360p" then "best[height<=360]"
  else if String.eqb quality "720p" then "best[height<=720]"
  else if String.eqb quality "1080p" then "best[height<=1080]"
  else if String.eqb quality "original" then "best"
  else "best".

(** *** Effects and the answers of the environment *)

(** [join(a, b)] of [path], on segments that need no normalisation. *)
Definition pathJoin (a b : string) : string := a ++ "/" ++ b.

(** [TEMP_DIR] is resolved against the module's directory when the
    process starts; the embedding keeps it relative. *)
Definition TEMP_DIR : string := "temp".
Definition PROCESSING_DIR : string := pathJoin TEMP_DIR "processing".
Definition DOWNLOADS_DIR : string := pathJoin TEMP_DIR "downloads".

(** What the processor does to the outside, in the order it does it. *)
Inductive Effect :=
| Mkdir (path : string)                     (* fs.mkdir(path, {recursive}) *)
| OnProgress (progress : Q) (message : string)
| SpawnYtDlp (args : list string)
| SpawnFFmpeg (args : list string)
| Rename (src dst : string)                 (* fs.rename *)
| Stat (path : string)                      (* fs.stat *)
| RmRecursive (path : string)               (* fs.rm(path, {recursive, force}) *)
| Log (level message : string).

(** The answers of the file system and of the two child processes during
    one run.  A failing call answers with the message of its error.  What
    a child process prints and how it exits is the environment's: the
    world gives the progress callbacks made while it ran and what its
    promise settled to. *)
Record World := mkWorld {
  w_mkdir : option string;
  w_fetch_progress : list Q;
  w_fetch : string + string;
  w_transform_progress : list Q;
  w_transform : option string;
  w_rename : option string;
  w_stat : Z + string;
  w_rm : option string
}.

(** An asynchronous computation: the effects issued, then a value or the
    message of the error thrown. *)
Definition Proc (A : Type) : Type := list Effect * (A + string).

Definition ret {A} (a : A) : Proc A := ([], inl a).
Definition throw {A} (message : string) : Proc A := ([], inr message).
Definition emit (e : Effect) : Proc unit := ([e], inl tt).

Definition bind {A B} (m : Proc A) (k : A -> Proc B) : Proc B :=
  match m with
  | (tr, inl a) => let '(tr', r) := k a in ((tr ++ tr')%list, r)
  | (tr, inr message) => (tr, inr message)
  end.

(** [try { m } catch (error) { handler(error.message) }] *)
Definition tryCatch {A} (m : Proc A) (handler : string -> Proc A) : Proc A :=
  match m with
  | (tr, inl a) => (tr, inl a)
  | (tr, inr message) => let '(tr', r) := handler message in ((tr ++ tr')%list, r)
  end.

(** [try { m } finally { fin }]: [fin] runs in both cases, and an error
    thrown by [fin] replaces the outcome of [m]. *)
Definition tryFinally {A} (m : Proc A) (fin : Proc unit) : Proc A :=
  match m, fin with
  | (tr, r), (tr', inl _) => ((tr ++ tr')%list, r)
  | (tr, _), (tr', inr message) => ((tr ++ tr')%list, inr message)
  end.

(** An awaited call: the effect, then the answer of the world. *)
Definition call (e : Effect) (answer : option string) : Proc unit :=
  ([e], match answer with None => inl tt | Some message => inr message end).

#[global] Instance proc_ret : MRet Proc := @ret.
#[global] Instance proc_bind : MBind Proc := fun A B k m => bind m k.

(** *** Array helpers used to build the transcoder's arguments *)

(** [args.indexOf(x)], [-1] when absent. *)
Fixpoint indexOf (x : string) (l : list string) : Z :=
  match l with
  | [] => -1
  | y :: rest =>
      if String.eqb y x then 0
      else let i := indexOf x rest in if i <? 0 then -1 else i + 1
  end.

(** [args.splice(start, deleteCount, ...items)]; a negative [start]
    counts from the end. *)
Definition splice (start : Z) (deleteCount : nat) (items l : list string) : list string :=
  let len := Z.of_nat (length l) in
  let s := Z.to_nat (if start <? 0 then Z.max (len + start) 0 else Z.min start len) in
  (firstn s l ++ items ++ skipn (s + deleteCount) l)%list.

Definition delogoFilters : list string :=
  ["delogo=x=10:y=10:w=100:h=50"; "delogo=x=10:y=h-60:w=100:h=50"].

(** The argument vector [processVideoWithFFmpeg] builds. *)
Definition ffmpegArgs (inputPath outputPath : string) (removeWatermark : bool) (format : string)
  : list string :=
  let args0 := (["-i"; inputPath] ++ ["-c:v"; "libx264"] ++ ["-preset"; "medium"]
                  ++ ["-crf"; "23"] ++ ["-c:a"; "aac"] ++ ["-b:a"; "128k"])%list in
  let args1 := if removeWatermark
               then (args0 ++ ["-vf"; JsString.join "," delogoFilters])%list
               else args0 in
  let args2 := if String.eqb format "webm"
               then let a := splice (indexOf "-c:v" args1) 2 ["-c:v"; "libvpx-vp9"] args1 in
                    splice (indexOf "-c:a" a) 2 ["-c:a"; "libvorbis"] a
               else args1 in
  (args2 ++ ["-y"; outputPath])%list.

(** *** The two stages *)

Definition reportAll (message : string) (ps : list Q) : Proc unit :=
  (map (fun p => OnProgress p message) ps, inl tt).

Definition downloadWithYtDlp (w : World) (url outputDir quality : string) : Proc string :=
  let qualityFormat := getYtDlpQualityFormat quality in
  let outputTemplate := pathJoin outputDir "video.%(ext)s" in
  let args := ["--format"; qualityFormat; "--output"; outputTemplate;
               "--no-playlist"; "--extract-flat"; "false"; url] in
  emit (Log "info" ("Running yt-dlp with args: " ++ JsString.join " " args)) ;;
  emit (SpawnYtDlp args) ;;
  reportAll "Downloading video..." (w_fetch_progress w) ;;
  (([], w_fetch w) : Proc string).

Definition processVideoWithFFmpeg (w : World) (inputPath outputPath : string)
    (removeWatermark : bool) (format : string) : Proc unit :=
  let args := ffmpegArgs inputPath outputPath removeWatermark format in
  emit (Log "info" ("Running FFmpeg with args: " ++ JsString.join " " args)) ;;
  emit (SpawnFFmpeg args) ;;
  reportAll "Processing video..." (w_transform_progress w) ;;
  (([], match w_transform w with None => inl tt | Some message => inr message end) : Proc unit).

(** *** downloadAndProcessVideo *)

(** The [options] argument; a missing property is [None]. *)
Record Options := mkOptions {
  o_quality : option string;
  o_removeWatermark : option bool;
  o_format : option string
}.

Record Result := mkResult {
  success : bool;
  filePath : string;
  fileSize : Z;
  downloadUrl : string
}.

Definition quality_of (options : Options) : string := default "best" (o_quality options).
Definition removeWatermark_of (options : Options) : bool := default true (o_removeWatermark options).
Definition format_of (options : Options) : string := default "mp4" (o_format options).

Definition processingPath (jobId : string) : string := pathJoin PROCESSING_DIR jobId.
Definition outputPath (jobId format : string) : string :=
  pathJoin DOWNLOADS_DIR (jobId ++ "." ++ format).

(** The condition of step 2. *)
Definition needsTransform (removeWatermark : bool) (format : string) : bool :=
  removeWatermark || negb (String.eqb format "mp4").

(** The [try] block. *)
Definition processSteps (w : World) (jobId url : string) (options : Options) : Proc Result :=
  let quality := quality_of options in
  let removeWatermark := removeWatermark_of options in
  let format := format_of options in
  call (Mkdir (processingPath jobId)) (w_mkdir w) ;;
  emit (Log "info" ("Starting download for job " ++ jobId ++ ": " ++ url)) ;;
  emit (OnProgress 10 "Initializing download...") ;;
  rawVideoPath ← downloadWithYtDlp w url (processingPath jobId) quality;
  (if needsTransform removeWatermark format
   then emit (OnProgress 60 "Processing video...") ;;
        processVideoWithFFmpeg w rawVideoPath (outputPath jobId format) removeWatermark format
   else call (Rename rawVideoPath (outputPath jobId format)) (w_rename w)) ;;
  emit (OnProgress 100 "Download complete!") ;;
  stats ← (([Stat (outputPath jobId format)], w_stat w) : Proc Z);
  emit (Log "info" ("Successfully processed video for job " ++ jobId)) ;;
  ret {| success := true;
         filePath := outputPath jobId format;
         fileSize := stats;
         downloadUrl := "/downloads/" ++ jobId ++ "." ++ format |}.

(** The [finally] block, with its own [try]/[catch]. *)
Definition cleanupScratch (w : World) (jobId : string) : Proc unit :=
  tryCatch (call (RmRecursive (processingPath jobId)) (w_rm w))
           (fun message => emit (Log "warn" ("Failed to cleanup processing directory: " ++ message))).

Definition downloadAndProcessVideo (w : World) (jobId url : string) (options : Options)
  : Proc Result :=
  tryFinally
    (tryCatch (processSteps w jobId url options)
              (fun message =>
                 emit (Log "error" ("Failed to process video for job " ++ jobId ++ ": " ++ message)) ;;
                 throw message))
    (cleanupScratch w jobId).

(** *** extractVideoMetadata: the [catch] block *)

(** The message of the [Error] the [catch] block of
    [extractVideoMetadata] throws for a failure whose message is
    [message]. *)
Definition extractVideoMetadataCatch (message : string) : string :=
  if JsString.includes "timeout" message then
    "Video extraction timed out. The video might be too large or the platform is slow to respond."
  else if JsString.includes "Private video" message || JsString.includes "not available" message
  then "This video is private or not available for download."
  else "Failed to extract video information: " ++ message.

(** *** estimateFileSize *)

(** [format.filesize] when it is present and truthy, that is, not [0]. *)
Definition declaredFilesize (f : Format) : option Z :=
  match filesize f with
  | Some s => if s =? 0 then None else Some s
  | None => None
  end.

(** The conditional expression that names the tier of a height. *)
Definition sizeBand (h : Z) : string :=
  if h <=? 360 then "360p"
  else if h <=? 720 then "720p"
  else if h <=? 1080 then "1080p"
  else "4K".

(** The body of the [forEach] callback of [estimateFileSize]; [sizes] is
    the object being filled. *)
Definition addSize (sizes : gmap string Z) (format : Format) : gmap string Z :=
  match declaredFilesize format, declaredHeight format with
  | Some size, Some h =>
      let quality := sizeBand h in
      match sizes !! quality with
      | Some old =>
          if (old =? 0) || (size >? old) then <[quality := size]> sizes else sizes
      | None => <[quality := size]> sizes
      end
  | _, _ => sizes
  end.

Definition estimateFileSize (formats : list Format) : gmap string Z :=
  fold_left addSize formats ∅.

End VideoProcessor.

(** ** utils/urlValidator.js *)

Module UrlValidator.

(** *** The regular expressions of the platform table

    The patterns of the table use literal characters, the classes [\w],
    [\d], [.] and bracketed sets of these, groups, [?], [+] and [*], all
    under the [i] flag.  None has an anchor, a back-reference or a
    look-around, so [pattern.test(url)] holds exactly when some substring
    of [url] belongs to the regular language of the pattern. *)

Inductive CharSet :=
| Lit (c : ascii)                 (* a literal, compared without case *)
| Word                            (* \w *)
| Digit                           (* \d *)
| Dot                             (* . : anything but a line terminator *)
| Union (a b : CharSet).          (* [...] *)

Definition isDigit (c : ascii) : bool :=
  let n := nat_of_ascii c in (48 <=? n)%nat && (n <=? 57)%nat.

Definition isWord (c : ascii) : bool :=
  let n := nat_of_ascii c in
  isDigit c || ((65 <=? n)%nat && (n <=? 90)%nat)
            || ((97 <=? n)%nat && (n <=? 122)%nat) || (n =? 95)%nat.

Fixpoint inSet (cs : CharSet) (c : ascii) : bool :=
  match cs with
  | Lit l => Ascii.eqb (JsString.lowerAscii l) (JsString.lowerAscii c)
  | Word => isWord c
  | Digit => isDigit c
  | Dot => negb ((nat_of_ascii c =? 10)%nat || (nat_of_ascii c =? 13)%nat)
  | Union a b => inSet a c || inSet b c
  end.

Inductive Regex :=
| Void                            (* matches nothing *)
| Eps                             (* matches the empty string *)
| Sym (cs : CharSet)
| Cat (r1 r2 : Regex)
| Alt (r1 r2 : Regex)
| Star (r : Regex).

Fixpoint nullable (r : Regex) : bool :=
  match r with
  | Void => false
  | Eps => true
  | Sym _ => false
  | Cat r1 r2 => nullable r1 && nullable r2
  | Alt r1 r2 => nullable r1 || nullable r2
  | Star _ => true
  end.

Definition cat (r1 r2 : Regex) : Regex :=
  match r1, r2 with
  | Void, _ => Void
  | _, Void => Void
  | Eps, _ => r2
  | _, _ => Cat r1 r2
  end.

Definition alt (r1 r2 : Regex) : Regex :=
  match r1, r2 with
  | Void, _ => r2
  | _, Void => r1
  | _, _ => Alt r1 r2
  end.

(** The derivative of [r] by the character [c]. *)
Fixpoint deriv (c : ascii) (r : Regex) : Regex :=
  match r with
  | Void => Void
  | Eps => Void
  | Sym cs => if inSet cs c then Eps else Void
  | Cat r1 r2 =>
      alt (cat (deriv c r1) r2) (if nullable r1 then deriv c r2 else Void)
  | Alt r1 r2 => alt (deriv c r1) (deriv c r2)
  | Star r1 => cat (deriv c r1) (Star r1)
  end.

(** Some prefix of [s] matches [r]. *)
Fixpoint matchesPrefix (r : Regex) (s : string) : bool :=
  nullable r ||
  match s with
  | EmptyString => false
  | String c rest => matchesPrefix (deriv c r) rest
  end.

(** [r.test(s)]: a match may start at any index. *)
Fixpoint test (r : Regex) (s : string) : bool :=
  matchesPrefix r s ||
  match s with
  | EmptyString => false
  | String _ rest => test r rest
  end.

(** Pattern combinators. *)
Fixpoint str (s : string) : Regex :=
  match s with
  | EmptyString => Eps
  | String c EmptyString => Sym (Lit c)
  | String c rest => Cat (Sym (Lit c)) (str rest)
  end.

Definition opt (r : Regex) : Regex := Alt r Eps.
Definition plus (r : Regex) : Regex := Cat r (Star r).

Fixpoint seq (rs : list Regex) : Regex :=
  match rs with
  | [] => Eps
  | [r] => r
  | r :: rest => Cat r (seq rest)
  end.

(** [(?:https?:\/\/)?] and [(?:www\.)?], the head of most patterns. *)
Definition scheme : Regex := opt (seq [str "http"; opt (str "s"); str "://"]).
Definition www : Regex := opt (str "www.").

Definition wordDotDash : CharSet := Union Word (Union (Lit ".") (Lit "-")).   (* [\w.-] *)
Definition wordDash : CharSet := Union Word (Lit "-").                       (* [\w-] *)

(** *** The platform table *)

Record Platform := mkPlatform {
  key : string;
  domains : list string;
  patterns : list Regex;
  name : string
}.

Definition tiktok : Platform :=
  {| key := "tiktok";
     domains := ["tiktok.com"; "vm.tiktok.com"];
     patterns :=
       [ seq [scheme; www; str "tiktok.com/@"; plus (Sym wordDotDash);
              str "/video/"; plus (Sym Digit)];
         seq [scheme; str "vm.tiktok.com/"; plus (Sym Word)] ];
     name := "TikTok" |}.

Definition instagram : Platform :=
  {| key := "instagram";
     domains := ["instagram.com"];
     patterns :=
       [ seq [scheme; www; str "instagram.com/p/"; plus (Sym wordDash)];
         seq [scheme; www; str "instagram.com/reel/"; plus (Sym wordDash)];
         seq [scheme; www; str "instagram.com/stories/"; plus (Sym wordDotDash);
              str "/"; plus (Sym Digit)] ];
     name := "Instagram" |}.

Definition youtube : Platform :=
  {| key := "youtube";
     domains := ["youtube.com"; "youtu.be"; "m.youtube.com"];
     patterns :=
       [ seq [scheme; www; str "youtube.com/watch?v="; plus (Sym wordDash)];
         seq [scheme; www; str "youtube.com/embed/"; plus (Sym wordDash)];
         seq [scheme; str "youtu.be/"; plus (Sym wordDash)];
         seq [scheme; www; str "youtube.com/v/"; plus (Sym wordDash)] ];
     name := "YouTube" |}.

Definition twitter : Platform :=
  {| key := "twitter";
     domains := ["twitter.com"; "x.com"; "mobile.twitter.com"];
     patterns :=
       [ seq [scheme; www; str "twitter.com/"; plus (Sym Word); str "/status/"; plus (Sym Digit)];
         seq [scheme; www; str "x.com/"; plus (Sym Word); str "/status/"; plus (Sym Digit)];
         seq [scheme; str "mobile.twitter.com/"; plus (Sym Word); str "/status/";
              plus (Sym Digit)] ];
     name := "Twitter/X" |}.

Definition facebook : Platform :=
  {| key := "facebook";
     domains := ["facebook.com"; "fb.watch"; "m.facebook.com"];
     patterns :=
       [ seq [scheme; www; str "facebook.com/"; Star (Sym Dot); str "/videos/"; plus (Sym Digit)];
         seq [scheme; www; str "facebook.com/watch/?v="; plus (Sym Digit)];
         seq [scheme; str "fb.watch/"; plus (Sym wordDash)];
         seq [scheme; www; str "facebook.com/"; plus (Sym wordDotDash); str "/posts/";
              plus (Sym Digit)] ];
     name := "Facebook" |}.

Definition snapchat : Platform :=
  {| key := "snapchat";
     domains := ["snapchat.com"];
     patterns :=
       [ seq [scheme; www; str "snapchat.com/add/"; plus (Sym wordDotDash)];
         seq [scheme; str "story.snapchat.com/p/"; plus (Sym wordDash)] ];
     name := "Snapchat" |}.

(** [Object.values(SUPPORTED_PLATFORMS)], in the order of the keys. *)
Definition SUPPORTED_PLATFORMS : list Platform :=
  [tiktok; instagram; youtube; twitter; facebook; snapchat].

(** *** The matching rule *)

(** [platform.domains.some(domain => url.toLowerCase().includes(domain))] *)
Definition hasValidDomain (platform : Platform) (url : string) : bool :=
  existsb (fun domain => JsString.includes domain (JsString.toLowerCase url))
          (domains platform).

(** [platform.patterns.some(pattern => pattern.test(url))] *)
Definition matchesPattern (platform : Platform) (url : string) : bool :=
  existsb (fun pattern => test pattern url) (patterns platform).

(** The loop of [detectPlatform] over the table. *)
Fixpoint detectIn (platforms : list Platform) (url : string) : string :=
  match platforms with
  | [] => "unknown"
  | platform :: rest =>
      if hasValidDomain platform url then
        if matchesPattern platform url then name platform
        else detectIn rest url
      else detectIn rest url
  end.

(** [detectPlatform]; the empty string is falsy. *)
Definition detectPlatform (url : string) : string :=
  if String.eqb url "" then "unknown" else detectIn SUPPORTED_PLATFORMS url.

(** The loop of [validateUrl] over the table. *)
Fixpoint validateIn (platforms : list Platform) (url : string) : bool :=
  match platforms with
  | [] => false
  | platform :: rest =>
      if hasValidDomain platform url then
        if matchesPattern platform url then true
        else validateIn rest url
      else validateIn rest url
  end.

(** [validateUrl].  [parses] stands for [new URL(...)] not throwing. *)
Definition validateUrl (parses : string -> bool) (url : string) : bool :=
  if String.eqb url "" then false
  else if parses (if JsString.startsWith "http" url then url else "https://" ++ url)
       then validateIn SUPPORTED_PLATFORMS url
       else false.

(** *** getPlatformInfo *)

(** An entry of the table of [getPlatformCapabilities]; a property an
    entry does not have is [None]. *)
Record Capabilities := mkCapabilities {
  maxQuality : string;
  watermarkRemoval : bool;
  audioDownload : bool;
  batchDownload : bool;
  privateContent : bool;
  stories : option bool;
  reels : option bool;
  playlists : option bool
}.

Definition plainCapabilities (maxQuality : string) (watermarkRemoval : bool) : Capabilities :=
  {| maxQuality := maxQuality; watermarkRemoval := watermarkRemoval;
     audioDownload := true; batchDownload := false; privateContent := false;
     stories := None; reels := None; playlists := None |}.

(** [capabilities[platformName] || {}]; [None] is the empty object. *)
Definition getPlatformCapabilities (platformName : string) : option Capabilities :=
  if String.eqb platformName "TikTok" then Some (plainCapabilities "1080p" true)
  else if String.eqb platformName "Instagram" then
    Some {| maxQuality := "1080p"; watermarkRemoval := true; audioDownload := true;
            batchDownload := false; privateContent := false;
            stories := Some true; reels := Some true; playlists := None |}
  else if String.eqb platformName "YouTube" then
    Some {| maxQuality := "4K"; watermarkRemoval := false; audioDownload := true;
            batchDownload := false; privateContent := false;
            stories := None; reels := None; playlists := Some false |}
  else if String.eqb platformName "Twitter/X" then Some (plainCapabilities "1080p" true)
  else if String.eqb platformName "Facebook" then Some (plainCapabilities "1080p" true)
  else if String.eqb platformName "Snapchat" then Some (plainCapabilities "720p" true)
  else None.

Record PlatformInfo := mkPlatformInfo {
  infoName : string;
  infoDomains : list string;
  infoCapabilities : option Capabilities
}.

(** [getPlatformInfo]: [inl None] is [null]; reading [domains] of the
    [undefined] that [find] gives when no entry has the name throws a
    [TypeError]. *)
Definition getPlatformInfo (url : string) : option PlatformInfo + string :=
  let platformName := detectPlatform url in
  if String.eqb platformName "unknown" then inl None
  else
    match find (fun p => String.eqb (name p) platformName) SUPPORTED_PLATFORMS with
    | Some platformData =>
        inl (Some {| infoName := platformName;
                     infoDomains := domains platformData;
                     infoCapabilities := getPlatformCapabilities platformName |})
    | None => inr "TypeError: Cannot read properties of undefined (reading 'domains')"
    end.

End UrlValidator.

(** ** services/cleanup.js *)

Module Cleanup.

(** The file tree below [TEMP_DIR].  Times are milliseconds since the
    epoch, as [Date.now()] and [mtime.getTime()] give them.  During a call
    of the service the tree changes only through the calls the service
    makes. *)
#[warnings="-register-all"] Inductive Node :=
| File (mtime size : Z)
| Dir (mtime : Z) (entries : list (string * Node)).

Definition mtimeOf (n : Node) : Z :=
  match n with File m _ => m | Dir m _ => m end.

Definition isEmptyDir (n : Node) : bool :=
  match n with Dir _ [] => true | _ => false end.

Fixpoint lookupEntry (name : string) (entries : list (string * Node)) : option Node :=
  match entries with
  | [] => None
  | (n, node) :: rest => if String.eqb n name then Some node else lookupEntry name rest
  end.

Fixpoint replaceEntry (name : string) (node' : Node) (entries : list (string * Node))
  : list (string * Node) :=
  match entries with
  | [] => []
  | (n, node) :: rest =>
      if String.eqb n name then (n, node') :: rest
      else (n, node) :: replaceEntry name node' rest
  end.

(** The entries of the directory [name], none when it is missing. *)
Definition entriesOf (name : string) (entries : list (string * Node)) : list (string * Node) :=
  match lookupEntry name entries with
  | Some (Dir _ es) => es
  | _ => []
  end.

(** [TEMP_DIR] stands for [join(__dirname, '../../temp')]. *)
Definition TEMP_DIR : string := "temp".

Definition join (a b : string) : string := VideoProcessor.pathJoin a b.

(** *** The file system *)

(** The calls of the service that the file system can reject.  The three
    [readdir]s are the one of [cleanupDirectory] and [getDirectoryStats],
    the one of [cleanupEmptyDirectories] on the directory it is given
    ([withFileTypes]), and its check that a subdirectory is empty.  In one
    call of the service each of them is made at most once for a path. *)
Inductive Call :=
| Readdir (path : string)
| ReaddirTypes (path : string)
| ReaddirCheck (path : string)
| Stat (path : string)
| Unlink (path : string)
| Rm (path : string)
| Rmdir (path : string).

(** What the file system answers: [rejects c] says that the promise of the
    call [c] is rejected; [rmLeaves path] is the modification time and the
    entries of what a rejected [rm] leaves of the directory at [path];
    [touched c] is the modification time of the directory listed by the
    call [c] once the loop over that listing has removed one of its
    entries. *)
Record World := mkWorld {
  rejects : Call -> bool;
  rmLeaves : string -> Z * list (string * Node);
  touched : Call -> Z
}.

(** *** cleanupDirectory *)

(** The [for] loop of [cleanupDirectory] over the listed entries: the
    count of deletions, the bytes added to [stats.bytesFreed], and what is
    left.  Each entry has its own [try]/[catch]: when [stat] is rejected
    the entry is skipped; the size of an old file is added to the bytes
    before [unlink] is called, and a rejected [unlink] or [rm] leaves the
    entry uncounted. *)
Fixpoint sweepEntries (w : World) (dirPath : string) (now maxAge : Z)
    (files : list (string * Node)) : Z * Z * list (string * Node) :=
  match files with
  | [] => (0, 0, [])
  | (file, fileStat) :: rest =>
      let '(count, freed, kept) := sweepEntries w dirPath now maxAge rest in
      let filePath := join dirPath file in
      if rejects w (Stat filePath) then (count, freed, (file, fileStat) :: kept)
      else
        let age := now - mtimeOf fileStat in
        if age >? maxAge then
          match fileStat with
          | Dir _ _ =>
              if rejects w (Rm filePath)
              then (count, freed,
                    (file, Dir (rmLeaves w filePath).1 (rmLeaves w filePath).2) :: kept)
              else (count + 1, freed, kept)
          | File _ size =>
              if rejects w (Unlink filePath)
              then (count, size + freed, (file, fileStat) :: kept)
              else (count + 1, size + freed, kept)
          end
        else (count, freed, (file, fileStat) :: kept)
  end.

(** [cleanupDirectory(join(TEMP_DIR, dirName), maxAge, stats)], with
    [bytes] the value of [stats.bytesFreed]; when [readdir] is rejected
    (the directory is missing, is no directory, or cannot be read) the
    function returns [0]. *)
Definition cleanupDirectory (w : World) (dirName : string) (maxAge now bytes : Z)
    (temp : list (string * Node)) : Z * Z * list (string * Node) :=
  let dirPath := join TEMP_DIR dirName in
  match lookupEntry dirName temp with
  | Some (Dir m files) =>
      if rejects w (Readdir dirPath) then (0, bytes, temp)
      else
        let '(count, freed, kept) := sweepEntries w dirPath now maxAge files in
        let m' := if count >? 0 then touched w (Readdir dirPath) else m in
        (count, bytes + freed, replaceEntry dirName (Dir m' kept) temp)
  | _ => (0, bytes, temp)
  end.

(** *** cleanupEmptyDirectories *)

(** The inner [try] block for the subdirectory at [subDirPath], which is
    [n] after the recursive call: it goes when the [readdir] of the check
    is answered with no entry and the [rmdir] is not rejected; the [catch]
    block swallows a rejection and the directory stays. *)
Definition removed (w : World) (subDirPath : string) (n : Node) : bool :=
  negb (rejects w (ReaddirCheck subDirPath)) && isEmptyDir n
  && negb (rejects w (Rmdir subDirPath)).

(** The node at [dirPath] after [cleanupEmptyDirectories(dirPath)]: when
    the listing is rejected nothing happens; otherwise every subdirectory
    is cleaned first and then removed when it is empty. *)
Fixpoint emptyDirsCleaned (w : World) (dirPath : string) (n : Node) : Node :=
  match n with
  | File m s => File m s
  | Dir m es =>
      if rejects w (ReaddirTypes dirPath) then Dir m es
      else
        let es' :=
          (fix loop (l : list (string * Node)) : list (string * Node) :=
             match l with
             | [] => []
             | (name, child) :: rest =>
                 match child with
                 | File _ _ => (name, child) :: loop rest
                 | Dir _ _ =>
                     let subDirPath := join dirPath name in
                     let child' := emptyDirsCleaned w subDirPath child in
                     if removed w subDirPath child' then loop rest
                     else (name, child') :: loop rest
                 end
             end) es in
        Dir (if (length es' <? length es)%nat then touched w (ReaddirTypes dirPath) else m) es'
  end.

(** The [for] loop of [cleanupEmptyDirectories(dirPath)] over the listed
    entries. *)
Fixpoint cleanEntries (w : World) (dirPath : string) (entries : list (string * Node))
  : list (string * Node) :=
  match entries with
  | [] => []
  | (name, child) :: rest =>
      match child with
      | File _ _ => (name, child) :: cleanEntries w dirPath rest
      | Dir _ _ =>
          let subDirPath := join dirPath name in
          let child' := emptyDirsCleaned w subDirPath child in
          if removed w subDirPath child' then cleanEntries w dirPath rest
          else (name, child') :: cleanEntries w dirPath rest
      end
  end.

(** [cleanupEmptyDirectories(dirPath)] on the entries of [dirPath]. *)
Definition cleanupEmptyDirectories (w : World) (dirPath : string)
    (entries : list (string * Node)) : list (string * Node) :=
  if rejects w (ReaddirTypes dirPath) then entries else cleanEntries w dirPath entries.

Record Stats := mkStats {
  downloadsDeleted : Z;
  processingDeleted : Z;
  bytesFreed : Z
}.

Definition DOWNLOADS_MAX_AGE : Z := 60 * 60 * 1000.
Definition PROCESSING_MAX_AGE : Z := 30 * 60 * 1000.

(** One pass of [cleanup]; [now1] and [now2] are the two readings of the
    clock, one per watched directory. *)
Definition cleanup (w : World) (now1 now2 : Z) (temp : list (string * Node))
  : Stats * list (string * Node) :=
  let '(dd, b1, temp1) := cleanupDirectory w "downloads" DOWNLOADS_MAX_AGE now1 0 temp in
  let '(pd, b2, temp2) := cleanupDirectory w "processing" PROCESSING_MAX_AGE now2 b1 temp1 in
  ({| downloadsDeleted := dd; processingDeleted := pd; bytesFreed := b2 |},
   cleanupEmptyDirectories w TEMP_DIR temp2).

(** *** getStats *)

Record DirectoryStats := mkDirectoryStats {
  dirSize : Z;
  dirFiles : Z;
  lastModified : option Z
}.

Definition noStats : DirectoryStats :=
  {| dirSize := 0; dirFiles := 0; lastModified := None |}.

(** The body of the loop of [getDirectoryStats] for one listed entry:
    only a plain file counts, and an entry whose [stat] is rejected is
    skipped. *)
Definition statEntry (w : World) (dirPath : string) (stats : DirectoryStats)
    (entry : string * Node) : DirectoryStats :=
  if rejects w (Stat (join dirPath entry.1)) then stats
  else
    match entry.2 with
    | File mtime size =>
        {| dirSize := dirSize stats + size;
           dirFiles := dirFiles stats + 1;
           lastModified := match lastModified stats with
                           | Some latest => if mtime >? latest then Some mtime else Some latest
                           | None => Some mtime
                           end |}
    | Dir _ _ => stats
    end.

(** [getDirectoryStats(join(TEMP_DIR, dirName))]; when [readdir] is
    rejected (the directory is missing, is no directory, or cannot be
    read) the counts stay [0]. *)
Definition getDirectoryStats (w : World) (dirName : string) (temp : list (string * Node))
  : DirectoryStats :=
  let dirPath := join TEMP_DIR dirName in
  match lookupEntry dirName temp with
  | Some (Dir _ files) =>
      if rejects w (Readdir dirPath) then noStats
      else fold_left (statEntry w dirPath) files noStats
  | _ => noStats
  end.

Record ServiceStats := mkServiceStats {
  downloadsStats : DirectoryStats;
  processingStats : DirectoryStats;
  totalSize : Z;
  totalFiles : Z
}.

Definition getStats (w : World) (temp : list (string * Node)) : ServiceStats :=
  let downloads := getDirectoryStats w "downloads" temp in
  let processing := getDirectoryStats w "processing" temp in
  {| downloadsStats := downloads;
     processingStats := processing;
     totalSize := 0 + dirSize downloads + dirSize processing;
     totalFiles := 0 + dirFiles downloads + dirFiles processing |}.

End Cleanup.

(** ** routes/video.js and services/jobQueue.js

    The job store ([jobs]), the queue and the handlers that touch them, as
    one state machine.  A step is what runs between two suspensions of the
    event loop: a request handler, a timer callback, a progress callback,
    or the continuation that runs when the processor's promise settles. *)

Module JobSystem.

Inductive Status := queued | processing | completed | failed | cancelled.

(** A record of the [jobs] map.  Fields set later are [None] until then. *)
Record JobRecord := mkJobRecord {
  id : string;
  url : string;
  platform : string;
  quality : string;
  removeWatermark : bool;
  format : string;
  status : Status;
  progress : Q;
  message : option string;
  createdAt : Z;
  updatedAt : Z;
  clientIP : string;
  downloadUrl : option string;
  fileSize : option Z;
  completedAt : option Z;
  error : option string;
  failedAt : option Z
}.

(** The writes of [processJob], of its progress callback and of the
    [DELETE] handler to a record.  Each is applied with [alter], which is
    [if (jobs.has(jobId)) { ... jobs.set(jobId, jobData) }]. *)
Definition markProcessing (now : Z) (r : JobRecord) : JobRecord :=
  {| id := id r; url := url r; platform := platform r; quality := quality r;
     removeWatermark := removeWatermark r; format := format r;
     status := processing; progress := 5; message := message r;
     createdAt := createdAt r; updatedAt := now; clientIP := clientIP r;
     downloadUrl := downloadUrl r; fileSize := fileSize r;
     completedAt := completedAt r; error := error r; failedAt := failedAt r |}.

Definition reportProgress (p : Q) (msg : string) (now : Z) (r : JobRecord) : JobRecord :=
  {| id := id r; url := url r; platform := platform r; quality := quality r;
     removeWatermark := removeWatermark r; format := format r;
     status := status r; progress := p; message := Some msg;
     createdAt := createdAt r; updatedAt := now; clientIP := clientIP r;
     downloadUrl := downloadUrl r; fileSize := fileSize r;
     completedAt := completedAt r; error := error r; failedAt := failedAt r |}.

(** The success path reads the clock twice, [completedAt = new Date()] and
    then [updatedAt = new Date()]; [finishedAt] and [now] are the two
    readings.  The [catch] block does the same for [failedAt]. *)
Definition markCompleted (result : VideoProcessor.Result) (finishedAt now : Z) (r : JobRecord)
  : JobRecord :=
  {| id := id r; url := url r; platform := platform r; quality := quality r;
     removeWatermark := removeWatermark r; format := format r;
     status := completed; progress := 100; message := message r;
     createdAt := createdAt r; updatedAt := now; clientIP := clientIP r;
     downloadUrl := Some (VideoProcessor.downloadUrl result);
     fileSize := Some (VideoProcessor.fileSize result);
     completedAt := Some finishedAt; error := error r; failedAt := failedAt r |}.

Definition markFailed (msg : string) (finishedAt now : Z) (r : JobRecord) : JobRecord :=
  {| id := id r; url := url r; platform := platform r; quality := quality r;
     removeWatermark := removeWatermark r; format := format r;
     status := failed; progress := progress r; message := message r;
     createdAt := createdAt r; updatedAt := now; clientIP := clientIP r;
     downloadUrl := downloadUrl r; fileSize := fileSize r;
     completedAt := completedAt r; error := Some msg; failedAt := Some finishedAt |}.

Definition markCancelled (now : Z) (r : JobRecord) : JobRecord :=
  {| id := id r; url := url r; platform := platform r; quality := quality r;
     removeWatermark := removeWatermark r; format := format r;
     status := cancelled; progress := progress r; message := message r;
     createdAt := createdAt r; updatedAt := now; clientIP := clientIP r;
     downloadUrl := downloadUrl r; fileSize := fileSize r;
     completedAt := completedAt r; error := error r; failedAt := failedAt r |}.

(** The [data] of a queue item. *)
Record JobData := mkJobData {
  jobId : string;
  d_url : string;
  d_platform : string;
  d_quality : string;
  d_removeWatermark : bool;
  d_format : string
}.

Record Backoff := mkBackoff {
  backoffType : string;
  backoffDelay : Z
}.

(** The [options] of a queue item; a missing property is [None]. *)
Record QueueOptions := mkQueueOptions {
  attempts : option Z;
  delay : option Z;
  removeOnComplete : option Z;
  removeOnFail : option Z;
  backoff : option Backoff
}.

(** The [options] literal of [add]: a default for each of four properties,
    then [...options], which puts back every property [options] has. *)
Definition mergeOptions (o : QueueOptions) : QueueOptions :=
  {| attempts := Some (default 1 (attempts o));
     delay := Some (default 0 (delay o));
     removeOnComplete := Some (default 5 (removeOnComplete o));
     removeOnFail := Some (default 5 (removeOnFail o));
     backoff := backoff o |}.

Inductive ItemStatus := waiting | itemProcessing.

(** An item of a queue (the [job] object of [add]). *)
Record WorkItem := mkWorkItem {
  itemId : string;
  data : JobData;
  options : QueueOptions;
  attempt : Z;
  itemCreatedAt : Z;
  itemStatus : ItemStatus
}.

(** A pending [setTimeout] of [processJob]: the delay and what the
    callback passes to [add]. *)
Record Timer := mkTimer {
  timerDelay : Z;
  timerData : JobData;
  timerOptions : QueueOptions
}.

(** The lines the queue and the routes write to the log. *)
Inductive LogEntry :=
| LogCreated (jobId platform url : string)
| LogAdded (itemId queueName : string)
| LogProcessing (jobId : string) (attempt : Z)
| LogCompleted (jobId : string)
| LogJobFailed (jobId : string) (attempt : Z) (message : string)
| LogRetrying (jobId : string) (backoffDelay : Z)
| LogCancelled (jobId : string).

(** [running] is the queue being drained and the item whose [processJob]
    awaits the processor, if any. *)
Record State := mkState {
  jobs : gmap string JobRecord;
  queues : gmap string (list WorkItem);
  isProcessing : bool;
  running : option (string * WorkItem);
  timers : list Timer;
  logs : list LogEntry
}.

Definition initial : State :=
  {| jobs := ∅; queues := ∅; isProcessing := false; running := None;
     timers := []; logs := [] |}.

(** *** jobQueue.js *)

(** [processJob] up to its [await]. *)
Definition startJob (queueName : string) (job : WorkItem) (now : Z) (st : State) : State :=
  let job' := {| itemId := itemId job; data := data job; options := options job;
                 attempt := attempt job + 1; itemCreatedAt := itemCreatedAt job;
                 itemStatus := itemProcessing |} in
  let j := jobId (data job) in
  {| jobs := alter (markProcessing now) j (jobs st);
     queues := queues st;
     isProcessing := isProcessing st;
     running := Some (queueName, job');
     timers := timers st;
     logs := (logs st ++ [LogProcessing j (attempt job')])%list |}.

(** The head of the [while] loop of [processQueue]: take the next item and
    start it, or leave the loop. *)
Definition drainNext (queueName : string) (now : Z) (st : State) : State :=
  match default [] (queues st !! queueName) with
  | [] =>
      {| jobs := jobs st; queues := queues st; isProcessing := false;
         running := running st; timers := timers st; logs := logs st |}
  | job :: rest =>
      startJob queueName job now
        {| jobs := jobs st; queues := <[queueName := rest]> (queues st);
           isProcessing := isProcessing st; running := running st;
           timers := timers st; logs := logs st |}
  end.

(** [processQueue] up to its first [await]. *)
Definition processQueue (queueName : string) (now : Z) (st : State) : State :=
  if isProcessing st then st
  else
    let st1 := {| jobs := jobs st; queues := queues st; isProcessing := true;
                  running := running st; timers := timers st; logs := logs st |} in
    match queues st !! queueName with
    | None | Some [] =>
        {| jobs := jobs st; queues := queues st; isProcessing := false;
           running := running st; timers := timers st; logs := logs st |}
    | Some (_ :: _) => drainNext queueName now st1
    end.

(** [add]; the new item always starts with [attempt: 0]. *)
Definition add (queueName : string) (d : JobData) (o : QueueOptions) (now : Z) (st : State)
  : State :=
  let job := {| itemId := if String.eqb (jobId d) "" then pretty now else jobId d;
                data := d;
                options := mergeOptions o;
                attempt := 0;
                itemCreatedAt := now;
                itemStatus := waiting |} in
  let st1 := {| jobs := jobs st;
                queues := <[queueName := (default [] (queues st !! queueName) ++ [job])%list]>
                            (queues st);
                isProcessing := isProcessing st;
                running := running st;
                timers := timers st;
                logs := (logs st ++ [LogAdded (itemId job) queueName])%list |} in
  if isProcessing st1 then st1 else processQueue queueName now st1.

(** [job.options.backoff?.delay || 5000] *)
Definition baseDelay (o : QueueOptions) : Z :=
  match backoff o with
  | Some b => if backoffDelay b =? 0 then 5000 else backoffDelay b
  | None => 5000
  end.

(** [job.attempt < job.options.attempts]; false when [attempts] is
    [undefined]. *)
Definition attemptsRemain (job : WorkItem) : bool :=
  match attempts (options job) with
  | Some a => attempt job <? a
  | None => false
  end.

(** The progress callback of [processJob]: a closure over the [jobId] of
    the run that made it.  It writes to the record of that identifier
    whenever it is called, also after the run it belongs to has ended: a
    [yt-dlp] child whose error output rejected the promise is not killed
    and goes on reporting. *)
Definition onProgress (j : string) (p : Q) (msg : string) (now : Z) (st : State) : State :=
  {| jobs := alter (reportProgress p msg now) j (jobs st);
     queues := queues st; isProcessing := isProcessing st; running := running st;
     timers := timers st; logs := logs st |}.

(** [processJob] after its [await]: the success path or the [catch]
    block. *)
Definition finishJob (job : WorkItem) (outcome : VideoProcessor.Result + string)
    (finishedAt writtenAt : Z) (st : State) : State :=
  let j := jobId (data job) in
  match outcome with
  | inl result =>
      {| jobs := alter (markCompleted result finishedAt writtenAt) j (jobs st);
         queues := queues st; isProcessing := isProcessing st; running := running st;
         timers := timers st;
         logs := (logs st ++ [LogCompleted j])%list |}
  | inr msg =>
      if attemptsRemain job then
        let backoffDelay := baseDelay (options job) * 2 ^ (attempt job - 1) in
        {| jobs := jobs st; queues := queues st; isProcessing := isProcessing st;
           running := running st;
           timers := (timers st ++ [{| timerDelay := backoffDelay; timerData := data job;
                                       timerOptions := options job |}])%list;
           logs := (logs st ++ [LogJobFailed j (attempt job) msg; LogRetrying j backoffDelay])%list |}
      else
        {| jobs := alter (markFailed msg finishedAt writtenAt) j (jobs st);
           queues := queues st; isProcessing := isProcessing st; running := running st;
           timers := timers st;
           logs := (logs st ++ [LogJobFailed j (attempt job) msg])%list |}
  end.

(** The processor's promise settles: [processJob] finishes and the loop of
    [processQueue] goes on with the next item.  [finishedAt] and
    [writtenAt] are the two clock readings of [processJob], [now] the one
    of the next run. *)
Definition settle (outcome : VideoProcessor.Result + string) (finishedAt writtenAt now : Z)
    (st : State) : State :=
  match running st with
  | None => st
  | Some (queueName, job) =>
      let st1 := finishJob job outcome finishedAt writtenAt st in
      drainNext queueName now
        {| jobs := jobs st1; queues := queues st1; isProcessing := isProcessing st1;
           running := None; timers := timers st1; logs := logs st1 |}
  end.

(** The [i]-th pending timer fires:
    [this.add('processVideo', job.data, job.options)]. *)
Definition fireTimer (i : nat) (now : Z) (st : State) : State :=
  match timers st !! i with
  | None => st
  | Some t =>
      add "processVideo" (timerData t) (timerOptions t) now
        {| jobs := jobs st; queues := queues st; isProcessing := isProcessing st;
           running := running st; timers := delete i (timers st); logs := logs st |}
  end.

(** [JobQueue.cleanup]: old finished records leave the store (the log
    lines of this sweep are left out). *)
Definition MAX_JOB_AGE : Z := 24 * 60 * 60 * 1000.

Definition expired (now : Z) (r : JobRecord) : bool :=
  (now - createdAt r >? MAX_JOB_AGE) &&
  match status r with completed | failed => true | _ => false end.

Definition cleanup (now : Z) (st : State) : State :=
  {| jobs := filter (fun kv => expired now kv.2 = false) (jobs st);
     queues := queues st; isProcessing := isProcessing st; running := running st;
     timers := timers st; logs := logs st |}.

(** *** routes/video.js *)

(** The body of [POST /download]; an omitted property is [None]. *)
Record DownloadBody := mkDownloadBody {
  b_url : string;
  b_quality : option string;
  b_removeWatermark : option bool;
  b_format : option string
}.

Record Response := mkResponse {
  httpStatus : Z;
  ok : bool;
  text : string
}.

(** The options the route passes to [jobQueue.add]. *)
Definition downloadOptions : QueueOptions :=
  {| attempts := Some 3;
     delay := None;
     removeOnComplete := Some 10;
     removeOnFail := Some 5;
     backoff := Some {| backoffType := "exponential"; backoffDelay := 5000 |} |}.

(** The data of the queue item the route builds, after the defaults of the
    destructuring. *)
Definition jobDataOf (body : DownloadBody) (newId : string) : JobData :=
  {| jobId := newId;
     d_url := b_url body;
     d_platform := UrlValidator.detectPlatform (b_url body);
     d_quality := default "best" (b_quality body);
     d_removeWatermark := default true (b_removeWatermark body);
     d_format := default "mp4" (b_format body) |}.

(** [POST /download].  [errorsEmpty] is [validationResult(req).isEmpty()],
    [newId] the identifier [uuidv4()] returns. *)
Definition postDownload (errorsEmpty : bool) (body : DownloadBody) (newId ip : string)
    (now : Z) (st : State) : Response * State :=
  if errorsEmpty then
    let d := jobDataOf body newId in
    let job := {| id := newId; url := d_url d; platform := d_platform d;
                  quality := d_quality d; removeWatermark := d_removeWatermark d;
                  format := d_format d; status := queued; progress := 0;
                  message := None; createdAt := now; updatedAt := now; clientIP := ip;
                  downloadUrl := None; fileSize := None; completedAt := None;
                  error := None; failedAt := None |} in
    let st1 := {| jobs := <[newId := job]> (jobs st); queues := queues st;
                  isProcessing := isProcessing st; running := running st;
                  timers := timers st;
                  logs := (logs st ++ [LogCreated newId (d_platform d) (d_url d)])%list |} in
    ({| httpStatus := 200; ok := true; text := "Video processing started" |},
     add "processVideo" d downloadOptions now st1)
  else ({| httpStatus := 400; ok := false; text := "Invalid input" |}, st).


(** [DELETE /job/:jobId] *)
Definition deleteJob (j : string) (now : Z) (st : State) : Response * State :=
  match jobs st !! j with
  | None => ({| httpStatus := 404; ok := false; text := "Job not found" |}, st)
  | Some job =>
      ({| httpStatus := 200; ok := true; text := "Job cancelled/deleted successfully" |},
       {| jobs := match status job with
                  | processing | queued => <[j := markCancelled now job]> (jobs st)
                  | _ => delete j (jobs st)
                  end;
          queues := queues st; isProcessing := isProcessing st; running := running st;
          timers := timers st;
          logs := (logs st ++ [LogCancelled j])%list |})
  end.


(** *** JobQueue.getStats *)

(** The object [getStats] returns: [waiting], [processing], [total] and
    [isProcessing]. *)
Record QueueStats := mkQueueStats {
  waitingCount : nat;
  processingCount : nat;
  total : nat;
  busy : bool
}.

Definition hasItemStatus (s : ItemStatus) (job : WorkItem) : bool :=
  match itemStatus job, s with
  | waiting, waiting => true
  | itemProcessing, itemProcessing => true
  | _, _ => false
  end.

Definition getStats (queueName : string) (st : State) : QueueStats :=
  let queue := default [] (queues st !! queueName) in
  {| waitingCount := length (List.filter (hasItemStatus waiting) queue);
     processingCount := length (List.filter (hasItemStatus itemProcessing) queue);
     total := length queue;
     busy := isProcessing st |}.

(** *** The steps of the system *)

(** [Progress j] is a call of the progress callback that a run of the job
    [j] has made.  [Settle] carries the clock readings of [processJob]
    after its [await], [finishedAt] and [writtenAt], and the reading
    [now] of the run that the loop starts next. *)
Inductive Event :=
| Submit (errorsEmpty : bool) (body : DownloadBody) (newId ip : string) (now : Z)
| Progress (j : string) (p : Q) (msg : string) (now : Z)
| Settle (outcome : VideoProcessor.Result + string) (finishedAt writtenAt now : Z)
| Fire (i : nat) (now : Z)
| Delete (j : string) (now : Z)
| Sweep (now : Z).

Definition next (e : Event) (st : State) : State :=
  match e with
  | Submit errorsEmpty body newId ip now => (postDownload errorsEmpty body newId ip now st).2
  | Progress j p msg now => onProgress j p msg now st
  | Settle outcome finishedAt writtenAt now => settle outcome finishedAt writtenAt now st
  | Fire i now => fireTimer i now st
  | Delete j now => (deleteJob j now st).2
  | Sweep now => cleanup now st
  end.

Definition run (es : list Event) (st : State) : State :=
  fold_left (fun s e => next e s) es st.

(** The job identifiers with work outstanding: queued, in flight, or
    waiting for a retry timer. *)
Definition videoQueue (st : State) : list WorkItem :=
  default [] (queues st !! "processVideo").

Definition runningIds (st : State) : list string :=
  match running st with
  | Some (_, job) => [jobId (data job)]
  | None => []
  end.

Definition pendingIds (st : State) : list string :=
  (map (fun job => jobId (data job)) (videoQueue st) ++ runningIds st
     ++ map (fun t => jobId (timerData t)) (timers st))%list.

(** [uuidv4()] returns an identifier that is in use nowhere; a progress
    callback exists for a job once a run of it has started. *)
Definition enabled (e : Event) (st : State) : Prop :=
  match e with
  | Submit _ _ newId _ _ => jobs st !! newId = None ∧ newId ∉ pendingIds st
  | Progress j _ _ _ => ∃ attempt, In (LogProcessing j attempt) (logs st)
  | _ => True
  end.

Inductive reachable : State -> Prop :=
| reachable_initial : reachable initial
| reachable_next st e : reachable st -> enabled e st -> reachable (next e st).

End JobSystem.

(** ** middleware/errorHandler.js *)

Module ErrorHandler.

(** What the handler reads of the value that was thrown; a property the
    value does not have is [None]. *)
Record Err := mkErr {
  errName : option string;
  errCode : option string;
  errMessage : option string
}.

(** [new Error(message)] *)
Definition newError (message : string) : Err :=
  {| errName := Some "Error"; errCode := None; errMessage := Some message |}.

(** The [error] and [message] properties of the JSON body; the other
    properties ([details], [retryAfter], [requestId], [timestamp],
    [stack]) have no part in the choice of the status. *)
Record ErrorBody := mkErrorBody {
  errorLabel : string;
  errorMessage : option string
}.

Definition nameIs (n : string) (err : Err) : bool :=
  match errName err with Some m => String.eqb m n | None => false end.

Definition codeIs (c : string) (err : Err) : bool :=
  match errCode err with Some d => String.eqb d c | None => false end.

(** [err.message && err.message.includes(sub)] *)
Definition messageIncludes (sub : string) (err : Err) : bool :=
  match errMessage err with
  | Some m => negb (String.eqb m "") && JsString.includes sub m
  | None => false
  end.

(** [err.message || 'Resource not found'] *)
Definition messageOr (fallback : string) (err : Err) : string :=
  match errMessage err with
  | Some m => if String.eqb m "" then fallback else m
  | None => fallback
  end.

Definition defaultBody : ErrorBody :=
  {| errorLabel := "Internal Server Error";
     errorMessage := Some "Something went wrong on our end" |}.

(** The [if]/[else if] chain: the branch taken sets the status and the
    body; [None] when no branch is taken. *)
Definition classify (err : Err) : option (Z * ErrorBody) :=
  if nameIs "ValidationError" err then
    Some (400, {| errorLabel := "Validation Error"; errorMessage := errMessage err |})
  else if nameIs "UnauthorizedError" err then
    Some (401, {| errorLabel := "Unauthorized";
                  errorMessage := Some "Invalid API key or authentication required" |})
  else if nameIs "ForbiddenError" err then
    Some (403, {| errorLabel := "Forbidden"; errorMessage := Some "Access denied" |})
  else if nameIs "NotFoundError" err then
    Some (404, {| errorLabel := "Not Found";
                  errorMessage := Some (messageOr "Resource not found" err) |})
  else if nameIs "RateLimitError" err then
    Some (429, {| errorLabel := "Rate Limit Exceeded";
                  errorMessage := Some "Too many requests. Please try again later." |})
  else if codeIs "ENOENT" err then
    Some (404, {| errorLabel := "File Not Found";
                  errorMessage := Some "The requested file could not be found" |})
  else if codeIs "ENOSPC" err then
    Some (507, {| errorLabel := "Storage Full";
                  errorMessage := Some "Server storage is full. Please try again later." |})
  else if messageIncludes "timeout" err then
    Some (408, {| errorLabel := "Timeout";
                  errorMessage :=
                    Some "Request timed out. The video might be too large or the source is slow." |})
  else if messageIncludes "private" err then
    Some (403, {| errorLabel := "Access Denied";
                  errorMessage := Some "This video is private or requires authentication" |})
  else if messageIncludes "unavailable" err then
    Some (410, {| errorLabel := "Content Unavailable";
                  errorMessage := Some "This video is not available for download" |})
  else None.

(** [errorHandler(err, req, res, next)]; [statusCode] is [res.statusCode]
    when the handler is entered.  The result is the status and the body of
    the response. *)
Definition errorHandler (err : Err) (statusCode : Z) : Z * ErrorBody :=
  let '(statusCode1, error) :=
    match classify err with
    | Some (status, body) => (status, body)
    | None => (statusCode, defaultBody)
    end in
  (if (statusCode1 =? 0) || (statusCode1 =? 200) then 500 else statusCode1, error).

(** [POST /extract] when [extractVideoMetadata] failed with [message]:
    the route passes the error of the [catch] block to [next], and the
    handler answers on the response, whose status is still [200]. *)
Definition extractFailureResponse (message : string) : Z * ErrorBody :=
  errorHandler (newError (VideoProcessor.extractVideoMetadataCatch message)) 200.

End ErrorHandler.

(** ** middleware/auth.js *)

Module Auth.

(** The keys [API_KEYS] holds when the module is loaded.  The [Set] is a
    list in insertion order, without duplicates. *)
Definition API_KEYS : list string := ["demo-key-12345"; "test-key-67890"].

(** [process.env] *)
Record Env := mkEnv {
  NODE_ENV : option string;
  SKIP_AUTH : option string
}.

(** [req.headers['x-api-key']] and [req.query.apiKey] *)
Record Request := mkRequest {
  headerApiKey : option string;
  queryApiKey : option string
}.

Inductive Outcome :=
| Next (apiKey : option string)            (* next(), with [req.apiKey] *)
| Reject (status : Z) (message : string).  (* res.status(status).json(...) *)

Definition envIs (expected : string) (v : option string) : bool :=
  match v with Some s => String.eqb s expected | None => false end.

Definition truthy (v : option string) : bool :=
  match v with Some s => negb (String.eqb s "") | None => false end.

(** [a || b] *)
Definition orElse (a b : option string) : option string :=
  if truthy a then a else b.

(** [API_KEYS.has(key)] *)
Definition has (key : string) (keys : list string) : bool :=
  existsb (String.eqb key) keys.

Definition validateApiKey (env : Env) (keys : list string) (req : Request) : Outcome :=
  if envIs "development" (NODE_ENV env) && envIs "true" (SKIP_AUTH env) then Next None
  else
    let apiKey := orElse (headerApiKey req) (queryApiKey req) in
    if negb (truthy apiKey) then
      Reject 401 "API key is required. Include X-API-Key header or apiKey query parameter."
    else if negb (has (default "" apiKey) keys) then Reject 401 "Invalid API key"
    else Next apiKey.

(** [addApiKey]: the store afterwards. *)
Definition addApiKey (key : string) (keys : list string) : list string :=
  VideoProcessor.set_add key keys.

(** [removeApiKey]: what [API_KEYS.delete(key)] returns, and the store
    afterwards. *)
Definition removeApiKey (key : string) (keys : list string) : bool * list string :=
  (has key keys, List.filter (fun k => negb (String.eqb k key)) keys).

Record ListedKey := mkListedKey {
  maskedKey : string;
  keyLength : nat;
  created : string
}.

(** [listApiKeys] *)
Definition listApiKeys (keys : list string) : list ListedKey :=
  map (fun key => {| maskedKey := String.substring 0 10 key ++ "...";
                     keyLength := String.length key;
                     created := "unknown" |}) keys.

End Auth.

(** * Properties *)

(** ** The processor's pure helpers *)

Module QualityProperties.
Import VideoProcessor.

(** C4. The quality-to-selector mapping is a total function on quality
    strings: ['360p'], ['720p'] and ['1080p'] map to the selector bounded by
    that height, and ['original'], ['best'] and every other string map to
    the unbounded selector ['best']. *)
Theorem quality_selector_total :
  getYtDlpQualityFormat "360p" = "best[height<=360]" ∧
  getYtDlpQualityFormat "720p" = "best[height<=720]" ∧
  getYtDlpQualityFormat "1080p" = "best[height<=1080]" ∧
  getYtDlpQualityFormat "original" = "best" ∧
  getYtDlpQualityFormat "best" = "best" ∧
  ∀ quality : string,
    quality ≠ "360p" → quality ≠ "720p" → quality ≠ "1080p" →
    getYtDlpQualityFormat quality = "best".
Proof.
  repeat split; try reflexivity.
  intros quality H360 H720 H1080. unfold getYtDlpQualityFormat.
  destruct (String.eqb_spec quality "360p"); [contradiction|].
  destruct (String.eqb_spec quality "720p"); [contradiction|].
  destruct (String.eqb_spec quality "1080p"); [contradiction|].
  destruct (String.eqb quality "original"); reflexivity.
Qed.

Lemma quality_selector_total_witness : getYtDlpQualityFormat "4K" = "best".
Proof.
  apply (proj2 (proj2 (proj2 (proj2 (proj2 quality_selector_total)))));
    discriminate.
Defined.

(** The mapping from heights to tiers as the specification words it: one
    rule per tier. *)
Inductive spec_tier_rule : Z -> string -> Prop :=
| rule_360p h : h <= 360 -> spec_tier_rule h "360p"
| rule_720p h : h <= 720 -> spec_tier_rule h "720p"
| rule_1080p h : h <= 1080 -> spec_tier_rule h "1080p"
| rule_4K h : h > 1080 -> spec_tier_rule h "4K".


Lemma set_add_In (x t : string) (s : list string) :
  In t (set_add x s) ↔ t = x ∨ In t s.
Proof.
  unfold set_add. destruct (existsb (String.eqb x) s) eqn:E.
  - split; [tauto|]. intros [->|H]; [|exact H].
    apply existsb_exists in E as (y & Hy & Heq).
    apply String.eqb_eq in Heq. now subst.
  - rewrite in_app_iff. simpl. intuition.
Qed.


Lemma addQualities_In (t : string) (qualities : list string) (f : Format) :
  In t (addQualities qualities f) ↔
  In t qualities ∨ ∃ h, declaredHeight f = Some h ∧ spec_tier_rule h t.
Proof.
  unfold addQualities. destruct (declaredHeight f) as [h|].
  - destruct (Z.leb_spec h 360), (Z.leb_spec h 720), (Z.leb_spec h 1080),
      (Z.gtb_spec h 1080); try lia; rewrite ?set_add_In;
      (split;
       [ intros Hin; repeat (destruct Hin as [Hin|Hin]);
         [ right; exists h; subst t; split; [reflexivity|constructor; lia] .. | now left ]
       | intros [Hin|(h' & [= <-] & Hr)];
         [ tauto | inversion Hr; subst; try lia; tauto ] ]).
  - split; [tauto|]. intros [H|(h & Hh & _)]; [exact H|discriminate].
Qed.


Lemma fold_addQualities_In (t : string) (formats : list Format) (acc : list string) :
  In t (fold_left addQualities formats acc) ↔
  In t acc ∨ ∃ f h, In f formats ∧ declaredHeight f = Some h ∧ spec_tier_rule h t.
Proof.
  revert acc. induction formats as [|f formats IH]; intros acc; simpl.
  - split; [tauto|]. intros [H|(f & h & [] & _)]. exact H.
  - rewrite IH, addQualities_In. split.
    + intros [[H|(h & Hh & Hr)]|(f' & h & Hin & Hh & Hr)].
      * now left.
      * right. exists f, h. auto.
      * right. exists f', h. auto.
    + intros [H|(f' & h & [<-|Hin] & Hh & Hr)].
      * left. now left.
      * left. right. exists h. auto.
      * right. exists f', h. auto.
Qed.


Lemma sortInsert_In (cmp : string -> string -> Z) (t x : string) (l : list string) :
  In t (sortInsert cmp x l) ↔ t = x ∨ In t l.
Proof.
  induction l as [|y l IH]; simpl.
  - intuition.
  - destruct (cmp x y <? 0); simpl; [intuition|]. rewrite IH. intuition.
Qed.

Lemma sortBy_In_acc (cmp : string -> string -> Z) (t : string) (l acc : list string) :
  In t (fold_left (fun a x => sortInsert cmp x a) l acc) ↔ In t l ∨ In t acc.
Proof.
  revert acc. induction l as [|x l IH]; intros acc; simpl.
  - intuition.
  - rewrite IH, sortInsert_In. intuition.
Qed.




(** The four rules are applied one by one: a single format 240 pixels high
    lists three tiers; a format without a height, or with height 0, lists
    none. *)
Example qualities_of_one_low_format :
  extractAvailableQualities [mkFormat (Some 240) None None] = ["360p"; "720p"; "1080p"].
Proof. reflexivity. Qed.

Example qualities_in_ascending_order :
  extractAvailableQualities
    [mkFormat (Some 2160) None None; mkFormat None (Some 1000) None;
     mkFormat (Some 0) None None; mkFormat (Some 1000) None None]
  = ["1080p"; "4K"].
Proof. reflexivity. Qed.






(** A height is declared when the property is there and is not [0]. *)
Lemma declaredHeight_spec (f : Format) (h : Z) :
  declaredHeight f = Some h ↔ height f = Some h ∧ h ≠ 0.
Proof.
  unfold declaredHeight. destruct (height f) as [x|]; [|intuition discriminate].
  destruct (Z.eqb_spec x 0); split.
  - discriminate.
  - intros [[= ->] Hne]. contradiction.
  - intros [= ->]. auto.
  - intros [[= ->] _]. reflexivity.
Qed.




(** *** estimateFileSize *)

(** The format counts for the tier [q] with the size [s]. *)
Definition counts (q : string) (s : Z) (f : Format) : Prop :=
  ∃ h, declaredFilesize f = Some s ∧ declaredHeight f = Some h ∧ sizeBand h = q.

(** What the object holds for the tier [q] after the formats [formats]:
    the largest size of a format that counts for [q], or nothing when no
    format counts for it. *)
Definition largestSize (formats : list Format) (q : string) (entry : option Z) : Prop :=
  match entry with
  | Some s =>
      (∃ f, In f formats ∧ counts q s f) ∧
      (∀ f s', In f formats → counts q s' f → s' <= s)
  | None => ∀ f s', In f formats → ¬ counts q s' f
  end.

Lemma declaredFilesize_nonzero (f : Format) (s : Z) :
  declaredFilesize f = Some s → s ≠ 0.
Proof.
  unfold declaredFilesize. destruct (filesize f) as [x|]; [|discriminate].
  destruct (Z.eqb_spec x 0); [discriminate|congruence].
Qed.

Lemma addSize_other (sizes : gmap string Z) (f : Format) (q : string) :
  (∀ s, ¬ counts q s f) → addSize sizes f !! q = sizes !! q.
Proof.
  intros Hnot. unfold addSize.
  destruct (declaredFilesize f) as [s|] eqn:Hs; [|reflexivity].
  destruct (declaredHeight f) as [h|] eqn:Hh; [|reflexivity].
  assert (sizeBand h ≠ q) as Hne.
  { intros Heq. apply (Hnot s). exists h. auto. }
  cbn zeta. destruct (sizes !! sizeBand h) as [old|];
    [destruct ((old =? 0) || (s >? old))|]; rewrite ?lookup_insert_ne; auto.
Qed.

Lemma addSize_step (formats : list Format) (sizes : gmap string Z) (f : Format) (q : string) :
  largestSize formats q (sizes !! q) →
  largestSize (formats ++ [f]) q (addSize sizes f !! q).
Proof.
  intros Hinv.
  destruct (declaredFilesize f) as [s|] eqn:Hs;
    [destruct (declaredHeight f) as [h|] eqn:Hh;
     [destruct (decide (sizeBand h = q)) as [Hq|Hq]|]|].
  - (* the format counts for [q] *)
    assert (counts q s f) as Hcounts by (exists h; auto).
    assert (∀ s', counts q s' f → s' = s) as Honly.
    { intros s' (h' & Hs' & _). congruence. }
    unfold addSize. rewrite Hs, Hh. cbn zeta. rewrite Hq.
    destruct (sizes !! q) as [old|] eqn:Hold.
    + destruct Hinv as [(g & Hg & Hgs) Hmax].
      assert (old ≠ 0) as Hnz.
      { destruct Hgs as (hg & Hgs & _). eapply declaredFilesize_nonzero, Hgs. }
      apply Z.eqb_neq in Hnz. rewrite Hnz. cbn [orb].
      destruct (Z.gtb_spec s old) as [Hgt|Hle].
      * rewrite lookup_insert_eq. split.
        -- exists f. split; [apply in_app_iff; right; now left|exact Hcounts].
        -- intros f' s' Hin Hs'. apply in_app_iff in Hin as [Hin|[<-|[]]].
           ++ specialize (Hmax f' s' Hin Hs'). lia.
           ++ rewrite (Honly s' Hs'). lia.
      * rewrite Hold. split.
        -- exists g. split; [apply in_app_iff; now left|exact Hgs].
        -- intros f' s' Hin Hs'. apply in_app_iff in Hin as [Hin|[<-|[]]].
           ++ apply (Hmax f' s' Hin Hs').
           ++ rewrite (Honly s' Hs'). exact Hle.
    + rewrite lookup_insert_eq. split.
      * exists f. split; [apply in_app_iff; right; now left|exact Hcounts].
      * intros f' s' Hin Hs'. apply in_app_iff in Hin as [Hin|[<-|[]]].
        -- exfalso. apply (Hinv f' s' Hin Hs').
        -- rewrite (Honly s' Hs'). lia.
  - rewrite addSize_other.
    + unfold largestSize in *. destruct (sizes !! q) as [old|].
      * destruct Hinv as [(g & Hg & Hgs) Hmax]. split.
        -- exists g. split; [apply in_app_iff; now left|exact Hgs].
        -- intros f' s' Hin Hs'. apply in_app_iff in Hin as [Hin|[<-|[]]].
           ++ apply (Hmax f' s' Hin Hs').
           ++ destruct Hs' as (h' & _ & Hh' & Hq'). congruence.
      * intros f' s' Hin Hs'. apply in_app_iff in Hin as [Hin|[<-|[]]].
        -- apply (Hinv f' s' Hin Hs').
        -- destruct Hs' as (h' & _ & Hh' & Hq'). congruence.
    + intros s' (h' & _ & Hh' & Hq'). congruence.
  - rewrite addSize_other.
    + unfold largestSize in *. destruct (sizes !! q) as [old|].
      * destruct Hinv as [(g & Hg & Hgs) Hmax]. split.
        -- exists g. split; [apply in_app_iff; now left|exact Hgs].
        -- intros f' s' Hin Hs'. apply in_app_iff in Hin as [Hin|[<-|[]]].
           ++ apply (Hmax f' s' Hin Hs').
           ++ destruct Hs' as (h' & _ & Hh' & _). congruence.
      * intros f' s' Hin Hs'. apply in_app_iff in Hin as [Hin|[<-|[]]].
        -- apply (Hinv f' s' Hin Hs').
        -- destruct Hs' as (h' & _ & Hh' & _). congruence.
    + intros s' (h' & _ & Hh' & _). congruence.
  - rewrite addSize_other.
    + unfold largestSize in *. destruct (sizes !! q) as [old|].
      * destruct Hinv as [(g & Hg & Hgs) Hmax]. split.
        -- exists g. split; [apply in_app_iff; now left|exact Hgs].
        -- intros f' s' Hin Hs'. apply in_app_iff in Hin as [Hin|[<-|[]]].
           ++ apply (Hmax f' s' Hin Hs').
           ++ destruct Hs' as (h' & Hs' & _). congruence.
      * intros f' s' Hin Hs'. apply in_app_iff in Hin as [Hin|[<-|[]]].
        -- apply (Hinv f' s' Hin Hs').
        -- destruct Hs' as (h' & Hs' & _). congruence.
    + intros s' (h' & Hs' & _). congruence.
Qed.

Lemma fold_addSize_largest (formats : list Format) (q : string) :
  largestSize formats q (fold_left addSize formats ∅ !! q).
Proof.
  induction formats as [|f formats IH] using rev_ind.
  - simpl. rewrite lookup_empty. intros f s' [].
  - rewrite fold_left_app. simpl. now apply addSize_step.
Qed.

(** The band of heights of each tier, one band per tier: up to 360, above
    360 up to 720, above 720 up to 1080, above 1080. *)
Inductive tier_band : Z -> string -> Prop :=
| band_360p h : h <= 360 -> tier_band h "360p"
| band_720p h : 360 < h -> h <= 720 -> tier_band h "720p"
| band_1080p h : 720 < h -> h <= 1080 -> tier_band h "1080p"
| band_4K h : 1080 < h -> tier_band h "4K".

(** The format declares the size [s] (present and not [0]) and a height
    (present and not [0]) in the band of the tier [q]. *)
Definition sized (q : string) (s : Z) (f : Format) : Prop :=
  ∃ h, filesize f = Some s ∧ s ≠ 0 ∧ height f = Some h ∧ h ≠ 0 ∧ tier_band h q.

Lemma sizeBand_band (h : Z) (q : string) : sizeBand h = q ↔ tier_band h q.
Proof.
  unfold sizeBand. split.
  - intros <-.
    destruct (Z.leb_spec h 360); [now constructor|].
    destruct (Z.leb_spec h 720); [now constructor|].
    destruct (Z.leb_spec h 1080); now constructor.
  - intros [h' H1|h' H1 H2|h' H1 H2|h' H1];
      destruct (Z.leb_spec h' 360); try lia; try reflexivity;
      destruct (Z.leb_spec h' 720); try lia; try reflexivity;
      destruct (Z.leb_spec h' 1080); try lia; reflexivity.
Qed.

Lemma declaredFilesize_spec (f : Format) (s : Z) :
  declaredFilesize f = Some s ↔ filesize f = Some s ∧ s ≠ 0.
Proof.
  unfold declaredFilesize. destruct (filesize f) as [x|]; [|intuition discriminate].
  destruct (Z.eqb_spec x 0); split.
  - discriminate.
  - intros [[= ->] Hne]. contradiction.
  - intros [= ->]. auto.
  - intros [[= ->] _]. reflexivity.
Qed.

Lemma sized_counts (q : string) (s : Z) (f : Format) : sized q s f ↔ counts q s f.
Proof.
  unfold sized, counts. split.
  - intros (h & Hs & Hsne & Hh & Hhne & Hb). exists h.
    split; [apply declaredFilesize_spec; auto|].
    split; [apply declaredHeight_spec; auto|now apply sizeBand_band].
  - intros (h & Hs & Hh & Hb). exists h.
    apply declaredFilesize_spec in Hs as [Hs Hsne].
    apply declaredHeight_spec in Hh as [Hh Hhne].
    apply sizeBand_band in Hb. auto 10.
Qed.

(** X1. For every tier, [estimateFileSize] holds the largest file size among
    the formats that declare a size and a height (both present and not
    [0]) and whose height falls in the band of the tier (up to 360: 360p;
    above 360 up to 720: 720p; above 720 up to 1080: 1080p; above 1080:
    4K), and holds nothing for a tier no such format falls in. *)
Theorem estimateFileSize_largest (formats : list Format) (q : string) :
  match estimateFileSize formats !! q with
  | Some s =>
      (∃ f, In f formats ∧ sized q s f) ∧
      (∀ f s', In f formats → sized q s' f → s' <= s)
  | None => ∀ f s', In f formats → ¬ sized q s' f
  end.
Proof.
  pose proof (fold_addSize_largest formats q) as Hl.
  unfold estimateFileSize. unfold largestSize in Hl.
  destruct (fold_left addSize formats ∅ !! q) as [s|].
  - destruct Hl as [(f & Hin & Hf) Hmax]. split.
    + exists f. split; [exact Hin|now apply sized_counts].
    + intros f' s' Hin' Hs'. apply (Hmax f' s' Hin'). now apply sized_counts.
  - intros f s' Hin Hs'. apply (Hl f s' Hin). now apply sized_counts.
Qed.

(** Formats of 240, 480, 720 and 700 pixels with a size, and one of 2160
    pixels whose size is [0]. *)
Definition sampleFormats : list Format :=
  [mkFormat (Some 240) (Some 5000) None; mkFormat (Some 480) (Some 7000) None;
   mkFormat (Some 720) (Some 9000) (Some "aac");
   mkFormat (Some 700) (Some 8000) None; mkFormat (Some 2160) (Some 0) None].

Lemma estimateFileSize_largest_witness :
  estimateFileSize sampleFormats !! "360p" = Some 5000 ∧
  estimateFileSize sampleFormats !! "720p" = Some 9000 ∧
  estimateFileSize sampleFormats !! "1080p" = None ∧
  estimateFileSize sampleFormats !! "4K" = None ∧
  (∀ f s', In f sampleFormats → sized "720p" s' f → s' <= 9000) ∧
  (∀ f s', In f sampleFormats → ¬ sized "4K" s' f).
Proof.
  assert (estimateFileSize sampleFormats !! "720p" = Some 9000) as Hmid by reflexivity.
  assert (estimateFileSize sampleFormats !! "4K" = None) as Htop by reflexivity.
  pose proof (estimateFileSize_largest sampleFormats "720p") as H720.
  pose proof (estimateFileSize_largest sampleFormats "4K") as H4K.
  rewrite Hmid in H720. rewrite Htop in H4K.
  split; [reflexivity|]. split; [exact Hmid|]. split; [reflexivity|].
  split; [exact Htop|]. split; [exact (proj2 H720)|exact H4K].
Defined.

Lemma sizeBand_rule (h : Z) : spec_tier_rule h (sizeBand h).
Proof.
  unfold sizeBand.
  destruct (Z.leb_spec h 360); [now constructor|].
  destruct (Z.leb_spec h 720); [now constructor|].
  destruct (Z.leb_spec h 1080); [now constructor|].
  constructor. lia.
Qed.

(** X2. Every tier that gets a size estimate is one of the available
    qualities of the same formats.  The converse fails: a format of
    height 240 with a size makes three tiers available and gives a size
    to the lowest only. *)
Theorem estimated_tiers_are_available :
  (∀ (formats : list Format) (q : string),
     is_Some (estimateFileSize formats !! q) →
     In q (extractAvailableQualities formats)) ∧
  (∃ (formats : list Format) (q : string),
     In q (extractAvailableQualities formats) ∧ estimateFileSize formats !! q = None).
Proof.
  split.
  - intros formats q [s Hs].
    pose proof (fold_addSize_largest formats q) as Hl.
    unfold estimateFileSize in Hs. rewrite Hs in Hl.
    destruct Hl as [(f & Hin & h & _ & Hh & Hq) _].
    unfold extractAvailableQualities, sortBy.
    apply sortBy_In_acc. left. apply fold_addQualities_In. right.
    exists f, h. split; [exact Hin|]. split; [exact Hh|]. subst q. apply sizeBand_rule.
  - exists [mkFormat (Some 240) (Some 5000) None], "720p". split; [|reflexivity].
    vm_compute. tauto.
Qed.

End QualityProperties.

(** ** The media processor *)

Module ProcessorProperties.
Import VideoProcessor.

(** The transcoder was spawned. *)
Definition isTransform (e : Effect) : bool :=
  match e with SpawnFFmpeg _ => true | _ => false end.

Definition transformInvoked (trace : list Effect) : bool := existsb isTransform trace.


(** The extension of a path: what follows its last dot. *)
Fixpoint extension (path : string) : option string :=
  match path with
  | EmptyString => None
  | String c rest =>
      match extension rest with
      | Some e => Some e
      | None => if Ascii.eqb c "." then Some rest else None
      end
  end.

(** The container format of the fetched file, which the fetch stage
    writes as [video.%(ext)s]. *)
Definition containerOf (rawVideoPath : string) : string :=
  default "" (extension rawVideoPath).

Lemma transform_progress_free (message : string) (ps : list Q) :
  existsb isTransform (map (fun p => OnProgress p message) ps) = false.
Proof. induction ps; simpl; auto. Qed.

Lemma rename_progress_free (message src dst : string) (ps : list Q) :
  ¬ In (Rename src dst) (map (fun p => OnProgress p message) ps).
Proof. induction ps; simpl; [tauto|]. intros [H|H]; [discriminate|auto]. Qed.

(** The effects of a run: those of the try block, the error line of the
    [catch] block, the removal of the [finally] block and its warning. *)
Definition afterSteps (w : World) (jobId : string) (outcome : Result + string) : list Effect :=
  (match outcome with
   | inl _ => []
   | inr message =>
       [Log "error" ("Failed to process video for job " ++ jobId ++ ": " ++ message)]
   end
   ++ RmRecursive (processingPath jobId)
      :: match w_rm w with
         | None => []
         | Some message =>
             [Log "warn" ("Failed to cleanup processing directory: " ++ message)]
         end)%list.

Lemma downloadAndProcessVideo_unfold (w : World) (jobId url : string) (options : Options) :
  downloadAndProcessVideo w jobId url options =
    (((processSteps w jobId url options).1
        ++ afterSteps w jobId (processSteps w jobId url options).2)%list,
     (processSteps w jobId url options).2).
Proof.
  unfold downloadAndProcessVideo, cleanupScratch, call, afterSteps.
  destruct (processSteps w jobId url options) as [tr [r|e]], (w_rm w); simpl;
    rewrite <- ?List.app_assoc, ?List.app_nil_r; reflexivity.
Qed.

Lemma afterSteps_transform_free (w : World) (jobId : string) (outcome : Result + string) :
  existsb isTransform (afterSteps w jobId outcome) = false.
Proof. unfold afterSteps. destruct outcome, (w_rm w); reflexivity. Qed.

Lemma afterSteps_rename_free (w : World) (jobId : string) (outcome : Result + string)
    (src dst : string) :
  ¬ In (Rename src dst) (afterSteps w jobId outcome).
Proof. unfold afterSteps. destruct outcome, (w_rm w); simpl; intuition discriminate. Qed.


(** The effects of the try block once the fetch stage has produced a
    file. *)
Lemma processSteps_after_fetch (w : World) (jobId url : string) (options : Options)
    (rawVideoPath : string) :
  w_mkdir w = None →
  w_fetch w = inl rawVideoPath →
  let format := format_of options in
  let removeWatermark := removeWatermark_of options in
  ∃ rest,
    (processSteps w jobId url options).1 =
      ([Mkdir (processingPath jobId);
        Log "info" ("Starting download for job " ++ jobId ++ ": " ++ url);
        OnProgress 10 "Initializing download...";
        Log "info" ("Running yt-dlp with args: " ++ JsString.join " "
                      ["--format"; getYtDlpQualityFormat (quality_of options); "--output";
                       pathJoin (processingPath jobId) "video.%(ext)s";
                       "--no-playlist"; "--extract-flat"; "false"; url]);
        SpawnYtDlp ["--format"; getYtDlpQualityFormat (quality_of options); "--output";
                    pathJoin (processingPath jobId) "video.%(ext)s";
                    "--no-playlist"; "--extract-flat"; "false"; url]]
       ++ map (fun p => OnProgress p "Downloading video...") (w_fetch_progress w)
       ++ (if needsTransform removeWatermark format
           then [OnProgress 60 "Processing video...";
                 Log "info" ("Running FFmpeg with args: " ++ JsString.join " "
                               (ffmpegArgs rawVideoPath (outputPath jobId format)
                                           removeWatermark format));
                 SpawnFFmpeg (ffmpegArgs rawVideoPath (outputPath jobId format)
                                         removeWatermark format)]
                ++ map (fun p => OnProgress p "Processing video...") (w_transform_progress w)
           else [Rename rawVideoPath (outputPath jobId format)])
       ++ rest)%list ∧
    existsb isTransform rest = false ∧
    ∀ src dst, ¬ In (Rename src dst) rest.
Proof.
  intros Hmk Hfetch format removeWatermark.
  unfold processSteps, downloadWithYtDlp, processVideoWithFFmpeg, reportAll, call, emit.
  rewrite Hmk, Hfetch. fold format removeWatermark.
  destruct (needsTransform removeWatermark format).
  - destruct (w_transform w), (w_stat w);
      cbn -[ffmpegArgs getYtDlpQualityFormat JsString.join String.append
            processingPath outputPath];
      rewrite ?app_nil_r;
      (eexists; split;
       [ repeat (f_equal; try reflexivity); rewrite <- ?app_assoc; simpl;
         try reflexivity; try (symmetry; apply app_nil_r)
       | simpl; split; [reflexivity|intros src dst; simpl; intuition discriminate] ]).
  - destruct (w_rename w), (w_stat w);
      cbn -[ffmpegArgs getYtDlpQualityFormat JsString.join String.append
            processingPath outputPath];
      rewrite ?app_nil_r;
      (eexists; split;
       [ repeat (f_equal; try reflexivity); rewrite <- ?app_assoc; simpl;
         try reflexivity; try (symmetry; apply app_nil_r)
       | simpl; split; [reflexivity|intros src dst; simpl; intuition discriminate] ]).
Qed.

Lemma trace_transform (w : World) (jobId url : string) (options : Options)
    (rawVideoPath : string) :
  w_mkdir w = None →
  w_fetch w = inl rawVideoPath →
  transformInvoked (downloadAndProcessVideo w jobId url options).1 =
  needsTransform (removeWatermark_of options) (format_of options).
Proof.
  intros Hmk Hfetch.
  destruct (processSteps_after_fetch w jobId url options rawVideoPath Hmk Hfetch)
    as (rest & Hsteps & Hfree & _).
  rewrite downloadAndProcessVideo_unfold. unfold transformInvoked. cbn [fst].
  rewrite Hsteps, !existsb_app, Hfree, afterSteps_transform_free, transform_progress_free.
  destruct (needsTransform _ _); simpl; rewrite ?transform_progress_free; reflexivity.
Qed.

Lemma trace_rename (w : World) (jobId url : string) (options : Options)
    (rawVideoPath src dst : string) :
  w_mkdir w = None →
  w_fetch w = inl rawVideoPath →
  In (Rename src dst) (downloadAndProcessVideo w jobId url options).1 ↔
  needsTransform (removeWatermark_of options) (format_of options) = false ∧
  src = rawVideoPath ∧ dst = outputPath jobId (format_of options).
Proof.
  intros Hmk Hfetch.
  destruct (processSteps_after_fetch w jobId url options rawVideoPath Hmk Hfetch)
    as (rest & Hsteps & _ & Hfree).
  rewrite downloadAndProcessVideo_unfold. cbn [fst].
  rewrite Hsteps, !in_app_iff.
  pose proof (afterSteps_rename_free w jobId (processSteps w jobId url options).2 src dst).
  pose proof (rename_progress_free "Downloading video..." src dst (w_fetch_progress w)).
  pose proof (rename_progress_free "Processing video..." src dst (w_transform_progress w)).
  pose proof (Hfree src dst).
  destruct (needsTransform _ _); simpl; rewrite ?in_app_iff; simpl.
  - intuition discriminate.
  - split.
    + intros Hin. split; [reflexivity|].
      intuition (try discriminate);
        match goal with
        | Heq : Rename _ _ = Rename _ _ |- _ => injection Heq as <- <-; reflexivity
        end.
    + intros (_ & -> & ->). auto 10.
Qed.

Lemma needsTransform_true (removeWatermark : bool) (format : string) :
  needsTransform removeWatermark format = true ↔ removeWatermark = true ∨ format ≠ "mp4".
Proof.
  unfold needsTransform. destruct removeWatermark, (String.eqb_spec format "mp4"); simpl;
    intuition congruence.
Qed.

(** A run whose fetch stage leaves [video.webm] and whose other calls
    succeed. *)
Definition webmWorld : World :=
  {| w_mkdir := None; w_fetch_progress := [50%Q];
     w_fetch := inl "temp/processing/job-1/video.webm";
     w_transform_progress := []; w_transform := None; w_rename := None;
     w_stat := inl 1024; w_rm := None |}.

(** What the request asks for, read from the options as they are passed:
    watermark removal is asked for unless the option is [false] (an
    omitted option counts as [true]), and a format other than ['mp4'] is
    asked for when the option names one (an omitted option counts as
    ['mp4']). *)
Definition watermarkRemovalRequested (options : Options) : Prop :=
  o_removeWatermark options ≠ Some false.

Definition requestedFormatDiffers (options : Options) (other : string) : Prop :=
  match o_format options with
  | Some format => format ≠ other
  | None => "mp4" ≠ other
  end.

Lemma requested_spec (options : Options) :
  (removeWatermark_of options = true ↔ watermarkRemovalRequested options) ∧
  ∀ other, format_of options ≠ other ↔ requestedFormatDiffers options other.
Proof.
  unfold removeWatermark_of, format_of, watermarkRemovalRequested, requestedFormatDiffers.
  split.
  - destruct (o_removeWatermark options) as [[]|]; simpl; split; congruence.
  - intros other. destruct (o_format options); simpl; tauto.
Qed.

(** C3, as stated, fails: with no watermark removal and the format mp4
    requested, a fetched [video.webm] differs from the requested format, yet
    the transcoder is not spawned (the file is renamed to [job-1.mp4]). *)
Lemma transform_not_decided_by_fetched_container :
  ¬ (∀ (w : World) (jobId url : string) (options : Options) (rawVideoPath : string),
       w_mkdir w = None →
       w_fetch w = inl rawVideoPath →
       (transformInvoked (downloadAndProcessVideo w jobId url options).1 = true ↔
        watermarkRemovalRequested options ∨
        requestedFormatDiffers options (containerOf rawVideoPath))).
Proof.
  intros H.
  specialize (H webmWorld "job-1" "https://youtu.be/abc"
                {| o_quality := None; o_removeWatermark := Some false; o_format := Some "mp4" |}
                "temp/processing/job-1/video.webm" eq_refl eq_refl).
  destruct H as [_ H]. assert (false = true) as Habs; [|discriminate Habs].
  apply H. right. vm_compute. discriminate.
Qed.

(** C3, amended. Once the fetch stage has produced a file, the transcoder
    is spawned if and only if watermark removal is requested (the option is
    not [false]) or the requested format is not ['mp4']; otherwise the
    fetched file is renamed to the output path, [temp/downloads/<jobId>.mp4],
    and the transcoder is not spawned; when the transcoder is spawned,
    nothing is renamed. *)
Theorem transform_iff_watermark_or_not_mp4
    (w : World) (jobId url : string) (options : Options) (rawVideoPath : string) :
  w_mkdir w = None →
  w_fetch w = inl rawVideoPath →
  let trace := (downloadAndProcessVideo w jobId url options).1 in
  (transformInvoked trace = true ↔
   watermarkRemovalRequested options ∨ requestedFormatDiffers options "mp4") ∧
  (transformInvoked trace = false ↔
   In (Rename rawVideoPath ("temp/downloads/" ++ jobId ++ ".mp4")) trace) ∧
  (transformInvoked trace = true → ∀ src dst, ¬ In (Rename src dst) trace).
Proof.
  intros Hmk Hfetch trace. subst trace.
  destruct (requested_spec options) as [Hwm Hfmt].
  rewrite (trace_transform w jobId url options rawVideoPath Hmk Hfetch).
  split; [rewrite needsTransform_true, Hwm, (Hfmt "mp4"); reflexivity|]. split.
  - rewrite (trace_rename w jobId url options rawVideoPath) by auto. split.
    + intros Hno. split; [exact Hno|]. split; [reflexivity|].
      assert (format_of options = "mp4") as ->; [|reflexivity].
      unfold needsTransform in Hno. apply orb_false_elim in Hno as [_ Hno].
      apply negb_false_iff in Hno. now apply String.eqb_eq in Hno.
    + tauto.
  - intros Hyes src dst Hin.
    apply (trace_rename w jobId url options rawVideoPath) in Hin as (Hno & _); auto.
    congruence.
Qed.

Lemma transform_iff_watermark_or_not_mp4_witness :
  (* mp4 requested, no watermark removal: the fetched webm is renamed *)
  (transformInvoked
     (downloadAndProcessVideo webmWorld "job-1" "https://youtu.be/abc"
        {| o_quality := None; o_removeWatermark := Some false; o_format := Some "mp4" |}).1
   = false ∧
   In (Rename "temp/processing/job-1/video.webm" "temp/downloads/job-1.mp4")
      (downloadAndProcessVideo webmWorld "job-1" "https://youtu.be/abc"
         {| o_quality := None; o_removeWatermark := Some false;
            o_format := Some "mp4" |}).1) ∧
  (* webm requested, no watermark removal: the transcoder runs *)
  transformInvoked
    (downloadAndProcessVideo webmWorld "job-1" "https://youtu.be/abc"
       {| o_quality := None; o_removeWatermark := Some false; o_format := Some "webm" |}).1
  = true ∧
  (* nothing said about the watermark: the transcoder runs *)
  transformInvoked
    (downloadAndProcessVideo webmWorld "job-1" "https://youtu.be/abc"
       {| o_quality := None; o_removeWatermark := None; o_format := None |}).1
  = true.
Proof.
  split; [|split].
  - destruct (transform_iff_watermark_or_not_mp4 webmWorld "job-1" "https://youtu.be/abc"
                {| o_quality := None; o_removeWatermark := Some false;
                   o_format := Some "mp4" |}
                "temp/processing/job-1/video.webm" eq_refl eq_refl) as (Hiff & Hrename & _).
    assert (transformInvoked
              (downloadAndProcessVideo webmWorld "job-1" "https://youtu.be/abc"
                 {| o_quality := None; o_removeWatermark := Some false;
                    o_format := Some "mp4" |}).1 = false) as Hno.
    { apply not_true_is_false. intros Hyes. apply Hiff in Hyes as [Hwm|Hfmt].
      - apply Hwm. reflexivity.
      - apply Hfmt. reflexivity. }
    split; [exact Hno|]. apply Hrename, Hno.
  - apply (transform_iff_watermark_or_not_mp4 webmWorld "job-1" "https://youtu.be/abc"
             {| o_quality := None; o_removeWatermark := Some false;
                o_format := Some "webm" |}
             "temp/processing/job-1/video.webm" eq_refl eq_refl).
    right. simpl. discriminate.
  - apply (transform_iff_watermark_or_not_mp4 webmWorld "job-1" "https://youtu.be/abc"
             {| o_quality := None; o_removeWatermark := None; o_format := None |}
             "temp/processing/job-1/video.webm" eq_refl eq_refl).
    left. discriminate.
Defined.




(** *** The outcome of a run *)

(** The answer to step 2: that of the transcoder when the condition of
    step 2 holds, that of the rename otherwise. *)
Definition stepTwo (w : World) (options : Options) : option string :=
  if needsTransform (removeWatermark_of options) (format_of options)
  then w_transform w else w_rename w.

(** The first failure among the awaited steps decides. *)
Definition firstFailure (w : World) (jobId : string) (options : Options) : Result + string :=
  match w_mkdir w with
  | Some message => inr message
  | None =>
      match w_fetch w with
      | inr message => inr message
      | inl _ =>
          match stepTwo w options with
          | Some message => inr message
          | None =>
              match w_stat w with
              | inr message => inr message
              | inl size =>
                  inl {| success := true;
                         filePath := outputPath jobId (format_of options);
                         fileSize := size;
                         downloadUrl := "/downloads/" ++ jobId ++ "." ++ format_of options |}
              end
          end
      end
  end.

Lemma processSteps_outcome (w : World) (jobId url : string) (options : Options) :
  (processSteps w jobId url options).2 = firstFailure w jobId options.
Proof.
  unfold firstFailure, stepTwo, processSteps, downloadWithYtDlp, processVideoWithFFmpeg,
    reportAll, call, emit.
  destruct (w_mkdir w); [reflexivity|].
  destruct (w_fetch w); [|reflexivity].
  destruct (needsTransform _ _);
    [destruct (w_transform w)|destruct (w_rename w)]; try reflexivity;
    destruct (w_stat w); reflexivity.
Qed.

(** X3. A run succeeds exactly when the creation of the scratch directory,
    the fetch, step 2 (the transcoder or the rename) and the [stat] of the
    output all succeed, and its result then names the output file
    [<jobId>.<format>] with the size [stat] gave; otherwise it throws the
    message of the first of these steps that failed, unchanged.  The
    removal of the scratch directory has no part in the outcome. *)
Theorem run_outcome (w : World) (jobId url : string) (options : Options) :
  (downloadAndProcessVideo w jobId url options).2 = firstFailure w jobId options.
Proof.
  rewrite downloadAndProcessVideo_unfold. cbn [snd].
  unfold firstFailure, stepTwo, processSteps, downloadWithYtDlp, processVideoWithFFmpeg,
    reportAll, call, emit.
  destruct (w_mkdir w); [reflexivity|].
  destruct (w_fetch w); [|reflexivity].
  destruct (needsTransform _ _);
    [destruct (w_transform w)|destruct (w_rename w)]; try reflexivity;
    destruct (w_stat w); reflexivity.
Qed.

Definition complete : Effect := OnProgress 100 "Download complete!".

Lemma complete_not_reported (message : string) (ps : list Q) :
  message ≠ "Download complete!" →
  ¬ In complete (map (fun p => OnProgress p message) ps).
Proof.
  intros Hne. induction ps as [|p ps IH]; simpl; [tauto|].
  intros [[= _ Hm]|Hin]; [congruence|auto].
Qed.

Lemma afterSteps_complete_free (w : World) (jobId : string) (outcome : Result + string) :
  ¬ In complete (afterSteps w jobId outcome).
Proof.
  unfold afterSteps, complete. rewrite in_app_iff.
  destruct outcome, (w_rm w); simpl; intuition discriminate.
Qed.

(** X4. The run reports [100 %, Download complete!] as soon as step 2 has
    succeeded, before it looks at the output file: the report is made
    exactly when the scratch directory was created, the fetch produced a
    file and step 2 succeeded.  So every successful run has reported it,
    and a run whose [stat] fails throws after having reported it. *)
Theorem complete_reported_before_stat (w : World) (jobId url : string) (options : Options) :
  (In complete (downloadAndProcessVideo w jobId url options).1 ↔
   w_mkdir w = None ∧ (∃ rawVideoPath, w_fetch w = inl rawVideoPath) ∧
   stepTwo w options = None) ∧
  (∀ result, (downloadAndProcessVideo w jobId url options).2 = inl result →
             In complete (downloadAndProcessVideo w jobId url options).1) ∧
  (∀ message,
     w_mkdir w = None → (∃ rawVideoPath, w_fetch w = inl rawVideoPath) →
     stepTwo w options = None → w_stat w = inr message →
     In complete (downloadAndProcessVideo w jobId url options).1 ∧
     (downloadAndProcessVideo w jobId url options).2 = inr message).
Proof.
  assert (In complete (downloadAndProcessVideo w jobId url options).1 ↔
          w_mkdir w = None ∧ (∃ rawVideoPath, w_fetch w = inl rawVideoPath) ∧
          stepTwo w options = None) as Hiff.
  { rewrite downloadAndProcessVideo_unfold. cbn [fst]. rewrite in_app_iff.
    pose proof (afterSteps_complete_free w jobId (processSteps w jobId url options).2) as Hafter.
    transitivity (In complete (processSteps w jobId url options).1); [tauto|]. clear Hafter.
    pose proof (complete_not_reported "Downloading video..." (w_fetch_progress w)
                  ltac:(discriminate)) as Hfp.
    pose proof (complete_not_reported "Processing video..." (w_transform_progress w)
                  ltac:(discriminate)) as Htp.
    unfold stepTwo, processSteps, downloadWithYtDlp, processVideoWithFFmpeg, reportAll,
      call, emit.
    destruct (w_mkdir w) as [e|]; [|destruct (w_fetch w) as [raw|e]].
    - simpl. split; [|intros (H & _); discriminate H].
      unfold complete. intros [H|[]]. discriminate H.
    - destruct (needsTransform _ _);
        [destruct (w_transform w)|destruct (w_rename w)];
        try destruct (w_stat w);
        cbn -[ffmpegArgs getYtDlpQualityFormat JsString.join String.append
              processingPath outputPath complete In];
        rewrite ?app_nil_r; repeat first [rewrite in_app_iff | progress cbn [In]];
        (split;
         [ intros Hin; try (split; [reflexivity|split; [eauto|reflexivity]]);
           exfalso; unfold complete in *;
           intuition (try discriminate; try congruence)
         | intros (_ & _ & Hs); try discriminate Hs; unfold complete;
           repeat (first [left; reflexivity | right]) ]).
    - cbn -[getYtDlpQualityFormat JsString.join String.append processingPath complete In].
      rewrite ?app_nil_r. split; [|intros (_ & (raw & Hraw) & _); discriminate Hraw].
      cbn [In]. rewrite ?in_app_iff. cbn [In]. unfold complete in *.
      intuition (try discriminate; try congruence). }
  split; [exact Hiff|]. split.
  - intros result Hres. apply Hiff.
    rewrite downloadAndProcessVideo_unfold in Hres. cbn [snd] in Hres.
    rewrite processSteps_outcome in Hres.
    unfold firstFailure in Hres.
    destruct (w_mkdir w); [discriminate|]. destruct (w_fetch w) as [raw|]; [|discriminate].
    destruct (stepTwo w options); [discriminate|]. eauto.
  - intros message Hmk Hfetch Hstep Hstat. split; [apply Hiff; auto|].
    rewrite downloadAndProcessVideo_unfold. cbn [snd].
    rewrite processSteps_outcome. unfold firstFailure.
    destruct Hfetch as (raw & ->). now rewrite Hmk, Hstep, Hstat.
Qed.

Lemma complete_reported_before_stat_witness :
  In complete
     (downloadAndProcessVideo
        {| w_mkdir := None; w_fetch_progress := [25%Q];
           w_fetch := inl "temp/processing/job-1/video.mp4";
           w_transform_progress := []; w_transform := None; w_rename := None;
           w_stat := inr "ENOENT: no such file or directory"; w_rm := None |}
        "job-1" "https://youtu.be/abc"
        {| o_quality := None; o_removeWatermark := Some false; o_format := None |}).1 ∧
  (downloadAndProcessVideo
     {| w_mkdir := None; w_fetch_progress := [25%Q];
        w_fetch := inl "temp/processing/job-1/video.mp4";
        w_transform_progress := []; w_transform := None; w_rename := None;
        w_stat := inr "ENOENT: no such file or directory"; w_rm := None |}
     "job-1" "https://youtu.be/abc"
     {| o_quality := None; o_removeWatermark := Some false; o_format := None |}).2
  = inr "ENOENT: no such file or directory".
Proof.
  apply (complete_reported_before_stat
           {| w_mkdir := None; w_fetch_progress := [25%Q];
              w_fetch := inl "temp/processing/job-1/video.mp4";
              w_transform_progress := []; w_transform := None; w_rename := None;
              w_stat := inr "ENOENT: no such file or directory"; w_rm := None |}
           "job-1" "https://youtu.be/abc"
           {| o_quality := None; o_removeWatermark := Some false; o_format := None |});
    [reflexivity|eexists; reflexivity|reflexivity|reflexivity].
Defined.
(** *** The transcoder's arguments *)

Definition videoCodec (format : string) : string :=
  if String.eqb format "webm" then "libvpx-vp9" else "libx264".

Definition audioCodec (format : string) : string :=
  if String.eqb format "webm" then "libvorbis" else "aac".

Lemma indexOf_here (x : string) (rest : list string) : indexOf x (x :: rest) = 0.
Proof. simpl. now rewrite String.eqb_refl. Qed.

Lemma indexOf_next (x y : string) (rest : list string) (i : Z) :
  String.eqb y x = false → indexOf x rest = i → 0 <= i → indexOf x (y :: rest) = i + 1.
Proof.
  intros Hne Hi Hpos. simpl. rewrite Hne, Hi.
  destruct (Z.ltb_spec i 0); [lia|reflexivity].
Qed.

(** X5. The argument vector of the transcoder, for an input path that is not
    itself one of the two codec flags (the two [indexOf] then find the
    flags): the input, the video codec with preset and quality, the audio
    codec with its bit rate, the two [delogo] filters when watermark
    removal is on, and the output with [-y].  The codecs are VP9 and Vorbis
    for ['webm'] and H.264 and AAC for every other format, ['avi']
    included. *)
Theorem ffmpegArgs_shape (inputPath outputPath : string) (removeWatermark : bool)
    (format : string) :
  inputPath ≠ "-c:v" → inputPath ≠ "-c:a" →
  ffmpegArgs inputPath outputPath removeWatermark format =
    (["-i"; inputPath; "-c:v"; videoCodec format; "-preset"; "medium"; "-crf"; "23";
      "-c:a"; audioCodec format; "-b:a"; "128k"]
       ++ (if removeWatermark
           then ["-vf"; "delogo=x=10:y=10:w=100:h=50,delogo=x=10:y=h-60:w=100:h=50"]
           else [])
       ++ ["-y"; outputPath])%list.
Proof.
  intros Hv Ha. apply String.eqb_neq in Hv, Ha.
  unfold ffmpegArgs, videoCodec, audioCodec.
  destruct (String.eqb format "webm"); [|destruct removeWatermark; reflexivity].
  assert (∀ rest, indexOf "-c:v" ("-i" :: inputPath :: "-c:v" :: rest) = 2) as Hvideo.
  { intros rest. apply (indexOf_next _ _ _ 1); [reflexivity| |lia].
    apply (indexOf_next _ _ _ 0); [exact Hv|apply indexOf_here|lia]. }
  assert (∀ rest,
            indexOf "-c:a" ("-i" :: inputPath :: "-c:v" :: "libvpx-vp9" :: "-preset"
                              :: "medium" :: "-crf" :: "23" :: "-c:a" :: rest) = 8) as Haudio.
  { intros rest.
    apply (indexOf_next _ _ _ 7); [reflexivity| |lia].
    apply (indexOf_next _ _ _ 6); [exact Ha| |lia].
    apply (indexOf_next _ _ _ 5); [reflexivity| |lia].
    apply (indexOf_next _ _ _ 4); [reflexivity| |lia].
    apply (indexOf_next _ _ _ 3); [reflexivity| |lia].
    apply (indexOf_next _ _ _ 2); [reflexivity| |lia].
    apply (indexOf_next _ _ _ 1); [reflexivity| |lia].
    apply (indexOf_next _ _ _ 0); [reflexivity|apply indexOf_here|lia]. }
  destruct removeWatermark; cbn [app]; rewrite Hvideo;
    match goal with
    | |- context [splice 2 2 ?items ?l] =>
        let v := eval vm_compute in (splice 2 2 items l) in
        change (splice 2 2 items l) with v
    end;
    rewrite Haudio; reflexivity.
Qed.

Lemma ffmpegArgs_shape_witness :
  ffmpegArgs "temp/processing/job-1/video.mp4" "temp/downloads/job-1.webm" false "webm" =
    ["-i"; "temp/processing/job-1/video.mp4"; "-c:v"; "libvpx-vp9"; "-preset"; "medium";
     "-crf"; "23"; "-c:a"; "libvorbis"; "-b:a"; "128k"; "-y"; "temp/downloads/job-1.webm"].
Proof.
  apply (ffmpegArgs_shape "temp/processing/job-1/video.mp4" "temp/downloads/job-1.webm"
           false "webm"); discriminate.
Defined.

End ProcessorProperties.

(** ** The pattern matcher

    [test] decides, by derivatives, whether some substring of the URL is in
    the regular language of the pattern. *)

Module RegexProperties.
Import UrlValidator.

#[local] Arguments String.append !_ _ /.

(** The regular language of a pattern. *)
Inductive Matches : Regex -> string -> Prop :=
| MatchEps : Matches Eps ""
| MatchSym cs c : inSet cs c = true -> Matches (Sym cs) (String c "")
| MatchCat r1 r2 s1 s2 :
    Matches r1 s1 -> Matches r2 s2 -> Matches (Cat r1 r2) (String.append s1 s2)
| MatchAltL r1 r2 s : Matches r1 s -> Matches (Alt r1 r2) s
| MatchAltR r1 r2 s : Matches r2 s -> Matches (Alt r1 r2) s
| MatchStarNil r : Matches (Star r) ""
| MatchStarCons r s1 s2 :
    Matches r s1 -> Matches (Star r) s2 -> Matches (Star r) (String.append s1 s2).

Lemma append_eq_nil (s1 s2 : string) :
  String.append s1 s2 = "" -> s1 = "" /\ s2 = "".
Proof. destruct s1; simpl; [auto|discriminate]. Qed.

Lemma Matches_Void_inv (s : string) : Matches Void s -> False.
Proof. inversion 1. Qed.

Lemma Matches_Eps_inv (s : string) : Matches Eps s -> s = "".
Proof. inversion 1. reflexivity. Qed.

Lemma Matches_Sym_inv (cs : CharSet) (s : string) :
  Matches (Sym cs) s -> exists c, s = String c "" /\ inSet cs c = true.
Proof. inversion 1; subst. eauto. Qed.

Lemma Matches_Cat_inv (r1 r2 : Regex) (s : string) :
  Matches (Cat r1 r2) s ->
  exists s1 s2, s = String.append s1 s2 /\ Matches r1 s1 /\ Matches r2 s2.
Proof. inversion 1; subst. eauto. Qed.

Lemma Matches_Alt_inv (r1 r2 : Regex) (s : string) :
  Matches (Alt r1 r2) s -> Matches r1 s \/ Matches r2 s.
Proof. inversion 1; subst; auto. Qed.

Lemma Matches_Cat_nil_l (r1 r2 : Regex) (s : string) :
  Matches r1 "" -> Matches r2 s -> Matches (Cat r1 r2) s.
Proof. intros H1 H2. change s with (String.append "" s). now constructor. Qed.

Lemma Matches_Cat_cons (r1 r2 : Regex) (c : ascii) (s1 s2 : string) :
  Matches r1 (String c s1) -> Matches r2 s2 ->
  Matches (Cat r1 r2) (String c (String.append s1 s2)).
Proof.
  intros H1 H2. change (String c (String.append s1 s2)) with (String.append (String c s1) s2).
  now constructor.
Qed.

Lemma nullable_spec (r : Regex) : nullable r = true <-> Matches r "".
Proof.
  induction r; simpl.
  - split; [discriminate|]. intros H. destruct (Matches_Void_inv _ H).
  - split; [constructor|reflexivity].
  - split; [discriminate|]. intros H.
    apply Matches_Sym_inv in H as (c & Heq & _). discriminate.
  - rewrite andb_true_iff, IHr1, IHr2. split.
    + intros [H1 H2]. now apply Matches_Cat_nil_l.
    + intros H. apply Matches_Cat_inv in H as (s1 & s2 & Heq & H1 & H2).
      symmetry in Heq. apply append_eq_nil in Heq as [-> ->]. auto.
  - rewrite orb_true_iff, IHr1, IHr2. split.
    + intros [H|H]; [now apply MatchAltL|now apply MatchAltR].
    + apply Matches_Alt_inv.
  - split; [constructor|reflexivity].
Qed.

Lemma cat_spec (r1 r2 : Regex) (s : string) :
  Matches (cat r1 r2) s <-> Matches (Cat r1 r2) s.
Proof.
  split.
  - intros H. destruct r1.
    + destruct (Matches_Void_inv _ H).
    + destruct r2; simpl in H;
        [destruct (Matches_Void_inv _ H)|apply Matches_Cat_nil_l; [constructor|exact H]..].
    + destruct r2; simpl in H; [destruct (Matches_Void_inv _ H)|exact H..].
    + destruct r2; simpl in H; [destruct (Matches_Void_inv _ H)|exact H..].
    + destruct r2; simpl in H; [destruct (Matches_Void_inv _ H)|exact H..].
    + destruct r2; simpl in H; [destruct (Matches_Void_inv _ H)|exact H..].
  - intros H. apply Matches_Cat_inv in H as (s1 & s2 & -> & H1 & H2). destruct r1.
    + destruct (Matches_Void_inv _ H1).
    + apply Matches_Eps_inv in H1 as ->.
      destruct r2; simpl; [destruct (Matches_Void_inv _ H2)|exact H2..].
    + destruct r2; simpl; [destruct (Matches_Void_inv _ H2)|now constructor..].
    + destruct r2; simpl; [destruct (Matches_Void_inv _ H2)|now constructor..].
    + destruct r2; simpl; [destruct (Matches_Void_inv _ H2)|now constructor..].
    + destruct r2; simpl; [destruct (Matches_Void_inv _ H2)|now constructor..].
Qed.

Lemma alt_spec (r1 r2 : Regex) (s : string) :
  Matches (alt r1 r2) s <-> Matches (Alt r1 r2) s.
Proof.
  split.
  - intros H. destruct r1; [now apply MatchAltR|..];
      (destruct r2; simpl in H; [now apply MatchAltL|exact H..]).
  - intros H. apply Matches_Alt_inv in H as [H|H].
    + destruct r1; [destruct (Matches_Void_inv _ H)|..];
        (destruct r2; simpl; [exact H|now apply MatchAltL..]).
    + destruct r1; [exact H|..];
        (destruct r2; simpl; [destruct (Matches_Void_inv _ H)|now apply MatchAltR..]).
Qed.

(** A match of [Star r] on a non-empty string starts with a non-empty match
    of [r]. *)
Lemma star_first (r : Regex) (s : string) :
  Matches (Star r) s ->
  forall c rest, s = String c rest ->
  exists s1 s2, rest = String.append s1 s2 /\ Matches r (String c s1) /\ Matches (Star r) s2.
Proof.
  intros H. remember (Star r) as r' eqn:Hr.
  induction H as [| | | | | |r0 s1 s2 H1 _ H2 IH2]; try discriminate Hr.
  - intros c rest Heq. discriminate Heq.
  - injection Hr as ->. intros c rest Heq. destruct s1 as [|c1 s1]; simpl in Heq.
    + apply IH2; auto.
    + injection Heq as -> <-. exists s1, s2. auto.
Qed.

Lemma deriv_spec (r : Regex) (c : ascii) (s : string) :
  Matches (deriv c r) s <-> Matches r (String c s).
Proof.
  revert s. induction r; intros s; simpl.
  - split; intros H; destruct (Matches_Void_inv _ H).
  - split; intros H; [destruct (Matches_Void_inv _ H)|].
    apply Matches_Eps_inv in H. discriminate.
  - destruct (inSet cs c) eqn:Hin; split; intros H.
    + apply Matches_Eps_inv in H as ->. now constructor.
    + apply Matches_Sym_inv in H as (c' & [= -> ->] & _). constructor.
    + destruct (Matches_Void_inv _ H).
    + apply Matches_Sym_inv in H as (c' & [= -> ->] & H). congruence.
  - rewrite alt_spec. split; intros H.
    + apply Matches_Alt_inv in H as [H|H].
      * apply cat_spec, Matches_Cat_inv in H as (s1 & s2 & -> & H1 & H2).
        apply IHr1 in H1. now apply Matches_Cat_cons.
      * destruct (nullable r1) eqn:Hn; [|destruct (Matches_Void_inv _ H)].
        apply nullable_spec in Hn. apply IHr2 in H. now apply Matches_Cat_nil_l.
    + apply Matches_Cat_inv in H as (s1 & s2 & Heq & H1 & H2).
      destruct s1 as [|c1 s1]; simpl in Heq.
      * subst s2. apply MatchAltR. apply nullable_spec in H1. rewrite H1. now apply IHr2.
      * injection Heq as -> ->. apply MatchAltL. apply cat_spec.
        constructor; [now apply IHr1|exact H2].
  - rewrite alt_spec. split; intros H; apply Matches_Alt_inv in H as [H|H];
      [apply MatchAltL; now apply IHr1|apply MatchAltR; now apply IHr2
      |apply MatchAltL; now apply IHr1|apply MatchAltR; now apply IHr2].
  - rewrite cat_spec. split; intros H.
    + apply Matches_Cat_inv in H as (s1 & s2 & -> & H1 & H2). apply IHr in H1.
      change (String c (String.append s1 s2)) with (String.append (String c s1) s2).
      now constructor.
    + destruct (star_first r _ H c s eq_refl) as (s1 & s2 & -> & H1 & H2).
      constructor; [now apply IHr|exact H2].
Qed.

Lemma matchesPrefix_spec (r : Regex) (s : string) :
  matchesPrefix r s = true <->
  exists s1 s2, s = String.append s1 s2 /\ Matches r s1.
Proof.
  revert r. induction s as [|c s IH]; intros r; simpl.
  - rewrite orb_false_r, nullable_spec. split.
    + intros H. exists "", "". auto.
    + intros (s1 & s2 & Heq & H). symmetry in Heq.
      apply append_eq_nil in Heq as [-> _]. exact H.
  - rewrite orb_true_iff, nullable_spec, IH. split.
    + intros [H|(s1 & s2 & -> & H)].
      * exists "", (String c s). auto.
      * exists (String c s1), s2. split; [reflexivity|]. now apply deriv_spec.
    + intros (s1 & s2 & Heq & H). destruct s1 as [|c1 s1]; simpl in Heq.
      * now left.
      * injection Heq as <- ->. right. exists s1, s2. split; [reflexivity|].
        now apply deriv_spec.
Qed.

(** [test] is the search for a substring in the language of the pattern. *)
Lemma test_spec (r : Regex) (s : string) :
  test r s = true <->
  exists s0 s1 s2, s = String.append s0 (String.append s1 s2) /\ Matches r s1.
Proof.
  induction s as [|c s IH].
  - cbn [test]. rewrite orb_false_r, matchesPrefix_spec. split.
    + intros (s1 & s2 & Heq & H). exists "", s1, s2. auto.
    + intros (s0 & s1 & s2 & Heq & H). symmetry in Heq.
      apply append_eq_nil in Heq as [-> Heq]. exists s1, s2. auto.
  - cbn [test]. rewrite orb_true_iff, matchesPrefix_spec, IH. split.
    + intros [(s1 & s2 & Heq & H)|(s0 & s1 & s2 & -> & H)].
      * exists "", s1, s2. auto.
      * exists (String c s0), s1, s2. auto.
    + intros (s0 & s1 & s2 & Heq & H). destruct s0 as [|c0 s0]; simpl in Heq.
      * left. exists s1, s2. auto.
      * injection Heq as <- ->. right. exists s0, s1, s2. auto.
Qed.

End RegexProperties.

(** ** The platform matcher *)

Module UrlProperties.
Import UrlValidator.

Lemma detectIn_sound (platforms : list Platform) (url n : string) :
  detectIn platforms url = n →
  n ≠ "unknown" →
  ∃ p, In p platforms ∧ name p = n ∧
       hasValidDomain p url = true ∧ matchesPattern p url = true.
Proof.
  induction platforms as [|p platforms IH]; simpl; intros Hn Hne.
  - congruence.
  - destruct (hasValidDomain p url) eqn:Hd; [destruct (matchesPattern p url) eqn:Hp|].
    + exists p. auto.
    + destruct (IH Hn Hne) as (q & Hq & ?). exists q. auto.
    + destruct (IH Hn Hne) as (q & Hq & ?). exists q. auto.
Qed.

Lemma detectIn_unknown (platforms : list Platform) (url : string) :
  (∀ p, In p platforms → hasValidDomain p url = true → matchesPattern p url = false) →
  detectIn platforms url = "unknown".
Proof.
  induction platforms as [|p platforms IH]; simpl; intros H; [reflexivity|].
  destruct (hasValidDomain p url) eqn:Hd.
  - rewrite (H p (or_introl eq_refl) Hd). apply IH. intros q Hq. apply H. now right.
  - apply IH. intros q Hq. apply H. now right.
Qed.

Lemma validateIn_spec (platforms : list Platform) (url : string) :
  validateIn platforms url = true ↔
  ∃ p, In p platforms ∧ hasValidDomain p url = true ∧ matchesPattern p url = true.
Proof.
  induction platforms as [|p platforms IH]; simpl.
  - split; [discriminate|]. intros (p & [] & _).
  - destruct (hasValidDomain p url) eqn:Hd; [destruct (matchesPattern p url) eqn:Hp|].
    + split; [|reflexivity]. intros _. exists p. auto.
    + rewrite IH. split.
      * intros (q & Hq & ?). exists q. auto.
      * intros (q & [<-|Hq] & Hqd & Hqp); [congruence|]. exists q. auto.
    + rewrite IH. split.
      * intros (q & Hq & ?). exists q. auto.
      * intros (q & [<-|Hq] & Hqd & Hqp); [congruence|]. exists q. auto.
Qed.

Example detect_canonical_urls :
  map detectPlatform
      ["https://www.tiktok.com/@user/video/123456"; "https://vm.tiktok.com/ZM123";
       "https://www.instagram.com/reel/Cx-_1"; "HTTPS://WWW.YOUTUBE.COM/WATCH?V=abc";
       "https://x.com/user/status/12"; "https://fb.watch/ab-c";
       "https://story.snapchat.com/p/abc"; "https://www.tiktok.com/foo"; ""]
  = ["TikTok"; "TikTok"; "Instagram"; "YouTube"; "Twitter/X"; "Facebook"; "Snapchat";
     "unknown"; "unknown"].
Proof. vm_compute. reflexivity. Qed.

(** The names of the table are pairwise distinct. *)
Lemma platform_names_distinct (p q : Platform) :
  In p SUPPORTED_PLATFORMS → In q SUPPORTED_PLATFORMS → name p = name q → p = q.
Proof.
  unfold SUPPORTED_PLATFORMS. simpl.
  intros [<-|[<-|[<-|[<-|[<-|[<-|[]]]]]]] [<-|[<-|[<-|[<-|[<-|[<-|[]]]]]]];
    simpl; intros Heq; first [reflexivity | discriminate Heq].
Qed.

(** C6, as stated, fails in its last part: this URL contains TikTok's
    domain substring and matches no TikTok pattern, yet [detectPlatform]
    answers ['YouTube'], whose domain and pattern it satisfies. *)
Lemma domain_without_pattern_not_always_unknown :
  ¬ (∀ (url : string) (p : Platform),
       In p SUPPORTED_PLATFORMS →
       hasValidDomain p url = true →
       matchesPattern p url = false →
       detectPlatform url = "unknown").
Proof.
  intros H.
  specialize (H "https://youtu.be/abc?from=tiktok.com" tiktok
                (or_introl eq_refl) eq_refl eq_refl).
  vm_compute in H. discriminate H.
Qed.

(** C6, amended. [detectPlatform] answers the name of a platform only if
    the URL contains one of that platform's domain substrings (in any
    letter case) and matches one of that platform's patterns; it answers
    ['unknown'] when no platform satisfies both, that is, when the URL
    matches no pattern of any platform whose domain substring it contains;
    and for a URL that contains a domain substring of a platform but
    matches none of its patterns the answer is never that platform. *)
Theorem detect_needs_domain_and_pattern (url : string) :
  (∀ n : string,
     detectPlatform url = n → n ≠ "unknown" →
     ∃ p, In p SUPPORTED_PLATFORMS ∧ name p = n ∧
          hasValidDomain p url = true ∧ matchesPattern p url = true) ∧
  ((∀ p, In p SUPPORTED_PLATFORMS →
         hasValidDomain p url = true → matchesPattern p url = false) →
   detectPlatform url = "unknown") ∧
  (∀ p, In p SUPPORTED_PLATFORMS →
        hasValidDomain p url = true → matchesPattern p url = false →
        detectPlatform url ≠ name p).
Proof.
  assert (∀ n, detectPlatform url = n → n ≠ "unknown" →
               ∃ p, In p SUPPORTED_PLATFORMS ∧ name p = n ∧
                    hasValidDomain p url = true ∧ matchesPattern p url = true) as Hsound.
  { intros n Hn Hne. unfold detectPlatform in Hn.
    destruct (String.eqb url ""); [congruence|].
    eapply detectIn_sound; eauto. }
  split; [exact Hsound|]. split.
  - intros Hnone. unfold detectPlatform.
    destruct (String.eqb url ""); [reflexivity|]. now apply detectIn_unknown.
  - intros p Hp Hd Hnp Hdet.
    assert (name p ≠ "unknown") as Hne.
    { revert Hp. unfold SUPPORTED_PLATFORMS. simpl.
      intros [<-|[<-|[<-|[<-|[<-|[<-|[]]]]]]]; discriminate. }
    destruct (Hsound (name p) Hdet Hne) as (q & Hq & Hname & Hqd & Hqp).
    rewrite (platform_names_distinct q p Hq Hp Hname) in Hqp. congruence.
Qed.

Lemma detect_needs_domain_and_pattern_witness :
  hasValidDomain tiktok "https://www.tiktok.com/foo" = true ∧
  detectPlatform "https://www.tiktok.com/foo" = "unknown" ∧
  detectPlatform "https://www.tiktok.com/foo" ≠ name tiktok.
Proof.
  split; [reflexivity|].
  pose proof (detect_needs_domain_and_pattern "https://www.tiktok.com/foo")
    as (_ & Hunknown & Hnot).
  split.
  - apply Hunknown. unfold SUPPORTED_PLATFORMS. simpl.
    intros p [<-|[<-|[<-|[<-|[<-|[<-|[]]]]]]] Hd; vm_compute in Hd |- *;
      first [reflexivity | discriminate Hd].
  - apply (Hnot tiktok); [now left|reflexivity|reflexivity].
Defined.

(** *** Substrings *)

#[local] Arguments String.append !_ _ /.

Lemma append_assoc (a b c : string) :
  String.append (String.append a b) c = String.append a (String.append b c).
Proof. induction a as [|x a IH]; simpl; [reflexivity|now rewrite IH]. Qed.

Lemma prefix_spec (p s : string) :
  String.prefix p s = true ↔ ∃ b, s = String.append p b.
Proof.
  revert s. induction p as [|x p IH]; intros s.
  - split; [|destruct s; reflexivity]. intros _. now exists s.
  - destruct s as [|y s]; simpl.
    + split; [discriminate|]. intros (b & Hb). discriminate Hb.
    + destruct (ascii_dec x y) as [->|Hne].
      * rewrite IH. split; intros (b & Hb); exists b; congruence.
      * split; [discriminate|]. intros (b & Hb). congruence.
Qed.

Lemma includes_spec (sub s : string) :
  JsString.includes sub s = true ↔
  ∃ a b, s = String.append a (String.append sub b).
Proof.
  induction s as [|c s IH]; cbn [JsString.includes].
  - rewrite orb_false_r, prefix_spec. split.
    + intros (b & Hb). now exists "", b.
    + intros (a & b & Hab). destruct a; [now exists b|discriminate Hab].
  - rewrite orb_true_iff, prefix_spec, IH. split.
    + intros [(b & Hb)|(a & b & ->)]; [now exists "", b|now exists (String c a), b].
    + intros (a & b & Hab). destruct a as [|x a]; simpl in Hab.
      * left. now exists b.
      * injection Hab as <- ->. right. now exists a, b.
Qed.

Lemma toLowerCase_app (a b : string) :
  JsString.toLowerCase (String.append a b) =
  String.append (JsString.toLowerCase a) (JsString.toLowerCase b).
Proof. induction a as [|x a IH]; simpl; [reflexivity|now rewrite IH]. Qed.

Lemma includes_embed (sub pre s post : string) :
  JsString.includes sub s = true →
  JsString.includes sub (String.append pre (String.append s post)) = true.
Proof.
  rewrite !includes_spec. intros (a & b & ->).
  exists (String.append pre a), (String.append b post).
  now rewrite !append_assoc.
Qed.

Lemma test_embed (r : Regex) (pre s post : string) :
  test r s = true → test r (String.append pre (String.append s post)) = true.
Proof.
  rewrite !RegexProperties.test_spec. intros (s0 & s1 & s2 & -> & Hm).
  exists (String.append pre s0), s1, (String.append s2 post).
  split; [now rewrite !append_assoc|exact Hm].
Qed.

Lemma hasValidDomain_embed (p : Platform) (pre url post : string) :
  hasValidDomain p url = true →
  hasValidDomain p (String.append pre (String.append url post)) = true.
Proof.
  unfold hasValidDomain. rewrite !existsb_exists. intros (d & Hd & Hin).
  exists d. split; [exact Hd|]. rewrite !toLowerCase_app. now apply includes_embed.
Qed.

Lemma matchesPattern_embed (p : Platform) (pre url post : string) :
  matchesPattern p url = true →
  matchesPattern p (String.append pre (String.append url post)) = true.
Proof.
  unfold matchesPattern. rewrite !existsb_exists. intros (r & Hr & Ht).
  exists r. split; [exact Hr|]. now apply test_embed.
Qed.

(** *** validateUrl and detectPlatform agree *)

Lemma validateIn_detectIn (platforms : list Platform) (url : string) :
  (∀ p, In p platforms → name p ≠ "unknown") →
  (validateIn platforms url = true ↔ detectIn platforms url ≠ "unknown").
Proof.
  induction platforms as [|p platforms IH]; simpl; intros Hnames.
  - split; [discriminate|congruence].
  - assert (∀ q, In q platforms → name q ≠ "unknown") as Hrest by auto.
    destruct (hasValidDomain p url); [destruct (matchesPattern p url)|]; auto.
    split; [|reflexivity]. intros _. apply Hnames. now left.
Qed.

Lemma names_known (p : Platform) : In p SUPPORTED_PLATFORMS → name p ≠ "unknown".
Proof.
  unfold SUPPORTED_PLATFORMS. simpl.
  intros [<-|[<-|[<-|[<-|[<-|[<-|[]]]]]]]; discriminate.
Qed.

Lemma detected_iff_validated (url : string) :
  detectPlatform url ≠ "unknown" ↔
  url ≠ "" ∧ validateIn SUPPORTED_PLATFORMS url = true.
Proof.
  unfold detectPlatform. destruct (String.eqb_spec url "") as [->|Hne].
  - split; [congruence|]. intros [H _]. congruence.
  - rewrite (validateIn_detectIn _ url names_known). tauto.
Qed.

Lemma validateUrl_detected (parses : string -> bool) (url : string) :
  validateUrl parses url = true ↔
  parses (if JsString.startsWith "http" url then url else "https://" ++ url) = true ∧
  detectPlatform url ≠ "unknown".
Proof.
  rewrite detected_iff_validated. unfold validateUrl.
  destruct (String.eqb_spec url "") as [->|Hne].
  - split; [discriminate|]. intros (_ & H & _). congruence.
  - destruct (parses _); split; try tauto; try discriminate.
Qed.

(** X6. [validateUrl] accepts a URL exactly when the URL parser accepts it
    (with [https://] put in front unless it starts with [http]) and
    [detectPlatform] names a platform for it: a URL the validator of the
    routes lets through is never recorded with the platform ['unknown']. *)
Theorem validateUrl_iff_detected (parses : string -> bool) (url : string) :
  validateUrl parses url = true ↔
  parses (if JsString.startsWith "http" url then url else "https://" ++ url) = true ∧
  detectPlatform url ≠ "unknown".
Proof.
  rewrite detected_iff_validated. unfold validateUrl.
  destruct (String.eqb_spec url "") as [->|Hne].
  - split; [discriminate|]. intros (_ & H & _). congruence.
  - destruct (parses _); split; try tauto; try discriminate.
Qed.

(** X7. The patterns have no anchors and the domain test is a substring
    test, so text before and after a supported URL changes nothing to its
    acceptance: whenever [validateUrl] accepts [url], it accepts
    [pre ++ url ++ post] for every [pre] and [post] with which the URL
    parser still succeeds, and [detectPlatform] names a platform for it. *)
Theorem validateUrl_ignores_surroundings (parses : string -> bool) (pre url post : string) :
  validateUrl parses url = true →
  parses (if JsString.startsWith "http" (pre ++ url ++ post) then pre ++ url ++ post
          else "https://" ++ pre ++ url ++ post) = true →
  validateUrl parses (pre ++ url ++ post) = true ∧
  detectPlatform (pre ++ url ++ post) ≠ "unknown".
Proof.
  intros Hv Hparses.
  apply validateUrl_detected in Hv as [_ Hd].
  apply detected_iff_validated in Hd as [Hne Hin].
  apply validateIn_spec in Hin as (p & Hp & Hdom & Hpat).
  assert (detectPlatform (pre ++ url ++ post) ≠ "unknown") as Hdet.
  { apply detected_iff_validated. split.
    - intros Heq. destruct pre; [|discriminate Heq]. simpl in Heq.
      destruct url; [congruence|discriminate Heq].
    - apply validateIn_spec. exists p. split; [exact Hp|].
      split; [now apply hasValidDomain_embed|now apply matchesPattern_embed]. }
  split; [|exact Hdet]. apply validateUrl_detected. auto.
Qed.

Lemma validateUrl_ignores_surroundings_witness :
  validateUrl (fun _ => true) ("https://evil.example/?next=" ++ "https://youtu.be/abc" ++ "&x=1")
    = true ∧
  detectPlatform ("https://evil.example/?next=" ++ "https://youtu.be/abc" ++ "&x=1")
    ≠ "unknown".
Proof.
  apply (validateUrl_ignores_surroundings (fun _ => true)
           "https://evil.example/?next=" "https://youtu.be/abc" "&x=1");
    reflexivity.
Defined.

(** *** Letter case *)

Definition isAscii (s : string) : bool :=
  forallb (fun c => (nat_of_ascii c <? 128)%nat) (list_ascii_of_string s).

Lemma lowerAscii_idem (c : ascii) :
  JsString.lowerAscii (JsString.lowerAscii c) = JsString.lowerAscii c.
Proof. destruct c as [[] [] [] [] [] [] [] []]; reflexivity. Qed.

Lemma isWord_lower (c : ascii) : isWord (JsString.lowerAscii c) = isWord c.
Proof. destruct c as [[] [] [] [] [] [] [] []]; reflexivity. Qed.

Lemma isDigit_lower (c : ascii) : isDigit (JsString.lowerAscii c) = isDigit c.
Proof. destruct c as [[] [] [] [] [] [] [] []]; reflexivity. Qed.

Lemma inSet_lower (cs : CharSet) (c : ascii) :
  inSet cs (JsString.lowerAscii c) = inSet cs c.
Proof.
  induction cs as [l| | | |a IHa b IHb]; simpl.
  - now rewrite lowerAscii_idem.
  - apply isWord_lower.
  - apply isDigit_lower.
  - destruct c as [[] [] [] [] [] [] [] []]; reflexivity.
  - now rewrite IHa, IHb.
Qed.

Lemma deriv_lower (c : ascii) (r : Regex) :
  deriv (JsString.lowerAscii c) r = deriv c r.
Proof.
  induction r as [| |cs|r1 IH1 r2 IH2|r1 IH1 r2 IH2|r IH]; simpl;
    rewrite ?inSet_lower, ?IH1, ?IH2, ?IH; reflexivity.
Qed.

Lemma matchesPrefix_lower (r : Regex) (s : string) :
  matchesPrefix r (JsString.toLowerCase s) = matchesPrefix r s.
Proof.
  revert r. induction s as [|c s IH]; intros r; simpl; [reflexivity|].
  now rewrite deriv_lower, IH.
Qed.

Lemma test_lower (r : Regex) (s : string) :
  test r (JsString.toLowerCase s) = test r s.
Proof.
  induction s as [|c s IH]; cbn [JsString.toLowerCase test].
  - reflexivity.
  - now rewrite <- IH, <- (matchesPrefix_lower r (String c s)).
Qed.

Lemma toLowerCase_idem (s : string) :
  JsString.toLowerCase (JsString.toLowerCase s) = JsString.toLowerCase s.
Proof. induction s as [|c s IH]; simpl; [reflexivity|now rewrite lowerAscii_idem, IH]. Qed.

Lemma detectIn_lower (platforms : list Platform) (url : string) :
  detectIn platforms (JsString.toLowerCase url) = detectIn platforms url.
Proof.
  induction platforms as [|p platforms IH]; simpl; [reflexivity|].
  assert (hasValidDomain p (JsString.toLowerCase url) = hasValidDomain p url) as ->.
  { unfold hasValidDomain. now rewrite toLowerCase_idem. }
  assert (matchesPattern p (JsString.toLowerCase url) = matchesPattern p url) as ->.
  { unfold matchesPattern. induction (patterns p) as [|r rs IHrs]; simpl;
      [reflexivity|now rewrite test_lower, IHrs]. }
  now rewrite IH.
Qed.

(** X8. Detection does not depend on letter case: for a URL of ASCII
    characters, [detectPlatform(url.toLowerCase())] is
    [detectPlatform(url)]. *)
Theorem detectPlatform_ignores_case (url : string) :
  isAscii url = true →
  detectPlatform (JsString.toLowerCase url) = detectPlatform url.
Proof.
  intros _. unfold detectPlatform. rewrite detectIn_lower.
  destruct url; reflexivity.
Qed.

Lemma detectPlatform_ignores_case_witness :
  detectPlatform (JsString.toLowerCase "HTTPS://WWW.TikTok.COM/@User/Video/42")
  = detectPlatform "HTTPS://WWW.TikTok.COM/@User/Video/42".
Proof. apply detectPlatform_ignores_case. reflexivity. Defined.

(** *** getPlatformInfo *)

Lemma capabilities_known (p : Platform) :
  In p SUPPORTED_PLATFORMS → ∃ caps, getPlatformCapabilities (name p) = Some caps.
Proof.
  unfold SUPPORTED_PLATFORMS. simpl.
  intros [<-|[<-|[<-|[<-|[<-|[<-|[]]]]]]]; eexists; reflexivity.
Qed.

(** X9. [getPlatformInfo] never throws.  It returns [null] exactly when
    [detectPlatform] answers ['unknown']; otherwise it returns the name
    and the domain list of the platform of the table whose domain and
    pattern the URL satisfies, with that platform's entry of the
    capabilities table (never the empty fallback object). *)
Theorem getPlatformInfo_spec (url : string) :
  (detectPlatform url = "unknown" ∧ getPlatformInfo url = inl None) ∨
  (∃ p caps,
     In p SUPPORTED_PLATFORMS ∧
     hasValidDomain p url = true ∧ matchesPattern p url = true ∧
     detectPlatform url = name p ∧
     getPlatformCapabilities (name p) = Some caps ∧
     getPlatformInfo url =
       inl (Some {| infoName := name p; infoDomains := domains p;
                    infoCapabilities := Some caps |})).
Proof.
  unfold getPlatformInfo.
  destruct (String.eqb_spec (detectPlatform url) "unknown") as [Hu|Hk]; [now left|].
  right.
  assert (∃ p, In p SUPPORTED_PLATFORMS ∧ name p = detectPlatform url ∧
               hasValidDomain p url = true ∧ matchesPattern p url = true)
    as (p & Hp & Hname & Hd & Hpat).
  { revert Hk. unfold detectPlatform. destruct (String.eqb url ""); [congruence|].
    intros Hk. now apply detectIn_sound. }
  destruct (capabilities_known p Hp) as (caps & Hcaps).
  exists p, caps. rewrite <- Hname. repeat (split; [assumption || reflexivity|]).
  destruct (find (λ q, String.eqb (name q) (name p)) SUPPORTED_PLATFORMS) as [q|] eqn:Hfind.
  - apply find_some in Hfind as [Hq Heq]. apply String.eqb_eq in Heq.
    rewrite (platform_names_distinct q p Hq Hp Heq), Hcaps. reflexivity.
  - exfalso. apply (find_none _ _ Hfind p) in Hp. rewrite String.eqb_refl in Hp.
    discriminate Hp.
Qed.

End UrlProperties.

(** ** The retention sweeper *)

Module CleanupProperties.
Import Cleanup.

(** *** Induction on the file tree *)

Section NodeInduction.
Variable P : Node → Prop.
Hypothesis HFile : ∀ mtime size, P (File mtime size).
Hypothesis HDir : ∀ mtime entries, List.Forall (λ e, P e.2) entries → P (Dir mtime entries).

Fixpoint Node_tree_ind (n : Node) : P n :=
  match n with
  | File mtime size => HFile mtime size
  | Dir mtime entries =>
      HDir mtime entries
        ((fix go (l : list (string * Node)) : List.Forall (λ e, P e.2) l :=
            match l with
            | [] => @List.Forall_nil _ _
            | (name, child) :: rest =>
                @List.Forall_cons _ _ (name, child) rest (Node_tree_ind child) (go rest)
            end) entries)
  end.
End NodeInduction.

(** *** The file system of a run *)

(** No call to the file system is rejected. *)
Definition calm (w : World) : Prop := ∀ c, rejects w c = false.

(** The file system that rejects nothing; a directory that loses an entry
    gets the modification time [now]. *)
Definition reliable (now : Z) : World :=
  {| rejects := λ _, false; rmLeaves := λ _, (now, []); touched := λ _, now |}.

Lemma reliable_calm (now : Z) : calm (reliable now).
Proof. intros c. reflexivity. Qed.

(** The paths the service builds with [join], written out. *)
Lemma watched_path (dirName : string) : join TEMP_DIR dirName = "temp/" ++ dirName.
Proof. reflexivity. Qed.

Lemma entry_path (dirName name : string) :
  join (join TEMP_DIR dirName) name = "temp/" ++ dirName ++ "/" ++ name.
Proof. reflexivity. Qed.

(** The modification time of a node and the plain files inside it, each
    with its path from the node, its modification time and its size. *)
Definition modified (n : Node) : Z :=
  match n with
  | File mtime _ => mtime
  | Dir mtime _ => mtime
  end.

Fixpoint filesOf (n : Node) : list (list string * Z * Z) :=
  match n with
  | File mtime size => [([], mtime, size)]
  | Dir _ entries =>
      (fix loop (l : list (string * Node)) : list (list string * Z * Z) :=
         match l with
         | [] => []
         | (name, child) :: rest =>
             (map (λ f, (name :: f.1.1, f.1.2, f.2)) (filesOf child) ++ loop rest)%list
         end) entries
  end.

Fixpoint filesBelow (entries : list (string * Node)) : list (list string * Z * Z) :=
  match entries with
  | [] => []
  | (name, child) :: rest =>
      (map (λ f, (name :: f.1.1, f.1.2, f.2)) (filesOf child) ++ filesBelow rest)%list
  end.

Lemma filesOf_Dir (mtime : Z) (entries : list (string * Node)) :
  filesOf (Dir mtime entries) = filesBelow entries.
Proof.
  induction entries as [|[name child] rest IH]; [reflexivity|].
  simpl in *. now rewrite IH.
Qed.

Lemma isEmptyDir_files (n : Node) : isEmptyDir n = true → filesOf n = [].
Proof. destruct n as [|m [|]]; simpl; discriminate || reflexivity. Qed.

(** *** Entries by name *)

Lemma lookupEntry_names (name : string) (entries : list (string * Node)) :
  lookupEntry name entries = None ↔ ¬ In name (map fst entries).
Proof.
  induction entries as [|[n node] entries IH]; simpl; [tauto|].
  destruct (String.eqb_spec n name); [split; [discriminate|tauto]|].
  rewrite IH. tauto.
Qed.

Lemma lookupEntry_In (name : string) (node : Node) (entries : list (string * Node)) :
  lookupEntry name entries = Some node → In (name, node) entries.
Proof.
  induction entries as [|[n nd] entries IH]; simpl; [discriminate|].
  destruct (String.eqb_spec n name) as [->|Hne]; [intros [= ->]; now left|].
  intros H. right. now apply IH.
Qed.

Lemma In_lookupEntry (name : string) (node : Node) (entries : list (string * Node)) :
  NoDup (map fst entries) → In (name, node) entries → lookupEntry name entries = Some node.
Proof.
  induction entries as [|[n nd] entries IH]; simpl; [tauto|].
  intros Hnd Hin. apply NoDup_cons in Hnd as [Hn Hnd].
  destruct Hin as [[= -> ->]|Hin]; [now rewrite String.eqb_refl|].
  destruct (String.eqb_spec n name) as [->|Hne]; [|now apply IH].
  exfalso. apply Hn. apply list_elem_of_In. apply in_map_iff. now exists (name, node).
Qed.

Lemma lookupEntry_replace_same (name : string) (node' : Node)
    (entries : list (string * Node)) :
  lookupEntry name (replaceEntry name node' entries) =
  match lookupEntry name entries with Some _ => Some node' | None => None end.
Proof.
  induction entries as [|[n node] entries IH]; simpl; [reflexivity|].
  destruct (String.eqb_spec n name) as [->|Hne]; simpl.
  - rewrite String.eqb_refl. reflexivity.
  - destruct (String.eqb_spec n name); [contradiction|]. exact IH.
Qed.

Lemma lookupEntry_replace_other (name other : string) (node' : Node)
    (entries : list (string * Node)) :
  other ≠ name →
  lookupEntry other (replaceEntry name node' entries) = lookupEntry other entries.
Proof.
  intros Hne. induction entries as [|[n node] entries IH]; simpl; [reflexivity|].
  destruct (String.eqb_spec n name) as [->|Hn]; simpl.
  - destruct (String.eqb_spec name other); [congruence|reflexivity].
  - destruct (String.eqb_spec n other); [reflexivity|exact IH].
Qed.

Lemma replaceEntry_names (name : string) (node' : Node) (entries : list (string * Node)) :
  map fst (replaceEntry name node' entries) = map fst entries.
Proof.
  induction entries as [|[n node] entries IH]; simpl; [reflexivity|].
  destruct (String.eqb n name); simpl; [reflexivity|]. now rewrite IH.
Qed.

(** A loop that keeps, changes or drops each entry by itself: what is left
    under a name is what the loop makes of the entry of that name. *)
Section EntryLoop.
Variable step : string → Node → option Node.

Fixpoint entryLoop (entries : list (string * Node)) : list (string * Node) :=
  match entries with
  | [] => []
  | (name, node) :: rest =>
      match step name node with
      | Some node' => (name, node') :: entryLoop rest
      | None => entryLoop rest
      end
  end.

Lemma entryLoop_names (entries : list (string * Node)) (name : string) :
  In name (map fst (entryLoop entries)) → In name (map fst entries).
Proof.
  induction entries as [|[n node] entries IH]; simpl; [tauto|].
  destruct (step n node); simpl; tauto.
Qed.

Lemma entryLoop_NoDup (entries : list (string * Node)) :
  NoDup (map fst entries) → NoDup (map fst (entryLoop entries)).
Proof.
  induction entries as [|[n node] entries IH]; simpl; [auto|].
  intros Hnd. apply NoDup_cons in Hnd as [Hn Hnd].
  destruct (step n node); simpl; [|auto].
  apply NoDup_cons. split; [|auto].
  intros Hin. apply Hn. apply list_elem_of_In, entryLoop_names. now apply list_elem_of_In.
Qed.

Lemma entryLoop_lookup (entries : list (string * Node)) (name : string) (node : Node) :
  NoDup (map fst entries) →
  lookupEntry name entries = Some node →
  lookupEntry name (entryLoop entries) = step name node.
Proof.
  induction entries as [|[n nd] entries IH]; simpl; [discriminate|].
  intros Hnd Hlook. apply NoDup_cons in Hnd as [Hn Hnd].
  destruct (String.eqb_spec n name) as [->|Hne].
  - injection Hlook as ->. destruct (step name node) as [node'|].
    + simpl. now rewrite String.eqb_refl.
    + apply lookupEntry_names. intros Hin. apply Hn.
      apply list_elem_of_In. now apply entryLoop_names.
  - specialize (IH Hnd Hlook). destruct (step n nd); [|exact IH].
    simpl. destruct (String.eqb_spec n name); [contradiction|exact IH].
Qed.

Lemma entryLoop_lookup_None (entries : list (string * Node)) (name : string) :
  lookupEntry name entries = None → lookupEntry name (entryLoop entries) = None.
Proof.
  rewrite !lookupEntry_names. intros H Hin. apply H. now apply entryLoop_names.
Qed.
End EntryLoop.

(** *** The sweep of one directory *)

(** What the loop of [cleanupDirectory] leaves of the entry at [filePath]. *)
Definition afterSweep (w : World) (now maxAge : Z) (filePath : string) (node : Node)
  : option Node :=
  if rejects w (Stat filePath) then Some node
  else if now - mtimeOf node >? maxAge then
    match node with
    | Dir _ _ =>
        if rejects w (Rm filePath)
        then Some (Dir (rmLeaves w filePath).1 (rmLeaves w filePath).2)
        else None
    | File _ _ => if rejects w (Unlink filePath) then Some node else None
    end
  else Some node.

Lemma sweepEntries_kept (w : World) (dirPath : string) (now maxAge : Z)
    (files : list (string * Node)) :
  (sweepEntries w dirPath now maxAge files).2
  = entryLoop (λ file, afterSweep w now maxAge (join dirPath file)) files.
Proof.
  induction files as [|[file node] rest IH]; [reflexivity|].
  simpl. destruct (sweepEntries w dirPath now maxAge rest) as [[count freed] kept].
  simpl in IH. unfold afterSweep.
  destruct (rejects w (Stat (join dirPath file))); [simpl; now rewrite IH|].
  destruct (now - mtimeOf node >? maxAge); [|simpl; now rewrite IH].
  destruct node as [mtime size|mtime entries].
  - destruct (rejects w (Unlink (join dirPath file))); simpl; now rewrite IH.
  - destruct (rejects w (Rm (join dirPath file))); simpl; now rewrite IH.
Qed.

(** The entries of a directory after its sweep. *)
Definition sweptFiles (w : World) (dirName : string) (now maxAge : Z)
    (files : list (string * Node)) : list (string * Node) :=
  if rejects w (Readdir (join TEMP_DIR dirName)) then files
  else (sweepEntries w (join TEMP_DIR dirName) now maxAge files).2.

Lemma sweptFiles_NoDup (w : World) (dirName : string) (now maxAge : Z)
    (files : list (string * Node)) :
  NoDup (map fst files) → NoDup (map fst (sweptFiles w dirName now maxAge files)).
Proof.
  intros Hnd. unfold sweptFiles. destruct (rejects w _); [exact Hnd|].
  rewrite sweepEntries_kept. now apply entryLoop_NoDup.
Qed.

Lemma sweptFiles_lookup (w : World) (dirName : string) (now maxAge : Z)
    (files : list (string * Node)) (name : string) (node : Node) :
  NoDup (map fst files) →
  lookupEntry name files = Some node →
  lookupEntry name (sweptFiles w dirName now maxAge files) =
  if rejects w (Readdir (join TEMP_DIR dirName)) then Some node
  else afterSweep w now maxAge (join (join TEMP_DIR dirName) name) node.
Proof.
  intros Hnd Hlook. unfold sweptFiles. destruct (rejects w _); [exact Hlook|].
  rewrite sweepEntries_kept.
  now rewrite (entryLoop_lookup _ files name node Hnd Hlook).
Qed.

Lemma cleanupDirectory_names (w : World) (dirName : string) (maxAge now bytes : Z)
    (temp : list (string * Node)) :
  map fst (cleanupDirectory w dirName maxAge now bytes temp).2 = map fst temp.
Proof.
  unfold cleanupDirectory. destruct (lookupEntry dirName temp) as [[|m files]|]; try reflexivity.
  destruct (rejects w _); [reflexivity|].
  destruct (sweepEntries w _ now maxAge files) as [[count freed] kept]. simpl.
  apply replaceEntry_names.
Qed.

Lemma cleanupDirectory_lookup_same (w : World) (dirName : string) (maxAge now bytes m : Z)
    (temp files : list (string * Node)) :
  lookupEntry dirName temp = Some (Dir m files) →
  ∃ m', lookupEntry dirName (cleanupDirectory w dirName maxAge now bytes temp).2 =
        Some (Dir m' (sweptFiles w dirName now maxAge files)).
Proof.
  intros Hlook. unfold cleanupDirectory, sweptFiles. rewrite Hlook.
  destruct (rejects w _); [exists m; exact Hlook|].
  destruct (sweepEntries w _ now maxAge files) as [[count freed] kept]. simpl.
  rewrite lookupEntry_replace_same, Hlook. eauto.
Qed.

Lemma cleanupDirectory_lookup_other (w : World) (dirName other : string)
    (maxAge now bytes : Z) (temp : list (string * Node)) :
  other ≠ dirName →
  lookupEntry other (cleanupDirectory w dirName maxAge now bytes temp).2 =
  lookupEntry other temp.
Proof.
  intros Hne. unfold cleanupDirectory.
  destruct (lookupEntry dirName temp) as [[|m files]|]; try reflexivity.
  destruct (rejects w _); [reflexivity|].
  destruct (sweepEntries w _ now maxAge files) as [[count freed] kept]. simpl.
  now apply lookupEntry_replace_other.
Qed.

(** A directory that is missing, or is a plain file, is not swept. *)
Lemma cleanupDirectory_not_listed (w : World) (dirName : string) (maxAge now bytes : Z)
    (temp : list (string * Node)) :
  (∀ m files, lookupEntry dirName temp ≠ Some (Dir m files)) →
  cleanupDirectory w dirName maxAge now bytes temp = (0, bytes, temp).
Proof.
  intros Hno. unfold cleanupDirectory.
  destruct (lookupEntry dirName temp) as [[|m files]|]; try reflexivity.
  now destruct (Hno m files).
Qed.

(** *** The removal of empty directories *)

(** What the loop of [cleanupEmptyDirectories] leaves of the entry at
    [subDirPath]. *)
Definition afterClean (w : World) (subDirPath : string) (node : Node) : option Node :=
  match node with
  | File _ _ => Some node
  | Dir _ _ =>
      if removed w subDirPath (emptyDirsCleaned w subDirPath node) then None
      else Some (emptyDirsCleaned w subDirPath node)
  end.

Lemma cleanEntries_loop (w : World) (dirPath : string) (entries : list (string * Node)) :
  cleanEntries w dirPath entries = entryLoop (λ name, afterClean w (join dirPath name)) entries.
Proof.
  induction entries as [|[name [mtime size|mtime es]] rest IH]; [reflexivity| |].
  - simpl. now rewrite IH.
  - cbn [cleanEntries entryLoop afterClean]. cbv zeta.
    destruct (removed w _ _); now rewrite IH.
Qed.

(** The modification time of the directory at [dirPath] after
    [cleanupEmptyDirectories(dirPath)]. *)
Definition cleanedTime (w : World) (dirPath : string) (m : Z) (entries : list (string * Node))
  : Z :=
  if rejects w (ReaddirTypes dirPath) then m
  else if (length (cleanEntries w dirPath entries) <? length entries)%nat
       then touched w (ReaddirTypes dirPath) else m.

Lemma emptyDirsCleaned_Dir (w : World) (dirPath : string) (m : Z)
    (entries : list (string * Node)) :
  emptyDirsCleaned w dirPath (Dir m entries)
  = Dir (cleanedTime w dirPath m entries) (cleanupEmptyDirectories w dirPath entries).
Proof.
  unfold cleanedTime, cleanupEmptyDirectories. cbn [emptyDirsCleaned].
  destruct (rejects w (ReaddirTypes dirPath)); [reflexivity|]. cbv zeta.
  assert ((fix loop (l : list (string * Node)) : list (string * Node) :=
             match l with
             | [] => []
             | (name, child) :: rest =>
                 match child with
                 | File _ _ => (name, child) :: loop rest
                 | Dir _ _ =>
                     if removed w (join dirPath name) (emptyDirsCleaned w (join dirPath name) child)
                     then loop rest
                     else (name, emptyDirsCleaned w (join dirPath name) child) :: loop rest
                 end
             end) entries = cleanEntries w dirPath entries) as ->; [|reflexivity].
  induction entries as [|[name [mtime size|mtime es]] rest IH]; [reflexivity| |].
  - now rewrite IH.
  - rewrite IH. reflexivity.
Qed.

Lemma removed_empty (w : World) (subDirPath : string) (n : Node) :
  removed w subDirPath n = true → isEmptyDir n = true.
Proof.
  unfold removed. intros H. apply andb_true_iff in H as [H _].
  now apply andb_true_iff in H as [_ H].
Qed.

Lemma removed_calm (w : World) (subDirPath : string) (n : Node) :
  rejects w (ReaddirCheck subDirPath) = false → rejects w (Rmdir subDirPath) = false →
  removed w subDirPath n = isEmptyDir n.
Proof.
  intros H1 H2. unfold removed. rewrite H1, H2. simpl. now rewrite andb_true_r.
Qed.

Lemma cleanupEmptyDirectories_NoDup (w : World) (dirPath : string)
    (entries : list (string * Node)) :
  NoDup (map fst entries) → NoDup (map fst (cleanupEmptyDirectories w dirPath entries)).
Proof.
  intros Hnd. unfold cleanupEmptyDirectories. destruct (rejects w _); [exact Hnd|].
  rewrite cleanEntries_loop. now apply entryLoop_NoDup.
Qed.

Lemma cleanupEmptyDirectories_lookup (w : World) (dirPath : string)
    (entries : list (string * Node)) (name : string) (node : Node) :
  NoDup (map fst entries) →
  lookupEntry name entries = Some node →
  lookupEntry name (cleanupEmptyDirectories w dirPath entries) =
  if rejects w (ReaddirTypes dirPath) then Some node
  else afterClean w (join dirPath name) node.
Proof.
  intros Hnd Hlook. unfold cleanupEmptyDirectories. destruct (rejects w _); [exact Hlook|].
  rewrite cleanEntries_loop.
  now rewrite (entryLoop_lookup _ entries name node Hnd Hlook).
Qed.

Lemma cleanupEmptyDirectories_lookup_None (w : World) (dirPath : string)
    (entries : list (string * Node)) (name : string) :
  lookupEntry name entries = None →
  lookupEntry name (cleanupEmptyDirectories w dirPath entries) = None.
Proof.
  intros Hlook. unfold cleanupEmptyDirectories. destruct (rejects w _); [exact Hlook|].
  rewrite cleanEntries_loop. now apply entryLoop_lookup_None.
Qed.

(** No file is lost when empty directories are removed. *)
Lemma filesOf_cleaned (w : World) (n : Node) :
  ∀ dirPath, filesOf (emptyDirsCleaned w dirPath n) = filesOf n.
Proof.
  induction n as [mtime size|mtime entries IH] using Node_tree_ind; intros dirPath;
    [reflexivity|].
  rewrite emptyDirsCleaned_Dir, !filesOf_Dir. unfold cleanupEmptyDirectories.
  destruct (rejects w _); [reflexivity|].
  induction IH as [|[name child] rest Hchild _ IHrest]; [reflexivity|].
  destruct child as [m s|m es].
  - simpl. now rewrite IHrest.
  - cbn [cleanEntries]. cbv zeta. cbn [snd] in Hchild.
    destruct (removed w (join dirPath name) _) eqn:Hrem.
    + apply removed_empty, isEmptyDir_files in Hrem. rewrite Hchild in Hrem.
      cbn [filesBelow]. rewrite Hrem. simpl. exact IHrest.
    + cbn [filesBelow]. now rewrite Hchild, IHrest.
Qed.

Lemma cleanupEmptyDirectories_aux_files (w : World) (dirPath : string)
    (entries : list (string * Node)) :
  filesBelow (cleanupEmptyDirectories w dirPath entries) = filesBelow entries.
Proof.
  rewrite <- !(filesOf_Dir 0).
  rewrite <- (filesOf_cleaned w (Dir 0 entries) dirPath), emptyDirsCleaned_Dir.
  now rewrite !filesOf_Dir.
Qed.

(** With no call rejected, a directory that holds no file at any depth is
    empty after the removal of its empty subdirectories. *)
Lemma hollow_cleaned (w : World) (n : Node) :
  calm w →
  ∀ dirPath m entries, n = Dir m entries → filesBelow entries = [] →
                       cleanupEmptyDirectories w dirPath entries = [].
Proof.
  intros Hcalm.
  induction n as [mtime size|mtime entries IH] using Node_tree_ind;
    intros dirPath m es Heq Hfiles; [discriminate|].
  injection Heq as -> ->. unfold cleanupEmptyDirectories. rewrite Hcalm.
  induction IH as [|[name child] rest Hchild _ IHrest]; [reflexivity|].
  cbn [filesBelow] in Hfiles. apply app_eq_nil in Hfiles as [Hhere Hrest].
  destruct child as [m' s|m' es']; [discriminate|].
  cbn [cleanEntries]. cbv zeta.
  rewrite emptyDirsCleaned_Dir, removed_calm by apply Hcalm.
  cbn [snd] in Hchild. rewrite (Hchild (join dirPath name) m' es' eq_refl).
  - simpl. now apply IHrest.
  - rewrite <- (filesOf_Dir m') . now apply map_eq_nil in Hhere.
Qed.

(** *** One pass *)

(** The temp tree after the two sweeps of [cleanup], before the removal of
    empty directories. *)
Definition swept (w : World) (now1 now2 : Z) (temp : list (string * Node))
  : list (string * Node) :=
  (cleanupDirectory w "processing" PROCESSING_MAX_AGE now2
     (cleanupDirectory w "downloads" DOWNLOADS_MAX_AGE now1 0 temp).1.2
     (cleanupDirectory w "downloads" DOWNLOADS_MAX_AGE now1 0 temp).2).2.

Lemma cleanup_tree (w : World) (now1 now2 : Z) (temp : list (string * Node)) :
  (cleanup w now1 now2 temp).2 = cleanupEmptyDirectories w TEMP_DIR (swept w now1 now2 temp).
Proof.
  unfold cleanup, swept.
  destruct (cleanupDirectory w "downloads" DOWNLOADS_MAX_AGE now1 0 temp) as [[dd b1] temp1].
  simpl.
  destruct (cleanupDirectory w "processing" PROCESSING_MAX_AGE now2 b1 temp1)
    as [[pd b2] temp2].
  reflexivity.
Qed.

Lemma swept_names (w : World) (now1 now2 : Z) (temp : list (string * Node)) :
  map fst (swept w now1 now2 temp) = map fst temp.
Proof. unfold swept. now rewrite !cleanupDirectory_names. Qed.

(** The two watched directories with their thresholds in milliseconds,
    1 hour and 30 minutes, and the reading of the clock each is swept
    with. *)
Inductive watched (now1 now2 : Z) : string -> Z -> Z -> Prop :=
| watched_downloads : watched now1 now2 "downloads" 3600000 now1
| watched_processing : watched now1 now2 "processing" 1800000 now2.

Lemma swept_lookup (w : World) (now1 now2 : Z) (temp files : list (string * Node))
    (dirName : string) (maxAge now m : Z) :
  watched now1 now2 dirName maxAge now →
  lookupEntry dirName temp = Some (Dir m files) →
  ∃ m', lookupEntry dirName (swept w now1 now2 temp)
        = Some (Dir m' (sweptFiles w dirName now maxAge files)).
Proof.
  intros [] Hlook; unfold swept.
  - rewrite cleanupDirectory_lookup_other by discriminate.
    now apply (cleanupDirectory_lookup_same w "downloads" DOWNLOADS_MAX_AGE now1 0 m).
  - apply (cleanupDirectory_lookup_same w "processing" PROCESSING_MAX_AGE now2 _ m).
    rewrite cleanupDirectory_lookup_other by discriminate. exact Hlook.
Qed.

(** What is not a directory before the sweeps is the same after them. *)
Lemma swept_lookup_other (w : World) (now1 now2 : Z) (temp : list (string * Node))
    (dirName : string) :
  (∀ m files, lookupEntry dirName temp ≠ Some (Dir m files)) →
  lookupEntry dirName (swept w now1 now2 temp) = lookupEntry dirName temp.
Proof.
  intros Hno. unfold swept.
  assert (∀ d maxAge now bytes t,
            (∀ m files, lookupEntry dirName t ≠ Some (Dir m files)) →
            lookupEntry dirName (cleanupDirectory w d maxAge now bytes t).2
            = lookupEntry dirName t) as Hone.
  { intros d maxAge now bytes t Ht.
    destruct (String.eqb_spec dirName d) as [->|Hne].
    - now rewrite cleanupDirectory_not_listed.
    - now apply cleanupDirectory_lookup_other. }
  rewrite Hone; [now apply Hone|]. intros m files. rewrite Hone by exact Hno. apply Hno.
Qed.

(** The entries of a directory of the temp tree after a pass. *)
Lemma entries_after_pass (w : World) (dirName : string) (now1 now2 m : Z)
    (temp kept : list (string * Node)) :
  NoDup (map fst temp) →
  lookupEntry dirName (swept w now1 now2 temp) = Some (Dir m kept) →
  entriesOf dirName (cleanup w now1 now2 temp).2 =
  if rejects w (ReaddirTypes TEMP_DIR) then kept
  else cleanupEmptyDirectories w (join TEMP_DIR dirName) kept.
Proof.
  intros Hnd Hlook. rewrite cleanup_tree. unfold entriesOf.
  rewrite (cleanupEmptyDirectories_lookup w TEMP_DIR _ dirName (Dir m kept));
    [|rewrite swept_names; exact Hnd|exact Hlook].
  destruct (rejects w (ReaddirTypes TEMP_DIR)); [reflexivity|].
  cbn [afterClean]. rewrite emptyDirsCleaned_Dir.
  destruct (removed w _ _) eqn:Hrem; [|reflexivity].
  apply removed_empty in Hrem. simpl in Hrem.
  destruct (cleanupEmptyDirectories w (join TEMP_DIR dirName) kept);
    [reflexivity|discriminate].
Qed.

(** What one pass leaves of an entry of a watched directory. *)
Definition afterPass (w : World) (dirName name : string) (now maxAge : Z) (node : Node)
  : option Node :=
  match (if rejects w (Readdir (join TEMP_DIR dirName)) then Some node
         else afterSweep w now maxAge (join (join TEMP_DIR dirName) name) node) with
  | None => None
  | Some node' =>
      if rejects w (ReaddirTypes TEMP_DIR) then Some node'
      else if rejects w (ReaddirTypes (join TEMP_DIR dirName)) then Some node'
      else afterClean w (join (join TEMP_DIR dirName) name) node'
  end.

Lemma pass_lookup (w : World) (now1 now2 : Z) (temp files : list (string * Node))
    (dirName name : string) (maxAge now m : Z) (node : Node) :
  watched now1 now2 dirName maxAge now →
  NoDup (map fst temp) →
  lookupEntry dirName temp = Some (Dir m files) →
  NoDup (map fst files) →
  lookupEntry name files = Some node →
  lookupEntry name (entriesOf dirName (cleanup w now1 now2 temp).2)
  = afterPass w dirName name now maxAge node.
Proof.
  intros Hw Hnd Hdir Hfiles Hlook.
  destruct (swept_lookup w now1 now2 temp files dirName maxAge now m Hw Hdir) as [m' Hswept].
  rewrite (entries_after_pass w dirName now1 now2 m' temp _ Hnd Hswept).
  pose proof (sweptFiles_lookup w dirName now maxAge files name node Hfiles Hlook) as Hkept.
  pose proof (sweptFiles_NoDup w dirName now maxAge files Hfiles) as Hnd'.
  unfold afterPass.
  destruct (rejects w (ReaddirTypes TEMP_DIR)).
  - rewrite Hkept. now destruct (if rejects w _ then _ else _).
  - destruct (if rejects w (Readdir _) then _ else _) as [node'|].
    + now rewrite (cleanupEmptyDirectories_lookup w _ _ name node' Hnd' Hkept).
    + now apply cleanupEmptyDirectories_lookup_None.
Qed.

Definition minutes (n : Z) : Z := n * 60 * 1000.

(** C9, as stated, fails, also when no call to the file system is
    rejected: the scratch directory of a job that was created one minute
    ago and is still empty is an immediate entry of the processing
    directory whose age does not exceed 30 minutes, yet the pass deletes
    it, for the pass also removes every empty directory. *)
Lemma young_empty_directory_is_deleted :
  ¬ (∀ (w : World) (now : Z) (temp files : list (string * Node)) (m : Z) (name : string)
       (node : Node),
       calm w →
       NoDup (map fst temp) →
       lookupEntry "processing" temp = Some (Dir m files) →
       NoDup (map fst files) →
       lookupEntry name files = Some node →
       (lookupEntry name (entriesOf "processing" (cleanup w now now temp).2) = None ↔
        now - modified node > 1800000)).
Proof.
  intros H.
  assert (NoDup ["processing"]) as Hroot by compute_done.
  assert (NoDup ["job-1"]) as Hjob by compute_done.
  specialize (H (reliable (minutes 1000)) (minutes 1000)
                [("processing", Dir 0 [("job-1", Dir (minutes 999) [])])]
                [("job-1", Dir (minutes 999) [])] 0 "job-1" (Dir (minutes 999) [])
                (reliable_calm _) Hroot eq_refl Hjob eq_refl).
  destruct H as [H _]. specialize (H eq_refl).
  vm_compute in H. discriminate H.
Qed.

(** C9, amended. In every pass, for an immediate entry of a watched
    directory (downloads: threshold 1 hour; processing: threshold 30
    minutes), whatever the file system rejects:
    - a file is deleted exactly when its age strictly exceeds the
      threshold and the listing of the watched directory, the [stat] and
      the [unlink] of the file are not rejected; otherwise it is left as it
      is;
    - a directory whose age strictly exceeds the threshold is deleted when
      the listing, its [stat] and its [rm] are not rejected;
    - a directory that is not older and holds a file, at any depth, stays
      and keeps its files.
    When no call is rejected, an entry is deleted exactly when its age
    strictly exceeds the threshold or it is a directory that holds no file
    at any depth: the pass ends by removing empty directories whatever
    their age.  A watched directory that is missing is swept as a no-op: no
    deletion is counted and the tree is unchanged. *)
Theorem sweep_pass_spec (w : World) (now1 now2 : Z) (temp : list (string * Node)) :
  NoDup (map fst temp) →
  (∀ dirName maxAge now m files name node,
     watched now1 now2 dirName maxAge now →
     lookupEntry dirName temp = Some (Dir m files) →
     NoDup (map fst files) →
     lookupEntry name files = Some node →
     let after := lookupEntry name (entriesOf dirName (cleanup w now1 now2 temp).2) in
     let dirPath := "temp/" ++ dirName in
     let path := "temp/" ++ dirName ++ "/" ++ name in
     (∀ mtime size, node = File mtime size →
        (after = None ↔
         now - mtime > maxAge ∧ rejects w (Readdir dirPath) = false ∧
         rejects w (Stat path) = false ∧ rejects w (Unlink path) = false) ∧
        (after ≠ None → after = Some (File mtime size))) ∧
     (∀ mtime entries, node = Dir mtime entries →
        (now - mtime > maxAge → rejects w (Readdir dirPath) = false →
         rejects w (Stat path) = false → rejects w (Rm path) = false → after = None) ∧
        (now - mtime <= maxAge → filesBelow entries ≠ [] →
         ∃ mtime' entries',
           after = Some (Dir mtime' entries') ∧ filesBelow entries' = filesBelow entries)) ∧
     (calm w →
      (after = None ↔
       now - modified node > maxAge ∨ ∃ mtime entries, node = Dir mtime entries ∧
                                                       filesBelow entries = []))) ∧
  (∀ dirName maxAge now bytes,
     lookupEntry dirName temp = None →
     cleanupDirectory w dirName maxAge now bytes temp = (0, bytes, temp)).
Proof.
  intros Hnd. split.
  - intros dirName maxAge now m files name node Hw Hdir Hfiles Hlook after dirPath path.
    subst after dirPath path.
    rewrite (pass_lookup w now1 now2 temp files dirName name maxAge now m node
               Hw Hnd Hdir Hfiles Hlook).
    unfold afterPass, afterSweep. rewrite entry_path, watched_path.
    split; [|split].
    + intros mtime size ->. cbn [mtimeOf afterClean].
      destruct (rejects w (Readdir ("temp/" ++ dirName))),
        (rejects w (Stat ("temp/" ++ dirName ++ "/" ++ name))),
        (rejects w (Unlink ("temp/" ++ dirName ++ "/" ++ name))),
        (rejects w (ReaddirTypes TEMP_DIR)),
        (rejects w (ReaddirTypes ("temp/" ++ dirName))),
        (Z.gtb_spec (now - mtime) maxAge);
        cbv beta iota; cbn [afterClean];
        (split; [split; [intros Hx|intros (H1 & H2 & H3 & H4)]|intros Hx]);
        first [reflexivity|congruence|lia|repeat split; first [reflexivity|lia]].
    + intros mtime entries ->. cbn [mtimeOf]. split.
      * intros Hold -> -> ->. destruct (Z.gtb_spec (now - mtime) maxAge); [reflexivity|lia].
      * intros Hyoung Hholds.
        assert ((if now - mtime >? maxAge
                 then if rejects w (Rm ("temp/" ++ dirName ++ "/" ++ name))
                      then Some (Dir (rmLeaves w ("temp/" ++ dirName ++ "/" ++ name)).1
                                     (rmLeaves w ("temp/" ++ dirName ++ "/" ++ name)).2)
                      else None
                 else Some (Dir mtime entries)) = Some (Dir mtime entries)) as ->
            by (destruct (Z.gtb_spec (now - mtime) maxAge); [lia|reflexivity]).
        assert (afterClean w ("temp/" ++ dirName ++ "/" ++ name) (Dir mtime entries)
                = Some (emptyDirsCleaned w ("temp/" ++ dirName ++ "/" ++ name)
                                         (Dir mtime entries))) as Hclean.
        { cbn [afterClean]. destruct (removed w _ _) eqn:Hrem; [|reflexivity].
          apply removed_empty, isEmptyDir_files in Hrem.
          rewrite filesOf_cleaned, filesOf_Dir in Hrem. contradiction. }
        assert (∃ mtime' entries',
                  emptyDirsCleaned w ("temp/" ++ dirName ++ "/" ++ name) (Dir mtime entries)
                  = Dir mtime' entries' ∧ filesBelow entries' = filesBelow entries)
          as (mtime' & entries' & Hcleaned & Hsame).
        { rewrite emptyDirsCleaned_Dir. eexists _, _. split; [reflexivity|].
          apply cleanupEmptyDirectories_aux_files. }
        destruct (rejects w (Stat ("temp/" ++ dirName ++ "/" ++ name))),
          (rejects w (Readdir ("temp/" ++ dirName))),
          (rejects w (ReaddirTypes TEMP_DIR)),
          (rejects w (ReaddirTypes ("temp/" ++ dirName)));
          cbv beta iota;
          first [eexists _, _; split; reflexivity
                |rewrite Hclean, Hcleaned; eexists _, _; split; [reflexivity|exact Hsame]].
    + intros Hcalm. rewrite !Hcalm.
      destruct node as [mtime size|mtime entries]; cbn [mtimeOf modified].
      * destruct (Z.gtb_spec (now - mtime) maxAge); cbn [afterClean].
        -- split; [intros _; left; lia|reflexivity].
        -- split; [discriminate|]. intros [Hold|(? & ? & Heq & _)]; [lia|discriminate].
      * destruct (Z.gtb_spec (now - mtime) maxAge).
        -- split; [intros _; left; lia|reflexivity].
        -- cbn [afterClean]. rewrite removed_calm by apply Hcalm.
           rewrite emptyDirsCleaned_Dir. cbn [isEmptyDir]. split.
           ++ destruct (cleanupEmptyDirectories w _ entries) eqn:Hempty; [|discriminate].
              intros _. right. exists mtime, entries. split; [reflexivity|].
              rewrite <- (cleanupEmptyDirectories_aux_files
                            w ("temp/" ++ dirName ++ "/" ++ name)), Hempty. reflexivity.
           ++ intros [Hold|(mtime' & entries' & [= <- <-] & Hhollow)]; [lia|].
              rewrite (hollow_cleaned w (Dir mtime entries) Hcalm _ mtime entries eq_refl
                         Hhollow). reflexivity.
  - intros dirName maxAge now bytes Hmissing. unfold cleanupDirectory.
    rewrite Hmissing. reflexivity.
Qed.

(** The scenario of the specification: a scratch file 31 minutes old, and
    downloads files 59 and 61 minutes old. *)
Definition scenarioTree (now : Z) : list (string * Node) :=
  [("downloads", Dir (now - minutes 120)
                     [("a.mp4", File (now - minutes 59) 1000);
                      ("b.mp4", File (now - minutes 61) 2000)]);
   ("processing", Dir (now - minutes 120)
                      [("job-9.part", File (now - minutes 31) 300)])].

Lemma sweep_pass_spec_witness :
  let now := minutes 100000 in
  let after := (cleanup (reliable now) now now (scenarioTree now)).2 in
  lookupEntry "job-9.part" (entriesOf "processing" after) = None ∧
  lookupEntry "a.mp4" (entriesOf "downloads" after) = Some (File (now - minutes 59) 1000) ∧
  lookupEntry "b.mp4" (entriesOf "downloads" after) = None ∧
  cleanupDirectory (reliable now) "uploads" 3600000 now 0 (scenarioTree now)
    = (0, 0, scenarioTree now).
Proof.
  intros now after.
  assert (NoDup (map fst (scenarioTree now))) as Hnd
      by compute_done.
  destruct (sweep_pass_spec (reliable now) now now (scenarioTree now) Hnd)
    as [Hentries Hmissing].
  assert (NoDup ["a.mp4"; "b.mp4"]) as Hd by compute_done.
  assert (NoDup ["job-9.part"]) as Hp by compute_done.
  split; [|split; [|split]].
  - destruct (Hentries "processing" 1800000 now (now - minutes 120)
                [("job-9.part", File (now - minutes 31) 300)] "job-9.part"
                (File (now - minutes 31) 300) (watched_processing now now)
                eq_refl Hp eq_refl) as (Hfile & _).
    apply (Hfile _ _ eq_refl). repeat split; try reflexivity.
  - destruct (Hentries "downloads" 3600000 now (now - minutes 120)
                [("a.mp4", File (now - minutes 59) 1000);
                 ("b.mp4", File (now - minutes 61) 2000)] "a.mp4"
                (File (now - minutes 59) 1000) (watched_downloads now now)
                eq_refl Hd eq_refl) as (Hfile & _).
    destruct (Hfile _ _ eq_refl) as [Hgone Hkept]. apply Hkept.
    intros Hnone. apply Hgone in Hnone as [Hold _]. vm_compute in Hold. discriminate Hold.
  - destruct (Hentries "downloads" 3600000 now (now - minutes 120)
                [("a.mp4", File (now - minutes 59) 1000);
                 ("b.mp4", File (now - minutes 61) 2000)] "b.mp4"
                (File (now - minutes 61) 2000) (watched_downloads now now)
                eq_refl Hd eq_refl) as (Hfile & _).
    apply (Hfile _ _ eq_refl). repeat split; try reflexivity.
  - apply Hmissing. reflexivity.
Defined.

(** *** The removal of empty directories *)

(** X10. [cleanupEmptyDirectories] removes no file, whatever the file system
    rejects: the plain files below the directory, with their paths, times
    and sizes and in the same order, are the same before and after. *)
Theorem cleanupEmptyDirectories_keeps_files (w : World) (dirPath : string)
    (entries : list (string * Node)) :
  filesBelow (cleanupEmptyDirectories w dirPath entries) = filesBelow entries.
Proof.
  unfold cleanupEmptyDirectories. destruct (rejects w (ReaddirTypes dirPath)); [reflexivity|].
  induction entries as [|[name [mtime size|mtime es]] rest IH]; [reflexivity| |].
  - simpl. now rewrite IH.
  - pose proof (filesOf_cleaned w (Dir mtime es) (join dirPath name)) as Hchild.
    cbn [cleanEntries]. cbv zeta.
    destruct (removed w (join dirPath name) _) eqn:Hempty.
    + apply removed_empty, isEmptyDir_files in Hempty. rewrite Hchild in Hempty.
      cbn [filesBelow]. rewrite Hempty. simpl. exact IH.
    + cbn [filesBelow]. now rewrite Hchild, IH.
Qed.

(** No directory inside the node is empty. *)
Fixpoint noEmptyDirs (n : Node) : bool :=
  match n with
  | File _ _ => true
  | Dir _ entries =>
      (fix loop (l : list (string * Node)) : bool :=
         match l with
         | [] => true
         | (_, child) :: rest => negb (isEmptyDir child) && noEmptyDirs child && loop rest
         end) entries
  end.

Fixpoint noEmptyBelow (entries : list (string * Node)) : bool :=
  match entries with
  | [] => true
  | (_, child) :: rest => negb (isEmptyDir child) && noEmptyDirs child && noEmptyBelow rest
  end.

Lemma noEmptyDirs_Dir (mtime : Z) (entries : list (string * Node)) :
  noEmptyDirs (Dir mtime entries) = noEmptyBelow entries.
Proof.
  induction entries as [|[name child] rest IH]; [reflexivity|].
  simpl in *. now rewrite IH.
Qed.

(** Neither a listing nor the removal of an empty directory is rejected. *)
Definition removesEmpty (w : World) : Prop :=
  ∀ path, rejects w (ReaddirTypes path) = false ∧ rejects w (ReaddirCheck path) = false ∧
          rejects w (Rmdir path) = false.

Lemma noEmptyDirs_cleaned (w : World) (n : Node) :
  removesEmpty w → ∀ dirPath, noEmptyDirs (emptyDirsCleaned w dirPath n) = true.
Proof.
  intros Hw.
  induction n as [mtime size|mtime entries IH] using Node_tree_ind; intros dirPath;
    [reflexivity|].
  rewrite emptyDirsCleaned_Dir, noEmptyDirs_Dir. unfold cleanupEmptyDirectories.
  rewrite (proj1 (Hw dirPath)).
  induction IH as [|[name child] rest Hchild _ IHrest]; [reflexivity|].
  destruct child as [m s|m es]; [simpl; exact IHrest|].
  cbn [cleanEntries]. cbv zeta. cbn [snd] in Hchild.
  rewrite removed_calm by apply Hw.
  destruct (isEmptyDir (emptyDirsCleaned w (join dirPath name) (Dir m es))) eqn:Hempty;
    [exact IHrest|].
  cbn [noEmptyBelow]. now rewrite Hempty, Hchild, IHrest.
Qed.

Lemma emptyDirsCleaned_stable (w : World) (n : Node) :
  noEmptyDirs n = true → ∀ dirPath, emptyDirsCleaned w dirPath n = n.
Proof.
  induction n as [mtime size|mtime entries IH] using Node_tree_ind; intros Hne dirPath;
    [reflexivity|].
  rewrite noEmptyDirs_Dir in Hne. rewrite emptyDirsCleaned_Dir.
  assert (cleanEntries w dirPath entries = entries) as Hsame.
  { induction IH as [|[name child] rest Hchild _ IHrest]; [reflexivity|].
    cbn [noEmptyBelow] in Hne. apply andb_true_iff in Hne as [Hne Hrest].
    apply andb_true_iff in Hne as [Hempty Hclean]. apply negb_true_iff in Hempty.
    destruct child as [m s|m es]; [simpl; now rewrite (IHrest Hrest)|].
    cbn [cleanEntries]. cbv zeta. cbn [snd] in Hchild.
    rewrite (Hchild Hclean). unfold removed. rewrite Hempty, andb_false_r. simpl.
    now rewrite (IHrest Hrest). }
  unfold cleanedTime, cleanupEmptyDirectories. rewrite Hsame, Nat.ltb_irrefl.
  now destruct (rejects w _).
Qed.

(** X11. When neither a listing nor an [rmdir] is rejected, no directory
    below the directory is empty after [cleanupEmptyDirectories], at any
    depth, and a second call changes nothing.  Whatever is rejected, the
    call changes nothing when no directory below was empty; when nothing
    is rejected that is the only case in which it changes nothing. *)
Theorem cleanupEmptyDirectories_leaves_no_empty (w : World) (dirPath : string)
    (entries : list (string * Node)) :
  (noEmptyBelow entries = true → cleanupEmptyDirectories w dirPath entries = entries) ∧
  (removesEmpty w →
   noEmptyBelow (cleanupEmptyDirectories w dirPath entries) = true ∧
   (cleanupEmptyDirectories w dirPath entries = entries → noEmptyBelow entries = true) ∧
   cleanupEmptyDirectories w dirPath (cleanupEmptyDirectories w dirPath entries)
   = cleanupEmptyDirectories w dirPath entries).
Proof.
  assert (∀ es, noEmptyBelow es = true → cleanupEmptyDirectories w dirPath es = es)
    as Hstable.
  { intros es Hes. rewrite <- (noEmptyDirs_Dir 0) in Hes.
    apply (emptyDirsCleaned_stable w) with (dirPath := dirPath) in Hes.
    rewrite emptyDirsCleaned_Dir in Hes. now injection Hes. }
  split; [apply Hstable|]. intros Hw.
  assert (∀ es, noEmptyBelow (cleanupEmptyDirectories w dirPath es) = true) as Hclean.
  { intros es. rewrite <- (noEmptyDirs_Dir (cleanedTime w dirPath 0 es)), <- emptyDirsCleaned_Dir.
    now apply noEmptyDirs_cleaned. }
  split; [apply Hclean|]. split.
  - intros Heq. rewrite <- Heq. apply Hclean.
  - apply Hstable, Hclean.
Qed.

(** A tree with an empty directory two levels down, beside a file. *)
Definition nestedEmpty : list (string * Node) :=
  [("job-1", Dir 100 [("parts", Dir 100 [])]); ("a.mp4", File 100 700)].

(** The file system that rejects the [rmdir] of [path] and nothing else. *)
Definition rmdirRejected (path : string) : World :=
  {| rejects := λ c, match c with Rmdir p => String.eqb p path | _ => false end;
     rmLeaves := λ _, (0, []); touched := λ _, 200 |}.

Lemma cleanupEmptyDirectories_leaves_no_empty_witness :
  cleanupEmptyDirectories (reliable 200) "temp" nestedEmpty = [("a.mp4", File 100 700)] ∧
  noEmptyBelow (cleanupEmptyDirectories (reliable 200) "temp" nestedEmpty) = true ∧
  cleanupEmptyDirectories (rmdirRejected "temp/job-1") "temp" nestedEmpty
  = [("job-1", Dir 200 []); ("a.mp4", File 100 700)].
Proof.
  assert (removesEmpty (reliable 200)) as Hw by (intros path; auto).
  destruct (cleanupEmptyDirectories_leaves_no_empty (reliable 200) "temp" nestedEmpty)
    as [_ Hcalm].
  destruct (Hcalm Hw) as (Hnone & _).
  split; [reflexivity|]. split; [exact Hnone|reflexivity].
Defined.

(** *** What a pass frees and what the statistics report *)

Fixpoint sizeSum (files : list (string * Node)) : Z :=
  match files with
  | [] => 0
  | (_, File _ size) :: rest => size + sizeSum rest
  | (_, Dir _ _) :: rest => sizeSum rest
  end.

Fixpoint fileCount (files : list (string * Node)) : Z :=
  match files with
  | [] => 0
  | (_, File _ _) :: rest => 1 + fileCount rest
  | (_, Dir _ _) :: rest => fileCount rest
  end.

Lemma fold_statEntry (w : World) (dirPath : string) (files : list (string * Node))
    (acc : DirectoryStats) :
  calm w →
  dirSize (fold_left (statEntry w dirPath) files acc) = dirSize acc + sizeSum files ∧
  dirFiles (fold_left (statEntry w dirPath) files acc) = dirFiles acc + fileCount files.
Proof.
  intros Hw. revert acc.
  induction files as [|[name [mtime size|mtime entries]] rest IH]; intros acc; simpl.
  - lia.
  - destruct (IH (statEntry w dirPath acc (name, File mtime size))) as [-> ->].
    unfold statEntry. rewrite Hw. simpl. lia.
  - destruct (IH (statEntry w dirPath acc (name, Dir mtime entries))) as [-> ->].
    unfold statEntry. rewrite Hw. simpl. lia.
Qed.

(** With nothing rejected, the statistics of a directory are the size and
    the number of the plain files that are its immediate entries. *)
Lemma getDirectoryStats_calm (w : World) (dirName : string) (temp : list (string * Node)) :
  calm w →
  dirSize (getDirectoryStats w dirName temp) = sizeSum (entriesOf dirName temp) ∧
  dirFiles (getDirectoryStats w dirName temp) = fileCount (entriesOf dirName temp).
Proof.
  intros Hw. unfold getDirectoryStats, entriesOf.
  destruct (lookupEntry dirName temp) as [[mtime size|mtime files]|]; try (split; reflexivity).
  rewrite Hw. destruct (fold_statEntry w (join TEMP_DIR dirName) files noStats Hw) as [-> ->].
  simpl. lia.
Qed.

Lemma fileCount_nonneg (files : list (string * Node)) : 0 <= fileCount files.
Proof. induction files as [|[name [|]] rest IH]; simpl; lia. Qed.

(** The files the loop of [cleanupDirectory] removes are at most the
    deletions it counts; the bytes it adds are the bytes it removes when no
    [unlink] is rejected. *)
Lemma sweepEntries_account (w : World) (dirPath : string) (now maxAge : Z)
    (files : list (string * Node)) :
  let r := sweepEntries w dirPath now maxAge files in
  0 <= fileCount files - fileCount r.2 <= r.1.1 ∧
  ((∀ path, rejects w (Unlink path) = false) → sizeSum files = sizeSum r.2 + r.1.2).
Proof.
  induction files as [|[name node] rest IH]; simpl; [lia|].
  destruct (sweepEntries w dirPath now maxAge rest) as [[count freed] kept]. simpl in IH.
  destruct IH as [IHcount IHsize].
  destruct (rejects w (Stat _));
    [destruct node; simpl; (split; [lia|intros H; specialize (IHsize H); lia])|].
  destruct (now - mtimeOf node >? maxAge);
    [|destruct node; simpl; (split; [lia|intros H; specialize (IHsize H); lia])].
  destruct node as [mtime size|mtime entries].
  - destruct (rejects w (Unlink (join dirPath name))) eqn:Hun; simpl.
    + split; [lia|]. intros H. rewrite H in Hun. discriminate Hun.
    + split; [lia|]. intros H. specialize (IHsize H). lia.
  - destruct (rejects w (Rm _)); simpl;
      (split; [lia|intros H; specialize (IHsize H); lia]).
Qed.

(** The removal of empty directories leaves the plain files that are
    immediate entries. *)
Lemma cleanupEmptyDirectories_direct (w : World) (dirPath : string)
    (files : list (string * Node)) :
  sizeSum (cleanupEmptyDirectories w dirPath files) = sizeSum files ∧
  fileCount (cleanupEmptyDirectories w dirPath files) = fileCount files.
Proof.
  unfold cleanupEmptyDirectories. destruct (rejects w _); [split; reflexivity|].
  induction files as [|[name [mtime size|mtime entries]] rest [IHs IHc]]; [split; reflexivity| |].
  - simpl. rewrite IHs, IHc. split; reflexivity.
  - cbn [cleanEntries]. cbv zeta. rewrite emptyDirsCleaned_Dir.
    destruct (removed w _ _); simpl; rewrite ?IHs, ?IHc; split; reflexivity.
Qed.

(** The removal of empty directories below the temp directory leaves the
    plain files that are immediate entries of a directory of the temp
    tree. *)
Lemma cleaned_direct (w : World) (dirPath : string) (temp : list (string * Node))
    (dirName : string) :
  NoDup (map fst temp) →
  sizeSum (entriesOf dirName (cleanupEmptyDirectories w dirPath temp))
  = sizeSum (entriesOf dirName temp) ∧
  fileCount (entriesOf dirName (cleanupEmptyDirectories w dirPath temp))
  = fileCount (entriesOf dirName temp).
Proof.
  intros Hnd. unfold entriesOf.
  destruct (lookupEntry dirName temp) as [node|] eqn:Hlook.
  - rewrite (cleanupEmptyDirectories_lookup w dirPath temp dirName node Hnd Hlook).
    destruct (rejects w _); [split; reflexivity|].
    destruct node as [mtime size|mtime files]; [split; reflexivity|].
    cbn [afterClean]. rewrite emptyDirsCleaned_Dir.
    pose proof (cleanupEmptyDirectories_direct w (join dirPath dirName) files) as [Hs Hc].
    destruct (removed w _ _) eqn:Hrem; [|exact (conj Hs Hc)].
    apply removed_empty in Hrem. simpl in Hrem.
    destruct (cleanupEmptyDirectories w (join dirPath dirName) files); [|discriminate].
    simpl in *. auto.
  - rewrite cleanupEmptyDirectories_lookup_None by exact Hlook. split; reflexivity.
Qed.

Lemma cleanupDirectory_account (w : World) (dirName : string) (maxAge now bytes : Z)
    (temp : list (string * Node)) :
  let r := cleanupDirectory w dirName maxAge now bytes temp in
  0 <= fileCount (entriesOf dirName temp) - fileCount (entriesOf dirName r.2) <= r.1.1 ∧
  ((∀ path, rejects w (Unlink path) = false) →
   sizeSum (entriesOf dirName temp) + bytes = sizeSum (entriesOf dirName r.2) + r.1.2) ∧
  (∀ other, other ≠ dirName → entriesOf other r.2 = entriesOf other temp).
Proof.
  intros r. subst r. split; [|split].
  - unfold cleanupDirectory, entriesOf.
    destruct (lookupEntry dirName temp) as [[mtime size|mtime files]|] eqn:Hlook;
      [simpl; rewrite Hlook; simpl; lia| |simpl; rewrite Hlook; simpl; lia].
    destruct (rejects w _); [simpl; rewrite Hlook; lia|].
    pose proof (sweepEntries_account w (join TEMP_DIR dirName) now maxAge files) as [Hcount _].
    destruct (sweepEntries w _ now maxAge files) as [[count freed] kept]. simpl in *.
    rewrite lookupEntry_replace_same, Hlook. exact Hcount.
  - intros Hun. unfold cleanupDirectory, entriesOf.
    destruct (lookupEntry dirName temp) as [[mtime size|mtime files]|] eqn:Hlook;
      [simpl; rewrite Hlook; simpl; lia| |simpl; rewrite Hlook; simpl; lia].
    destruct (rejects w _); [simpl; rewrite Hlook; lia|].
    pose proof (sweepEntries_account w (join TEMP_DIR dirName) now maxAge files) as [_ Hsize].
    specialize (Hsize Hun).
    destruct (sweepEntries w _ now maxAge files) as [[count freed] kept]. simpl in *.
    rewrite lookupEntry_replace_same, Hlook. lia.
  - intros other Hne. unfold entriesOf. now rewrite cleanupDirectory_lookup_other.
Qed.

(** The file system that rejects the [unlink] of [path] and nothing
    else. *)
Definition unlinkRejected (path : string) : World :=
  {| rejects := λ c, match c with Unlink p => String.eqb p path | _ => false end;
     rmLeaves := λ _, (0, []); touched := λ _, 0 |}.

(** X12. With the statistics read by calls that are not rejected, the files
    [getStats] loses over a pass are at most the deletions the pass counts
    (a deleted directory counts as one deletion and frees no counted
    byte), and when no [unlink] of the pass is rejected the bytes the pass
    counts as freed are exactly what [getStats] loses in total size.  With
    a rejected [unlink] the pass counts bytes it does not free: the size
    is added before [unlink] is called. *)
Theorem cleanup_accounting :
  (∀ (w before after : World) (now1 now2 : Z) (temp : list (string * Node)),
     NoDup (map fst temp) → calm before → calm after →
     0 <= totalFiles (getStats before temp)
          - totalFiles (getStats after (cleanup w now1 now2 temp).2)
       <= downloadsDeleted (cleanup w now1 now2 temp).1
          + processingDeleted (cleanup w now1 now2 temp).1 ∧
     ((∀ path, rejects w (Unlink path) = false) →
      totalSize (getStats before temp)
      = totalSize (getStats after (cleanup w now1 now2 temp).2)
        + bytesFreed (cleanup w now1 now2 temp).1)) ∧
  (cleanup (unlinkRejected "temp/downloads/old.mp4") 9000000 9000000
     [("downloads", Dir 0 [("old.mp4", File 1000 700)])]
   = ({| downloadsDeleted := 0; processingDeleted := 0; bytesFreed := 700 |},
      [("downloads", Dir 0 [("old.mp4", File 1000 700)])])).
Proof.
  split; [|reflexivity].
  intros w before after now1 now2 temp Hnd Hbefore Hafter. unfold cleanup.
  pose proof (cleanupDirectory_account w "downloads" DOWNLOADS_MAX_AGE now1 0 temp)
    as (Hd1 & Hd2 & Hd3).
  pose proof (cleanupDirectory_names w "downloads" DOWNLOADS_MAX_AGE now1 0 temp) as Hn1.
  destruct (cleanupDirectory w "downloads" DOWNLOADS_MAX_AGE now1 0 temp) as [[dd b1] temp1].
  cbn [fst snd] in *.
  pose proof (cleanupDirectory_account w "processing" PROCESSING_MAX_AGE now2 b1 temp1)
    as (Hp1 & Hp2 & Hp3).
  pose proof (cleanupDirectory_names w "processing" PROCESSING_MAX_AGE now2 b1 temp1) as Hn2.
  destruct (cleanupDirectory w "processing" PROCESSING_MAX_AGE now2 b1 temp1)
    as [[pd b2] temp2].
  cbn [fst snd bytesFreed downloadsDeleted processingDeleted] in *.
  assert (NoDup (map fst temp2)) as Hnd2 by (rewrite Hn2, Hn1; exact Hnd).
  unfold getStats. cbn [totalSize totalFiles].
  destruct (getDirectoryStats_calm before "downloads" temp Hbefore) as [-> ->].
  destruct (getDirectoryStats_calm before "processing" temp Hbefore) as [-> ->].
  destruct (getDirectoryStats_calm after "downloads"
              (cleanupEmptyDirectories w TEMP_DIR temp2) Hafter) as [-> ->].
  destruct (getDirectoryStats_calm after "processing"
              (cleanupEmptyDirectories w TEMP_DIR temp2) Hafter) as [-> ->].
  destruct (cleaned_direct w TEMP_DIR temp2 "downloads" Hnd2) as [-> ->].
  destruct (cleaned_direct w TEMP_DIR temp2 "processing" Hnd2) as [-> ->].
  rewrite (Hp3 "downloads") by discriminate.
  rewrite <- (Hd3 "processing") in * by discriminate.
  split; [lia|]. intros Hun. specialize (Hd2 Hun). specialize (Hp2 Hun). lia.
Qed.

Definition mixedTree : list (string * Node) :=
  [("downloads", Dir 0 [("old.mp4", File 1000 700); ("new.mp4", File 9000000 500);
                        ("old-dir", Dir 1000 [("inner.mp4", File 1000 300)])]);
   ("processing", Dir 0 [("job-1", Dir 1000 [("video.mp4", File 1000 900)]);
                         ("stray.part", File 1000 40)])].

Lemma cleanup_accounting_witness :
  bytesFreed (cleanup (reliable 9000000) 9000000 9000000 mixedTree).1 = 740 ∧
  totalSize (getStats (reliable 0) mixedTree) = 500 + 740 ∧
  totalFiles (getStats (reliable 0) mixedTree)
  - totalFiles (getStats (reliable 0)
                  (cleanup (reliable 9000000) 9000000 9000000 mixedTree).2)
    <= 4.
Proof.
  assert (NoDup (map fst mixedTree)) as Hnd by compute_done.
  destruct cleanup_accounting as [Haccount _].
  destruct (Haccount (reliable 9000000) (reliable 0) (reliable 0) 9000000 9000000 mixedTree
              Hnd (reliable_calm 0) (reliable_calm 0)) as [Hfiles Hsize].
  split; [reflexivity|]. split.
  - rewrite Hsize by reflexivity. reflexivity.
  - exact (proj2 Hfiles).
Defined.

(** *** The watched directories themselves *)

Lemma entryLoop_In (step : string → Node → option Node) (entries : list (string * Node))
    (name : string) (node node' : Node) :
  In (name, node) entries → step name node = Some node' →
  In (name, node') (entryLoop step entries).
Proof.
  induction entries as [|[n nd] rest IH]; intros Hin Hstep; [destruct Hin|].
  simpl. destruct Hin as [[= -> ->]|Hin].
  - rewrite Hstep. now left.
  - specialize (IH Hin Hstep). destruct (step n nd); [now right|exact IH].
Qed.

Lemma entryLoop_none (step : string → Node → option Node) (entries : list (string * Node)) :
  (∀ name node, In (name, node) entries → step name node = None) →
  entryLoop step entries = [].
Proof.
  induction entries as [|[n nd] rest IH]; intros Hnone; [reflexivity|].
  simpl. rewrite (Hnone n nd (or_introl eq_refl)).
  apply IH. intros name node Hin. apply Hnone. now right.
Qed.

Lemma file_entry_has_files (entries : list (string * Node)) (name : string) (mtime size : Z) :
  In (name, File mtime size) entries → filesBelow entries ≠ [].
Proof.
  induction entries as [|[n nd] rest IH]; intros Hin; [destruct Hin|].
  destruct Hin as [[= -> ->]|Hin]; simpl; [discriminate|].
  intros Heq. apply app_eq_nil in Heq as [_ Heq]. now apply IH.
Qed.

(** X13. A pass also removes a watched directory itself once nothing is left
    in it: when no call is rejected and every immediate entry of
    [downloads] (or [processing]) is older than the threshold, which
    includes the case of a directory that is empty to begin with, the
    directory no longer exists after the pass.  Whatever is rejected, it
    stays when it holds a plain file that is not older than the
    threshold. *)
Theorem emptied_watched_directory_is_removed (w : World) (now1 now2 : Z)
    (temp : list (string * Node)) (dirName : string) (maxAge now mtime : Z)
    (files : list (string * Node)) :
  NoDup (map fst temp) →
  watched now1 now2 dirName maxAge now →
  lookupEntry dirName temp = Some (Dir mtime files) →
  (calm w →
   (∀ name node, In (name, node) files → now - modified node > maxAge) →
   lookupEntry dirName (cleanup w now1 now2 temp).2 = None) ∧
  (∀ name m size, In (name, File m size) files → now - m <= maxAge →
   is_Some (lookupEntry dirName (cleanup w now1 now2 temp).2)).
Proof.
  intros Hnd Hw Hlook.
  assert (NoDup (map fst (swept w now1 now2 temp))) as Hnd'
      by (rewrite swept_names; exact Hnd).
  destruct (swept_lookup w now1 now2 temp files dirName maxAge now mtime Hw Hlook)
    as [m' Hswept].
  rewrite cleanup_tree,
    (cleanupEmptyDirectories_lookup w TEMP_DIR _ dirName _ Hnd' Hswept).
  cbn [afterClean]. rewrite emptyDirsCleaned_Dir.
  split.
  - intros Hcalm Hold. rewrite Hcalm, removed_calm by apply Hcalm.
    assert (sweptFiles w dirName now maxAge files = []) as ->.
    { unfold sweptFiles. rewrite Hcalm, sweepEntries_kept. apply entryLoop_none.
      intros name node Hin. specialize (Hold name node Hin). unfold afterSweep.
      rewrite Hcalm.
      assert ((now - mtimeOf node >? maxAge) = true) as ->
          by (destruct node; simpl in *; apply Z.gtb_lt; lia).
      destruct node; now rewrite Hcalm. }
    unfold cleanupEmptyDirectories. now rewrite Hcalm.
  - intros name m size Hin Hyoung.
    assert (In (name, File m size) (sweptFiles w dirName now maxAge files)) as Hkept.
    { unfold sweptFiles. destruct (rejects w _); [exact Hin|].
      rewrite sweepEntries_kept. apply (entryLoop_In _ files name (File m size)); [exact Hin|].
      unfold afterSweep. destruct (rejects w _); [reflexivity|]. cbn [mtimeOf].
      destruct (Z.gtb_spec (now - m) maxAge); [lia|reflexivity]. }
    apply file_entry_has_files in Hkept.
    destruct (rejects w (ReaddirTypes TEMP_DIR)); [eauto|].
    destruct (removed w _ _) eqn:Hrem; [|eauto].
    apply removed_empty, isEmptyDir_files in Hrem. rewrite filesOf_Dir in Hrem.
    rewrite cleanupEmptyDirectories_aux_files in Hrem. contradiction.
Qed.

Lemma emptied_watched_directory_is_removed_witness :
  lookupEntry "downloads"
    (cleanup (reliable 9000000) 9000000 9000000
       [("downloads", Dir 0 [("a.mp4", File 1000 700)]); ("processing", Dir 0 [])]).2 = None ∧
  lookupEntry "processing"
    (cleanup (reliable 9000000) 9000000 9000000
       [("downloads", Dir 0 [("a.mp4", File 1000 700)]); ("processing", Dir 0 [])]).2 = None.
Proof.
  assert (NoDup (map fst [("downloads", Dir 0 [("a.mp4", File 1000 700)]);
                          ("processing", Dir 0 [])])) as Hnd by compute_done.
  split.
  - apply (emptied_watched_directory_is_removed (reliable 9000000) 9000000 9000000 _
             "downloads" 3600000 9000000 0 [("a.mp4", File 1000 700)] Hnd
             (watched_downloads _ _) eq_refl); [apply reliable_calm|].
    intros name node [[= <- <-]|[]]. vm_compute. reflexivity.
  - apply (emptied_watched_directory_is_removed (reliable 9000000) 9000000 9000000 _
             "processing" 1800000 9000000 0 [] Hnd (watched_processing _ _) eq_refl);
      [apply reliable_calm|].
    intros name node [].
Defined.

End CleanupProperties.

(** ** The job store, the queue and the routes *)

Module JobProperties.
Import VideoProcessor ProcessorProperties JobSystem.

(** C7. A cancel/delete request for a job whose status is [completed] or
    [failed] answers 200 and removes the record from the store, touching no
    other record and neither the queue, the item in flight nor the retry
    timers, so the job is not reopened or queued again; a request for an
    identifier the store does not hold answers 404 and leaves the state as
    it is. *)
Theorem delete_finished_or_unknown_job (st : State) (j : string) (now : Z) :
  (∀ r, jobs st !! j = Some r →
        status r = completed ∨ status r = failed →
        httpStatus (deleteJob j now st).1 = 200 ∧
        jobs (deleteJob j now st).2 = delete j (jobs st) ∧
        jobs (deleteJob j now st).2 !! j = None ∧
        queues (deleteJob j now st).2 = queues st ∧
        running (deleteJob j now st).2 = running st ∧
        timers (deleteJob j now st).2 = timers st ∧
        isProcessing (deleteJob j now st).2 = isProcessing st) ∧
  (jobs st !! j = None →
   httpStatus (deleteJob j now st).1 = 404 ∧ (deleteJob j now st).2 = st).
Proof.
  split.
  - intros r Hr Hfin. unfold deleteJob. rewrite Hr. simpl.
    assert (match status r with
            | processing | queued => <[j := markCancelled now r]> (jobs st)
            | _ => delete j (jobs st)
            end = delete j (jobs st)) as ->
        by (destruct Hfin as [-> | ->]; reflexivity).
    rewrite lookup_delete_eq. auto 10.
  - intros Hnone. unfold deleteJob. rewrite Hnone. auto.
Qed.

Definition finishedRecord : JobRecord :=
  {| id := "job-7"; url := "https://youtu.be/abc"; platform := "YouTube";
     quality := "best"; removeWatermark := true; format := "mp4";
     status := completed; progress := 100; message := Some "Download complete!";
     createdAt := 1000; updatedAt := 9000; clientIP := "10.0.0.1";
     downloadUrl := Some "/downloads/job-7.mp4"; fileSize := Some 4096;
     completedAt := Some 9000; error := None; failedAt := None |}.

Definition finishedState : State :=
  {| jobs := {[ "job-7" := finishedRecord ]}; queues := {[ "processVideo" := [] ]};
     isProcessing := false; running := None; timers := []; logs := [] |}.

Lemma delete_finished_or_unknown_job_witness :
  jobs (deleteJob "job-7" 10000 finishedState).2 !! "job-7" = None ∧
  httpStatus (deleteJob "job-8" 10000 finishedState).1 = 404 ∧
  (deleteJob "job-8" 10000 finishedState).2 = finishedState.
Proof.
  pose proof (delete_finished_or_unknown_job finishedState "job-7" 10000) as [Hfin _].
  pose proof (delete_finished_or_unknown_job finishedState "job-8" 10000) as [_ Hunk].
  split.
  - destruct (Hfin finishedRecord) as (_ & _ & Hgone & _).
    + reflexivity.
    + left. reflexivity.
    + exact Hgone.
  - apply Hunk. reflexivity.
Defined.

(** *** How a step changes the store and the outstanding work *)

Definition finished (s : Status) : Prop := s = completed ∨ s = failed.

Definition itemJob (job : WorkItem) : string := jobId (data job).
Definition timerJob (t : Timer) : string := jobId (timerData t).

Lemma pendingIds_eq (st : State) :
  pendingIds st = (map itemJob (videoQueue st) ++ runningIds st ++ map timerJob (timers st))%list.
Proof. reflexivity. Qed.

(** The item as [processJob] leaves it when it starts. *)
Definition started (job : WorkItem) : WorkItem :=
  {| itemId := itemId job; data := data job; options := options job;
     attempt := attempt job + 1; itemCreatedAt := itemCreatedAt job;
     itemStatus := itemProcessing |}.

(** What [drainNext] does, by cases on the queue. *)
Lemma drainNext_cases (now : Z) (st : State) :
  (videoQueue st = [] ∧
   jobs (drainNext "processVideo" now st) = jobs st ∧
   videoQueue (drainNext "processVideo" now st) = [] ∧
   running (drainNext "processVideo" now st) = running st ∧
   timers (drainNext "processVideo" now st) = timers st ∧
   isProcessing (drainNext "processVideo" now st) = false) ∨
  (∃ head rest,
     videoQueue st = head :: rest ∧
     jobs (drainNext "processVideo" now st) =
       alter (markProcessing now) (itemJob head) (jobs st) ∧
     videoQueue (drainNext "processVideo" now st) = rest ∧
     running (drainNext "processVideo" now st) = Some ("processVideo", started head) ∧
     timers (drainNext "processVideo" now st) = timers st ∧
     isProcessing (drainNext "processVideo" now st) = isProcessing st).
Proof.
  unfold drainNext, videoQueue.
  destruct (default [] (queues st !! "processVideo")) as [|head rest] eqn:Hq.
  - left. simpl. rewrite Hq. auto 10.
  - right. exists head, rest. simpl. rewrite lookup_insert_eq. simpl.
    repeat split; reflexivity.
Qed.

(** The item [add] makes. *)
Definition newItem (d : JobData) (o : QueueOptions) (now : Z) : WorkItem :=
  {| itemId := if String.eqb (jobId d) "" then pretty now else jobId d;
     data := d; options := mergeOptions o; attempt := 0; itemCreatedAt := now;
     itemStatus := waiting |}.

(** What [add] does: the new item goes to the back of the queue, and when
    no drain is active one is started, which takes the item at the front. *)
Lemma add_cases (d : JobData) (o : QueueOptions) (now : Z) (st : State) :
  let st' := add "processVideo" d o now st in
  let job := newItem d o now in
    ((isProcessing st = true ∧
      jobs st' = jobs st ∧
      videoQueue st' = (videoQueue st ++ [job])%list ∧
      running st' = running st ∧
      timers st' = timers st ∧
      isProcessing st' = true) ∨
     (isProcessing st = false ∧
      ∃ head rest,
        (videoQueue st ++ [job])%list = head :: rest ∧
        jobs st' = alter (markProcessing now) (itemJob head) (jobs st) ∧
        videoQueue st' = rest ∧
        running st' = Some ("processVideo", started head) ∧
        timers st' = timers st ∧
        isProcessing st' = true)).
Proof.
  intros st' job. subst st' job. unfold add, newItem.
  cbn [isProcessing]. destruct (isProcessing st) eqn:Hbusy.
  - left. unfold videoQueue. simpl. rewrite lookup_insert_eq. simpl. auto 10.
  - right. split; [reflexivity|]. unfold processQueue, videoQueue. cbn [isProcessing queues].
    rewrite lookup_insert_eq.
    destruct (default [] (queues st !! "processVideo")) as [|head rest] eqn:Hq; simpl.
    + eexists _, []. unfold drainNext. cbn [queues]. rewrite lookup_insert_eq. simpl.
      rewrite lookup_insert_eq. simpl. repeat split; reflexivity.
    + eexists head, _. unfold drainNext. cbn [queues]. rewrite lookup_insert_eq. simpl.
      rewrite lookup_insert_eq. simpl. repeat split; reflexivity.
Qed.

(** The status changes the code makes.  The first seven are those of the
    specification; the last three are the writes of the runner to a record
    that was cancelled while its work item was still outstanding. *)
Inductive allowed : Status -> Status -> Prop :=
| allowed_same s : allowed s s
| allowed_start : allowed queued processing
| allowed_complete : allowed processing completed
| allowed_fail : allowed processing failed
| allowed_cancel_queued : allowed queued cancelled
| allowed_cancel_processing : allowed processing cancelled
| allowed_cancelled_start : allowed cancelled processing
| allowed_cancelled_complete : allowed cancelled completed
| allowed_cancelled_fail : allowed cancelled failed.

(** What holds in every reachable state. *)
Record Inv (st : State) : Prop := mkInv {
  inv_running_queue : ∀ q job, running st = Some (q, job) → q = "processVideo";
  inv_idle : isProcessing st = false → running st = None;
  inv_nodup : NoDup (pendingIds st);
  inv_finished : ∀ j r, jobs st !! j = Some r → finished (status r) → j ∉ pendingIds st;
  inv_running_status : ∀ q job r,
    running st = Some (q, job) → jobs st !! itemJob job = Some r →
    status r = processing ∨ status r = cancelled
}.

(** Every record stays in the store, with an allowed change of status. *)
Definition keeps (st st' : State) : Prop :=
  ∀ j r, jobs st !! j = Some r →
         ∃ r', jobs st' !! j = Some r' ∧ allowed (status r) (status r').

Lemma runningIds_Some (st : State) (q : string) (job : WorkItem) :
  running st = Some (q, job) → runningIds st = [itemJob job].
Proof. unfold runningIds. now intros ->. Qed.

Lemma runningIds_None (st : State) : running st = None → runningIds st = [].
Proof. unfold runningIds. now intros ->. Qed.

Lemma runningIds_same (st st' : State) :
  running st' = running st → runningIds st' = runningIds st.
Proof. unfold runningIds. now intros ->. Qed.

Lemma not_finished_allowed_start (s : Status) :
  ¬ finished s → allowed s processing.
Proof. unfold finished. destruct s; intros H; try constructor; exfalso; auto. Qed.

(** Starting the item at the front of the queue keeps every record. *)
Lemma keeps_markProcessing (st st' : State) (now : Z) (j : string) :
  jobs st' = alter (markProcessing now) j (jobs st) →
  (∀ r, jobs st !! j = Some r → ¬ finished (status r)) →
  keeps st st'.
Proof.
  intros Hjobs Hnot j' r Hr. rewrite Hjobs, lookup_alter. case_decide as Hj.
  - subst j'. rewrite Hr. simpl. eexists. split; [reflexivity|]. simpl.
    apply not_finished_allowed_start. eauto.
  - exists r. split; [exact Hr|constructor].
Qed.

Lemma keeps_refl (st st' : State) : jobs st' = jobs st → keeps st st'.
Proof. intros Hjobs j r Hr. rewrite Hjobs. exists r. split; [exact Hr|constructor]. Qed.

Lemma Permutation_snoc_front {A} (x : A) (l1 l2 : list A) :
  ((l1 ++ [x]) ++ l2)%list ≡ₚ x :: (l1 ++ l2)%list.
Proof.
  rewrite <- (assoc_L (++)). simpl. symmetry. apply Permutation_middle.
Qed.

Lemma add_ok (d : JobData) (o : QueueOptions) (now : Z) (st : State) :
  Inv st →
  jobId d ∉ pendingIds st →
  (∀ r, jobs st !! jobId d = Some r → ¬ finished (status r)) →
  Inv (add "processVideo" d o now st) ∧ keeps st (add "processVideo" d o now st).
Proof.
  intros HI Hfresh Hnf.
  destruct (add_cases d o now st)
    as [(Hbusy & Hjobs & Hq & Hrun & Htim & Hbusy')
       |(Hidle & head & rest & Hq & Hjobs & Hq' & Hrun & Htim & Hbusy')].
  - assert (pendingIds (add "processVideo" d o now st) ≡ₚ jobId d :: pendingIds st) as Hperm.
    { rewrite !pendingIds_eq, Hq, Htim, (runningIds_same _ _ Hrun), map_app.
      apply Permutation_snoc_front. }
    split; [|now apply keeps_refl]. constructor.
    + intros q job. rewrite Hrun. apply (inv_running_queue st HI).
    + rewrite Hbusy'. discriminate.
    + rewrite Hperm. apply NoDup_cons. split; [exact Hfresh|apply (inv_nodup st HI)].
    + intros j r. rewrite Hjobs, Hperm. intros Hr Hfin.
      apply not_elem_of_cons. split; [|eapply inv_finished; eauto].
      intros ->. eapply Hnf; eauto.
    + intros q job r. rewrite Hrun, Hjobs. apply (inv_running_status st HI).
  - pose proof (inv_idle st HI Hidle) as Hnone.
    assert (itemJob head :: map itemJob rest =
            (map itemJob (videoQueue st) ++ [jobId d])%list) as Hids.
    { change (itemJob head :: map itemJob rest) with (map itemJob (head :: rest)).
      rewrite <- Hq, map_app. reflexivity. }
    assert (pendingIds (add "processVideo" d o now st) ≡ₚ jobId d :: pendingIds st) as Hperm.
    { rewrite !pendingIds_eq, Hq', Htim, (runningIds_Some _ _ _ Hrun),
        (runningIds_None _ Hnone).
      change (itemJob (started head)) with (itemJob head). simpl.
      etrans; [symmetry; apply Permutation_middle|].
      rewrite (app_comm_cons _ _ (itemJob head)), Hids.
      apply Permutation_snoc_front. }
    assert (itemJob head ∈ jobId d :: pendingIds st) as Hhead.
    { rewrite <- Hperm, pendingIds_eq, (runningIds_Some _ _ _ Hrun). set_solver. }
    assert (∀ r, jobs st !! itemJob head = Some r → ¬ finished (status r)) as Hheadnf.
    { intros r Hr Hfin. apply elem_of_cons in Hhead as [Heq|Hin].
      - rewrite Heq in Hr. eapply Hnf; eauto.
      - eapply inv_finished; eauto. }
    split; [|eapply keeps_markProcessing; eauto]. constructor.
    + intros q job. rewrite Hrun. now intros [= <- _].
    + rewrite Hbusy'. discriminate.
    + rewrite Hperm. apply NoDup_cons. split; [exact Hfresh|apply (inv_nodup st HI)].
    + intros j r. rewrite Hjobs, Hperm, lookup_alter. case_decide as Hj.
      * destruct (jobs st !! itemJob head); simpl; [|discriminate].
        intros [= <-] [Hfin|Hfin]; discriminate Hfin.
      * intros Hr Hfin. apply not_elem_of_cons. split; [|eapply inv_finished; eauto].
        intros ->. eapply Hnf; eauto.
    + intros q job r. rewrite Hrun, Hjobs. intros [= <- <-].
      change (itemJob (started head)) with (itemJob head). rewrite lookup_alter_eq.
      destruct (jobs st !! itemJob head); simpl; [|discriminate].
      intros [= <-]. now left.
Qed.

Lemma pendingIds_running (st : State) (q : string) (job : WorkItem) :
  running st = Some (q, job) →
  pendingIds st ≡ₚ
  itemJob job :: (map itemJob (videoQueue st) ++ map timerJob (timers st))%list.
Proof.
  intros Hrun. rewrite pendingIds_eq, (runningIds_Some _ _ _ Hrun). simpl.
  symmetry. apply Permutation_middle.
Qed.

Lemma pendingIds_idle (st : State) :
  running st = None →
  pendingIds st = (map itemJob (videoQueue st) ++ map timerJob (timers st))%list.
Proof. intros Hrun. rewrite pendingIds_eq, (runningIds_None _ Hrun). reflexivity. Qed.

(** The loop of [processQueue] going on to the next item. *)
Lemma drainNext_ok (now : Z) (st : State) :
  Inv st →
  running st = None →
  isProcessing st = true →
  Inv (drainNext "processVideo" now st) ∧
  ((jobs (drainNext "processVideo" now st) = jobs st) ∨
   (∃ head, itemJob head ∈ pendingIds st ∧
            jobs (drainNext "processVideo" now st) =
              alter (markProcessing now) (itemJob head) (jobs st))).
Proof.
  intros HI Hnone Hbusy.
  destruct (drainNext_cases now st)
    as [(Hq & Hjobs & Hq' & Hrun & Htim & Hbusy')
       |(head & rest & Hq & Hjobs & Hq' & Hrun & Htim & Hbusy')].
  - assert (pendingIds (drainNext "processVideo" now st) = pendingIds st) as Hsame.
    { rewrite !pendingIds_eq, Hq', Hq, Htim, (runningIds_same _ _ Hrun). reflexivity. }
    split; [|now left]. constructor.
    + intros q job. rewrite Hrun. apply (inv_running_queue st HI).
    + intros _. now rewrite Hrun.
    + rewrite Hsame. apply (inv_nodup st HI).
    + intros j r. rewrite Hjobs, Hsame. apply (inv_finished st HI).
    + intros q job r. rewrite Hrun, Hjobs. apply (inv_running_status st HI).
  - assert (pendingIds (drainNext "processVideo" now st) ≡ₚ pendingIds st) as Hperm.
    { rewrite (pendingIds_running _ _ _ Hrun), (pendingIds_idle st Hnone), Hq', Hq, Htim.
      reflexivity. }
    assert (itemJob head ∈ pendingIds st) as Hhead.
    { rewrite (pendingIds_idle st Hnone), Hq. set_solver. }
    split; [|right; exists head; auto]. constructor.
    + intros q job. rewrite Hrun. now intros [= <- _].
    + rewrite Hbusy', Hbusy. discriminate.
    + rewrite Hperm. apply (inv_nodup st HI).
    + intros j r. rewrite Hjobs, Hperm, lookup_alter. case_decide as Hj.
      * destruct (jobs st !! itemJob head); simpl; [|discriminate].
        intros [= <-] [Hfin|Hfin]; discriminate Hfin.
      * apply (inv_finished st HI).
    + intros q job r. rewrite Hrun, Hjobs. intros [= <- <-].
      change (itemJob (started head)) with (itemJob head). rewrite lookup_alter_eq.
      destruct (jobs st !! itemJob head); simpl; [|discriminate].
      intros [= <-]. now left.
Qed.

(** The state when [processJob] has finished and the loop has not yet
    looked at the queue. *)
Definition finishedJob (job : WorkItem) (outcome : Result + string) (finishedAt writtenAt : Z)
    (st : State) : State :=
  let st1 := finishJob job outcome finishedAt writtenAt st in
  {| jobs := jobs st1; queues := queues st1; isProcessing := isProcessing st1;
     running := None; timers := timers st1; logs := logs st1 |}.

Lemma settle_unfold (outcome : Result + string) (finishedAt writtenAt now : Z) (st : State)
    (q : string) (job : WorkItem) :
  running st = Some (q, job) →
  settle outcome finishedAt writtenAt now st
    = drainNext q now (finishedJob job outcome finishedAt writtenAt st).
Proof. intros Hrun. unfold settle. rewrite Hrun. reflexivity. Qed.

(** What [processJob] writes when the processor has settled: a final status
    to the record of the job, or nothing while a retry timer is set. *)
Lemma finishedJob_cases (job : WorkItem) (outcome : Result + string) (finishedAt writtenAt : Z)
    (st : State) :
  let st1 := finishedJob job outcome finishedAt writtenAt st in
  videoQueue st1 = videoQueue st ∧ running st1 = None ∧
  isProcessing st1 = isProcessing st ∧
  ((∃ f, jobs st1 = alter f (itemJob job) (jobs st) ∧
         (∀ r, finished (status (f r))) ∧ timers st1 = timers st) ∨
   (jobs st1 = jobs st ∧
    ∃ t, timerJob t = itemJob job ∧ timers st1 = (timers st ++ [t])%list)).
Proof.
  intros st1. subst st1. unfold finishedJob, finishJob, videoQueue.
  destruct outcome as [result|msg]; [|destruct (attemptsRemain job)]; simpl.
  - repeat split; try reflexivity. left. eexists. split; [reflexivity|].
    split; [|reflexivity]. intros r. left. reflexivity.
  - repeat split; try reflexivity. right. split; [reflexivity|].
    eexists. split; [|reflexivity]. reflexivity.
  - repeat split; try reflexivity. left. eexists. split; [reflexivity|].
    split; [|reflexivity]. intros r. right. reflexivity.
Qed.

Lemma finishedJob_ok (job : WorkItem) (outcome : Result + string) (finishedAt writtenAt : Z)
    (st : State)
    (q : string) :
  Inv st →
  running st = Some (q, job) →
  Inv (finishedJob job outcome finishedAt writtenAt st) ∧
  isProcessing (finishedJob job outcome finishedAt writtenAt st) = true ∧
  (∀ j, j ∈ pendingIds (finishedJob job outcome finishedAt writtenAt st) →
        j ∈ pendingIds st) ∧
  (itemJob job ∈ pendingIds (finishedJob job outcome finishedAt writtenAt st) →
   jobs (finishedJob job outcome finishedAt writtenAt st) = jobs st).
Proof.
  intros HI Hrun.
  assert (isProcessing st = true) as Hbusy.
  { destruct (isProcessing st) eqn:Hb; [reflexivity|].
    rewrite (inv_idle st HI Hb) in Hrun. discriminate. }
  pose proof (inv_nodup st HI) as Hnd. rewrite (pendingIds_running st q job Hrun) in Hnd.
  apply NoDup_cons in Hnd as [Hj Hnd].
  destruct (finishedJob_cases job outcome finishedAt writtenAt st)
    as (Hq & Hnone & Hbusy' & [(f & Hjobs & Hfin & Htim)|(Hjobs & t & Ht & Htim)]).
  - assert (pendingIds (finishedJob job outcome finishedAt writtenAt st) =
            (map itemJob (videoQueue st) ++ map timerJob (timers st))%list) as Hpend.
    { rewrite (pendingIds_idle _ Hnone), Hq, Htim. reflexivity. }
    split; [|split; [congruence|split]].
    + constructor.
      * intros q' job'. rewrite Hnone. discriminate.
      * intros _. exact Hnone.
      * rewrite Hpend. exact Hnd.
      * intros j r. rewrite Hjobs, Hpend, lookup_alter. case_decide as Hjj.
        -- subst j. intros _ _. exact Hj.
        -- intros Hr Hf Hin. apply (inv_finished st HI j r Hr Hf).
           rewrite (pendingIds_running st q job Hrun). now right.
      * intros q' job' r. rewrite Hnone. discriminate.
    + intros j. rewrite Hpend, (pendingIds_running st q job Hrun).
      intros Hin. apply elem_of_cons. now right.
    + rewrite Hpend. intros Hin. contradiction.
  - assert (pendingIds (finishedJob job outcome finishedAt writtenAt st) ≡ₚ pendingIds st)
      as Hperm.
    { rewrite (pendingIds_idle _ Hnone), (pendingIds_running st q job Hrun), Hq, Htim.
      rewrite map_app. simpl. rewrite Ht, (assoc_L (++)).
      rewrite <- Permutation_cons_append. reflexivity. }
    split; [|split; [congruence|split]].
    + constructor.
      * intros q' job'. rewrite Hnone. discriminate.
      * intros _. exact Hnone.
      * rewrite Hperm. apply (inv_nodup st HI).
      * intros j r. rewrite Hjobs, Hperm. apply (inv_finished st HI).
      * intros q' job' r. rewrite Hnone. discriminate.
    + intros j. now rewrite Hperm.
    + intros _. exact Hjobs.
Qed.

Lemma keeps_one (st st' : State) (f : JobRecord -> JobRecord) (j : string) :
  jobs st' = alter f j (jobs st) →
  (∀ r, jobs st !! j = Some r → allowed (status r) (status (f r))) →
  keeps st st'.
Proof.
  intros Hjobs Hf j' r Hr. rewrite Hjobs, lookup_alter. case_decide as Hj.
  - subst j'. rewrite Hr. simpl. eexists. split; [reflexivity|]. auto.
  - exists r. split; [exact Hr|constructor].
Qed.

Lemma keeps_two (st st' : State) (f g : JobRecord -> JobRecord) (j h : string) :
  jobs st' = alter g h (alter f j (jobs st)) →
  h ≠ j →
  (∀ r, jobs st !! j = Some r → allowed (status r) (status (f r))) →
  (∀ r, jobs st !! h = Some r → allowed (status r) (status (g r))) →
  keeps st st'.
Proof.
  intros Hjobs Hne Hf Hg j' r Hr. rewrite Hjobs.
  destruct (decide (j' = h)) as [->|Hh]; [|destruct (decide (j' = j)) as [->|Hj]].
  - rewrite lookup_alter_eq, lookup_alter_ne, Hr by congruence. simpl.
    eexists. split; [reflexivity|]. auto.
  - rewrite lookup_alter_ne, lookup_alter_eq, Hr by congruence. simpl.
    eexists. split; [reflexivity|]. auto.
  - rewrite !lookup_alter_ne by congruence.
    exists r. split; [exact Hr|constructor].
Qed.

Lemma allowed_finish (s s' : Status) :
  s = processing ∨ s = cancelled → finished s' → allowed s s'.
Proof. intros [-> | ->] [-> | ->]; constructor. Qed.

Lemma allowed_restart (s : Status) :
  s = processing ∨ s = cancelled → allowed s processing.
Proof. intros [-> | ->]; constructor. Qed.

(** The processor's promise settles. *)
Lemma settle_ok (outcome : Result + string) (finishedAt writtenAt now : Z) (st : State) :
  Inv st →
  Inv (settle outcome finishedAt writtenAt now st)
  ∧ keeps st (settle outcome finishedAt writtenAt now st).
Proof.
  intros HI. destruct (running st) as [[q job]|] eqn:Hrun.
  - pose proof (inv_running_queue st HI q job Hrun) as ->.
    rewrite (settle_unfold outcome finishedAt writtenAt now st _ job Hrun).
    destruct (finishedJob_ok job outcome finishedAt writtenAt st _ HI Hrun)
      as (HI1 & Hbusy1 & Hsub & Hback).
    destruct (finishedJob_cases job outcome finishedAt writtenAt st)
      as (_ & Hnone1 & _ & Hcases).
    destruct (drainNext_ok now _ HI1 Hnone1 Hbusy1) as (HI' & Hjobs').
    split; [exact HI'|].
    assert (∀ r, jobs st !! itemJob job = Some r →
                 status r = processing ∨ status r = cancelled) as Hstatus
        by (intros r; apply (inv_running_status st HI _ job r Hrun)).
    assert (∀ h r, h ∈ pendingIds st → jobs st !! h = Some r →
                   allowed (status r) (status (markProcessing now r))) as Hstart.
    { intros h r Hin Hr. simpl. apply not_finished_allowed_start.
      intros Hfin. exact (inv_finished st HI h r Hr Hfin Hin). }
    destruct Hjobs' as [Hjobs'|(head & Hhead & Hjobs')].
    + destruct Hcases as [(f & Hjobs1 & Hfin & _)|(Hjobs1 & _)].
      * apply (keeps_one st _ f (itemJob job)); [congruence|].
        intros r Hr. apply allowed_finish; auto.
      * apply keeps_refl. congruence.
    + destruct (decide (itemJob head = itemJob job)) as [Heq|Hne].
      * rewrite Heq in Hhead, Hjobs'. rewrite (Hback Hhead) in Hjobs'.
        apply (keeps_one st _ (markProcessing now) (itemJob job)); [exact Hjobs'|].
        intros r Hr. simpl. apply allowed_restart. auto.
      * destruct Hcases as [(f & Hjobs1 & Hfin & _)|(Hjobs1 & _)].
        -- apply (keeps_two st _ f (markProcessing now) (itemJob job) (itemJob head));
             [congruence|exact Hne| |].
           ++ intros r Hr. apply allowed_finish; auto.
           ++ intros r Hr. apply (Hstart (itemJob head)); auto.
        -- apply (keeps_one st _ (markProcessing now) (itemJob head)); [congruence|].
           intros r Hr. apply (Hstart (itemJob head)); auto.
  - unfold settle. rewrite Hrun. split; [exact HI|now apply keeps_refl].
Qed.

(** A progress callback. *)
Lemma onProgress_ok (j : string) (p : Q) (msg : string) (now : Z) (st : State) :
  Inv st → Inv (onProgress j p msg now st) ∧ keeps st (onProgress j p msg now st).
Proof.
  intros HI. unfold onProgress.
  split.
  - constructor; simpl.
    + apply (inv_running_queue st HI).
    + apply (inv_idle st HI).
    + apply (inv_nodup st HI).
    + intros h r. rewrite lookup_alter. case_decide as Hj.
      * destruct (jobs st !! j) as [r0|] eqn:Hr0; simpl; [|discriminate].
        intros [= <-]. simpl. subst h. apply (inv_finished st HI _ r0 Hr0).
      * apply (inv_finished st HI).
    + intros q job r Hrun. rewrite lookup_alter. case_decide as Hj.
      * destruct (jobs st !! j) as [r0|] eqn:Hr0; simpl; [|discriminate].
        intros [= <-]. simpl. rewrite Hj in Hr0.
        apply (inv_running_status st HI q job r0 Hrun Hr0).
      * apply (inv_running_status st HI q job r Hrun).
  - apply (keeps_one st _ (reportProgress p msg now) j); [reflexivity|].
    intros r _. constructor.
Qed.

(** A retry timer fires. *)
Lemma fireTimer_ok (i : nat) (now : Z) (st : State) :
  Inv st → Inv (fireTimer i now st) ∧ keeps st (fireTimer i now st).
Proof.
  intros HI. unfold fireTimer. destruct (timers st !! i) as [t|] eqn:Ht;
    [|split; [exact HI|now apply keeps_refl]].
  set (st0 := {| jobs := jobs st; queues := queues st; isProcessing := isProcessing st;
                 running := running st; timers := delete i (timers st); logs := logs st |}).
  assert (pendingIds st ≡ₚ timerJob t :: pendingIds st0) as Hperm.
  { rewrite !pendingIds_eq. subst st0. unfold videoQueue, runningIds. simpl.
    rewrite (delete_Permutation (timers st) i t Ht) at 1. simpl.
    rewrite (assoc_L (++)). etrans; [symmetry; apply Permutation_middle|].
    rewrite <- (assoc_L (++)). reflexivity. }
  pose proof (inv_nodup st HI) as Hnd. rewrite Hperm in Hnd.
  apply NoDup_cons in Hnd as [Hfresh Hnd].
  assert (Inv st0) as HI0.
  { constructor.
    - apply (inv_running_queue st HI).
    - apply (inv_idle st HI).
    - exact Hnd.
    - intros j r Hr Hfin Hin. apply (inv_finished st HI j r Hr Hfin).
      rewrite Hperm. apply elem_of_cons. now right.
    - apply (inv_running_status st HI). }
  apply (add_ok (timerData t) (timerOptions t) now st0 HI0 Hfresh).
  intros r Hr Hfin. apply (inv_finished st HI (timerJob t) r Hr Hfin).
  rewrite Hperm. apply elem_of_cons. now left.
Qed.

(** A submission. *)
Lemma postDownload_ok (errorsEmpty : bool) (body : DownloadBody) (newId ip : string)
    (now : Z) (st : State) :
  Inv st →
  jobs st !! newId = None →
  newId ∉ pendingIds st →
  Inv (postDownload errorsEmpty body newId ip now st).2 ∧
  keeps st (postDownload errorsEmpty body newId ip now st).2.
Proof.
  intros HI Hnew Hfresh. unfold postDownload.
  destruct errorsEmpty; [|split; [exact HI|now apply keeps_refl]].
  cbn [snd].
  match goal with
  | |- Inv (add _ _ _ _ ?s) ∧ _ => set (st1 := s)
  end.
  assert (Inv st1) as HI1.
  { constructor.
    - apply (inv_running_queue st HI).
    - apply (inv_idle st HI).
    - apply (inv_nodup st HI).
    - intros j r. subst st1. cbn [jobs]. rewrite lookup_insert. case_decide as Hj.
      + intros [= <-] [Hfin|Hfin]; discriminate Hfin.
      + apply (inv_finished st HI).
    - intros q job r Hrun. subst st1. cbn [running] in Hrun. cbn [jobs].
      rewrite lookup_insert_ne.
      + apply (inv_running_status st HI q job r Hrun).
      + intros Heq. apply Hfresh. rewrite Heq.
        rewrite (pendingIds_running st q job Hrun). apply elem_of_cons. now left. }
  destruct (add_ok (jobDataOf body newId) downloadOptions now st1 HI1) as [HI' Hkeeps].
  - exact Hfresh.
  - intros r. subst st1. cbn [jobs jobDataOf jobId]. rewrite lookup_insert_eq.
    intros [= <-] [Hfin|Hfin]; discriminate Hfin.
  - split; [exact HI'|]. intros j r Hr. apply Hkeeps.
    subst st1. cbn [jobs]. rewrite lookup_insert_ne; [exact Hr|].
    intros <-. congruence.
Qed.

(** A cancel/delete request: the record is cancelled or leaves the store. *)
Lemma deleteJob_ok (j : string) (now : Z) (st : State) :
  Inv st →
  Inv (deleteJob j now st).2 ∧
  ∀ j' r, jobs st !! j' = Some r →
    match jobs (deleteJob j now st).2 !! j' with
    | Some r' => allowed (status r) (status r')
    | None => j' = j ∧ status r ≠ queued ∧ status r ≠ processing
    end.
Proof.
  intros HI. unfold deleteJob. destruct (jobs st !! j) as [job|] eqn:Hjob; cbn [snd].
  - split.
    + constructor; cbn [jobs running isProcessing].
      * apply (inv_running_queue st HI).
      * apply (inv_idle st HI).
      * apply (inv_nodup st HI).
      * intros j' r Hr Hfin.
        assert (jobs st !! j' = Some r) as Hold.
        { destruct (status job); revert Hr;
            rewrite ?lookup_insert, ?lookup_delete; case_decide; try discriminate; auto;
            intros [= <-]; destruct Hfin as [Hfin|Hfin]; discriminate Hfin. }
        apply (inv_finished st HI j' r Hold Hfin).
      * intros q item r Hrun Hr.
        destruct (decide (j = itemJob item)) as [->|Hne].
        -- pose proof (inv_running_status st HI q item job Hrun Hjob) as Hst.
           destruct Hst as [Hst|Hst]; rewrite Hst in Hr.
           ++ rewrite lookup_insert_eq in Hr. injection Hr as <-. now right.
           ++ rewrite lookup_delete_eq in Hr. discriminate.
        -- apply (inv_running_status st HI q item r Hrun).
           destruct (status job); revert Hr;
             rewrite ?lookup_insert_ne, ?lookup_delete_ne by exact Hne; auto.
    + intros j' r Hr. cbn [jobs].
      destruct (decide (j = j')) as [<-|Hne].
      * rewrite Hjob in Hr. injection Hr as ->.
        destruct (status r) eqn:Hst;
          rewrite ?lookup_insert_eq, ?lookup_delete_eq; simpl;
          try constructor; try (repeat split; congruence).
      * destruct (status job);
          rewrite ?lookup_insert_ne, ?lookup_delete_ne, Hr by exact Hne; constructor.
  - split; [exact HI|]. intros j' r Hr. rewrite Hr. constructor.
Qed.

(** The hourly sweep of the store: a record stays as it is or leaves. *)
Lemma store_cleanup_ok (now : Z) (st : State) :
  Inv st →
  Inv (cleanup now st) ∧
  ∀ j r, jobs st !! j = Some r →
    match jobs (cleanup now st) !! j with
    | Some r' => r' = r
    | None => finished (status r)
    end.
Proof.
  intros HI. unfold cleanup. split.
  - constructor; cbn [jobs running isProcessing].
    + apply (inv_running_queue st HI).
    + apply (inv_idle st HI).
    + apply (inv_nodup st HI).
    + intros j r Hr. apply map_lookup_filter_Some in Hr as [Hr _].
      apply (inv_finished st HI j r Hr).
    + intros q job r Hrun Hr. apply map_lookup_filter_Some in Hr as [Hr _].
      apply (inv_running_status st HI q job r Hrun Hr).
  - intros j r Hr. cbn [jobs].
    destruct (filter _ (jobs st) !! j) as [r'|] eqn:Hf.
    + apply map_lookup_filter_Some in Hf as [Hf _]. congruence.
    + destruct (expired now r) eqn:Hexp.
      * unfold expired in Hexp. apply andb_true_iff in Hexp as [_ Hst].
        unfold finished. destruct (status r); try discriminate; auto.
      * assert (filter (λ kv : string * JobRecord, expired now kv.2 = false) (jobs st) !! j
                = Some r) as Hsome
            by (apply map_lookup_filter_Some; split; [exact Hr|exact Hexp]).
        congruence.
Qed.

(** Every step keeps the invariant. *)
Lemma next_Inv (e : Event) (st : State) :
  Inv st → enabled e st → Inv (next e st).
Proof.
  intros HI He. destruct e; simpl.
  - destruct He as [Hnew Hfresh]. now apply postDownload_ok.
  - now apply onProgress_ok.
  - now apply settle_ok.
  - now apply fireTimer_ok.
  - now apply deleteJob_ok.
  - now apply store_cleanup_ok.
Qed.

Lemma initial_Inv : Inv initial.
Proof.
  constructor; simpl; try discriminate; auto.
  all: try (intros j r Hr; rewrite lookup_empty in Hr; discriminate).
  all: unfold pendingIds, videoQueue; simpl; constructor.
Qed.

Lemma reachable_Inv (st : State) : reachable st → Inv st.
Proof.
  induction 1 as [|st e Hreach IH He]; [exact initial_Inv|now apply next_Inv].
Qed.

(** *** Status transitions *)


Definition tiktokBody : DownloadBody :=
  {| b_url := "https://www.tiktok.com/@user/video/123456";
     b_quality := None; b_removeWatermark := None; b_format := None |}.

(** A job is submitted to the idle system, so that its processing starts at
    once, and is then cancelled while the processor runs. *)
Definition submitted : State :=
  next (Submit true tiktokBody "job-1" "10.0.0.1" 1000) initial.

Definition cancelledInFlight : State := next (Delete "job-1" 1500) submitted.

Definition someResult : Result :=
  mkResult true "temp/downloads/job-1.mp4" 4096 "/downloads/job-1.mp4".

Lemma submitted_reachable : reachable submitted.
Proof.
  apply reachable_next; [apply reachable_initial|].
  split; [reflexivity|]. apply not_elem_of_nil.
Qed.

Lemma cancelledInFlight_reachable : reachable cancelledInFlight.
Proof. apply reachable_next; [apply submitted_reachable|exact I]. Qed.





(** *** Retries *)

(** The attempt numbers the log shows for a job, and the delays of the
    retries it announces. *)
Definition attemptsLogged (j : string) (l : list LogEntry) : list Z :=
  omap (fun e => match e with
                 | LogProcessing j' a => if String.eqb j' j then Some a else None
                 | _ => None
                 end) l.

Definition delaysLogged (j : string) (l : list LogEntry) : list Z :=
  omap (fun e => match e with
                 | LogRetrying j' d => if String.eqb j' j then Some d else None
                 | _ => None
                 end) l.

(** One round of a job whose processing always fails: the processor
    rejects with [msg] at [failedAt], and the retry timer fires at
    [firedAt]. *)
Definition failingRound (round : string * Z * Z) : list Event :=
  let '(msg, failedAt, firedAt) := round in
  [Settle (inr msg) failedAt failedAt failedAt; Fire 0 firedAt].

Definition alwaysFailing (rounds : list (string * Z * Z)) : list Event :=
  concat (map failingRound rounds).

(** The job [j] is in flight on its own, on an item made by the route. *)
Definition inFlightAlone (j : string) (st : State) : Prop :=
  ∃ job r,
    running st = Some ("processVideo", job) ∧
    itemJob job = j ∧ attempt job = 1 ∧ options job = mergeOptions downloadOptions ∧
    queues st !! "processVideo" = Some [] ∧ timers st = [] ∧
    jobs st !! j = Some r ∧ status r = processing.

Lemma mergeOptions_idem (o : QueueOptions) : mergeOptions (mergeOptions o) = mergeOptions o.
Proof. reflexivity. Qed.

(** The failure of an item that has attempts left, on an empty queue: a
    timer is set and the drain ends. *)
Lemma settle_failure_retry (st : State) (job : WorkItem) (msg : string)
    (finishedAt writtenAt now : Z) :
  running st = Some ("processVideo", job) →
  attemptsRemain job = true →
  queues st !! "processVideo" = Some [] →
  settle (inr msg) finishedAt writtenAt now st =
    {| jobs := jobs st; queues := queues st; isProcessing := false; running := None;
       timers := (timers st ++
                  [{| timerDelay := baseDelay (options job) * 2 ^ (attempt job - 1);
                      timerData := data job; timerOptions := options job |}])%list;
       logs := (logs st ++
                [LogJobFailed (itemJob job) (attempt job) msg;
                 LogRetrying (itemJob job)
                             (baseDelay (options job) * 2 ^ (attempt job - 1))])%list |}.
Proof.
  intros Hrun Hrem Hq. unfold settle. rewrite Hrun. unfold finishJob. rewrite Hrem.
  unfold drainNext. cbn [queues]. rewrite Hq. reflexivity.
Qed.

(** [add] on the idle system with an empty queue: the new item, whose
    attempt counter starts at 0, is started at once. *)
Lemma add_on_idle (st : State) (d : JobData) (o : QueueOptions) (now : Z) :
  isProcessing st = false →
  default [] (queues st !! "processVideo") = [] →
  add "processVideo" d o now st =
    {| jobs := alter (markProcessing now) (jobId d) (jobs st);
       queues := <["processVideo" := []]>
                   (<["processVideo" := [newItem d o now]]> (queues st));
       isProcessing := true;
       running := Some ("processVideo", started (newItem d o now));
       timers := timers st;
       logs := (logs st ++
                [LogAdded (itemId (newItem d o now)) "processVideo";
                 LogProcessing (jobId d) 1])%list |}.
Proof.
  intros Hidle Hq. unfold add. cbn [isProcessing queues]. rewrite Hidle, Hq. simpl.
  unfold processQueue. cbn [isProcessing queues]. rewrite lookup_insert_eq.
  unfold drainNext. cbn [queues]. rewrite lookup_insert_eq. simpl.
  unfold startJob. simpl.
  rewrite <- (assoc_L (++)). reflexivity.
Qed.

Lemma failingRound_step (j : string) (st : State) (msg : string) (failedAt firedAt : Z) :
  inFlightAlone j st →
  let st' := run (failingRound (msg, failedAt, firedAt)) st in
  inFlightAlone j st' ∧
  attemptsLogged j (logs st') = (attemptsLogged j (logs st) ++ [1])%list ∧
  delaysLogged j (logs st') = (delaysLogged j (logs st) ++ [5000])%list.
Proof.
  intros (job & r & Hrun & Hj & Hattempt & Hopts & Hq & Htim & Hr & Hstatus) st'.
  subst st'. unfold run, failingRound, fold_left, next.
  assert (attemptsRemain job = true) as Hrem
      by (unfold attemptsRemain; rewrite Hopts, Hattempt; reflexivity).
  rewrite (settle_failure_retry st job msg failedAt failedAt failedAt Hrun Hrem Hq).
  rewrite Htim, Hopts, Hattempt, Hj. cbn [app].
  change (baseDelay (mergeOptions downloadOptions) * 2 ^ (1 - 1)) with 5000.
  unfold fireTimer. cbn [timers lookup list_lookup].
  rewrite add_on_idle; [|reflexivity|cbn [queues]; rewrite Hq; reflexivity].
  cbn [jobs queues timers logs timerData timerOptions delete list_delete].
  fold (itemJob job). rewrite Hj. split; [|split].
  - eexists _, (markProcessing firedAt r). cbn [running jobs queues timers].
    split; [reflexivity|]. unfold itemJob, started, newItem. cbn [data attempt options].
    split; [exact Hj|]. split; [reflexivity|]. split; [reflexivity|].
    split; [apply lookup_insert_eq|]. split; [reflexivity|].
    split; [|reflexivity]. rewrite lookup_alter_eq, Hr. reflexivity.
  - unfold attemptsLogged. rewrite <- !(assoc_L (++)), omap_app. f_equal.
    simpl. rewrite String.eqb_refl. reflexivity.
  - unfold delaysLogged. rewrite <- !(assoc_L (++)), omap_app. f_equal.
    simpl. rewrite String.eqb_refl. reflexivity.
Qed.

Lemma run_app (es1 es2 : list Event) (st : State) :
  run (es1 ++ es2) st = run es2 (run es1 st).
Proof. unfold run. apply fold_left_app. Qed.

Lemma alwaysFailing_rounds (j : string) (rounds : list (string * Z * Z)) (st : State) :
  inFlightAlone j st →
  let st' := run (alwaysFailing rounds) st in
  inFlightAlone j st' ∧
  attemptsLogged j (logs st') =
    (attemptsLogged j (logs st) ++ replicate (length rounds) 1)%list ∧
  delaysLogged j (logs st') =
    (delaysLogged j (logs st) ++ replicate (length rounds) 5000)%list.
Proof.
  revert st. induction rounds as [|[[msg failedAt] firedAt] rounds IH]; intros st Hst.
  - simpl. rewrite !List.app_nil_r. auto.
  - intros st'. subst st'.
    change (alwaysFailing ((msg, failedAt, firedAt) :: rounds))
      with (failingRound (msg, failedAt, firedAt) ++ alwaysFailing rounds)%list.
    rewrite run_app.
    destruct (failingRound_step j st msg failedAt firedAt Hst) as (Hst1 & Ha1 & Hd1).
    destruct (IH _ Hst1) as (Hst' & Ha & Hd).
    split; [exact Hst'|].
    rewrite Ha, Hd, Ha1, Hd1, <- !(assoc_L (++)). auto.
Qed.

Lemma submitted_inFlightAlone (body : DownloadBody) (newId ip : string) (now : Z) :
  let st := next (Submit true body newId ip now) initial in
  inFlightAlone newId st ∧
  attemptsLogged newId (logs st) = [1] ∧ delaysLogged newId (logs st) = [].
Proof.
  intros st. subst st. unfold next, postDownload. cbn [snd].
  rewrite add_on_idle; [|reflexivity|reflexivity].
  cbn [jobs queues timers logs initial jobDataOf jobId app].
  split; [|split].
  - eexists _, _. cbn [running jobs queues timers].
    unfold itemJob, started, newItem. cbn [data jobId attempt options].
    split; [reflexivity|]. split; [reflexivity|]. split; [reflexivity|].
    split; [reflexivity|]. split; [apply lookup_insert_eq|]. split; [reflexivity|].
    split; [rewrite lookup_alter_eq, lookup_insert_eq; reflexivity|reflexivity].
  - simpl. rewrite String.eqb_refl. reflexivity.
  - reflexivity.
Qed.

(** C1, on the code. A job submitted to the idle system whose processing
    fails every time is attempted again after every failure, without end:
    after any number of rounds the log shows one attempt more than there
    were rounds, each numbered 1 because [add] makes the new item with
    [attempt: 0]; every announced delay is the base delay of 5000 ms; and
    the job is in flight again with status [processing], never [failed]. *)
Theorem retry_restarts_attempt_counter
    (body : DownloadBody) (newId ip : string) (now : Z) (rounds : list (string * Z * Z)) :
  let st := run (alwaysFailing rounds) (next (Submit true body newId ip now) initial) in
  attemptsLogged newId (logs st) = replicate (S (length rounds)) 1 ∧
  delaysLogged newId (logs st) = replicate (length rounds) 5000 ∧
  (∃ r, jobs st !! newId = Some r ∧ status r = processing) ∧
  (∃ job, running st = Some ("processVideo", job) ∧
          itemJob job = newId ∧ attempt job = 1 ∧ attemptsRemain job = true).
Proof.
  intros st. subst st.
  destruct (submitted_inFlightAlone body newId ip now) as (H0 & Ha0 & Hd0).
  destruct (alwaysFailing_rounds newId rounds _ H0) as (Hst & Ha & Hd).
  rewrite Ha, Hd, Ha0, Hd0. split; [reflexivity|]. split; [reflexivity|].
  destruct Hst as (job & r & Hrun & Hj & Hattempt & Hopts & _ & _ & Hr & Hstatus).
  split; [eauto|]. exists job. repeat split; auto.
  unfold attemptsRemain. rewrite Hopts, Hattempt. reflexivity.
Qed.

(** Three failures of a job configured with three attempts: a fourth
    attempt is under way, both retries and the third were announced with
    the same delay, and the job has not failed. *)
Example three_failures_fourth_attempt :
  let st := run (alwaysFailing [("boom", 2000, 7000); ("boom", 8000, 13000);
                                ("boom", 14000, 19000)]) submitted in
  attemptsLogged "job-1" (logs st) = [1; 1; 1; 1] ∧
  delaysLogged "job-1" (logs st) = [5000; 5000; 5000] ∧
  status <$> jobs st !! "job-1" = Some processing.
Proof. vm_compute. auto. Qed.

(** *** Defaults of a submission *)

Lemma markProcessing_fields (now : Z) (r : JobRecord) :
  quality (markProcessing now r) = quality r ∧
  removeWatermark (markProcessing now r) = removeWatermark r ∧
  format (markProcessing now r) = format r.
Proof. auto. Qed.



(** *** The shape of the work the routes create *)

(** The options of every work item: those of [POST /download], merged by
    [add]. *)
Definition standardOptions : QueueOptions := mergeOptions downloadOptions.

Definition freshItem (job : WorkItem) : Prop :=
  itemStatus job = waiting ∧ attempt job = 0 ∧ options job = standardOptions.

Definition retryTimer (t : Timer) : Prop :=
  timerOptions t = standardOptions ∧ timerDelay t = 5000.

(** What holds, besides [Inv], in every reachable state. *)
Record Shape (st : State) : Prop := mkShape {
  shape_queue : Forall freshItem (videoQueue st);
  shape_running : ∀ q job, running st = Some (q, job) →
    itemStatus job = itemProcessing ∧ attempt job = 1 ∧ options job = standardOptions;
  shape_timers : Forall retryTimer (timers st);
  shape_busy : isProcessing st = true → is_Some (running st);
  shape_idle : isProcessing st = false → videoQueue st = [];
  shape_not_failed : ∀ j r, jobs st !! j = Some r → status r ≠ failed
}.

Lemma not_failed_alter (f : JobRecord → JobRecord) (j : string) (m : gmap string JobRecord) :
  (∀ r, status (f r) ≠ failed) →
  (∀ j' r, m !! j' = Some r → status r ≠ failed) →
  ∀ j' r, alter f j m !! j' = Some r → status r ≠ failed.
Proof.
  intros Hf Hm j' r. rewrite lookup_alter. case_decide as Hj.
  - destruct (m !! j) as [r0|]; simpl; [|discriminate]. intros [= <-]. apply Hf.
  - apply Hm.
Qed.

Lemma started_shape (job : WorkItem) :
  freshItem job →
  itemStatus (started job) = itemProcessing ∧ attempt (started job) = 1 ∧
  options (started job) = standardOptions.
Proof. intros (_ & Ha & Ho). unfold started. simpl. rewrite Ha. auto. Qed.

(** The loop of [processQueue] going on to the next item. *)
Lemma drainNext_Shape (now : Z) (st : State) :
  Forall freshItem (videoQueue st) →
  Forall retryTimer (timers st) →
  (∀ j r, jobs st !! j = Some r → status r ≠ failed) →
  running st = None →
  isProcessing st = true →
  Shape (drainNext "processVideo" now st).
Proof.
  intros Hq Ht Hnf Hnone Hbusy.
  destruct (drainNext_cases now st)
    as [(Hq0 & Hjobs & Hq' & Hrun & Htim & Hbusy')
       |(head & rest & Hq0 & Hjobs & Hq' & Hrun & Htim & Hbusy')].
  - constructor.
    + rewrite Hq'. constructor.
    + intros q job. rewrite Hrun, Hnone. discriminate.
    + now rewrite Htim.
    + rewrite Hbusy'. discriminate.
    + intros _. exact Hq'.
    + now rewrite Hjobs.
  - rewrite Hq0 in Hq. apply Forall_cons in Hq as [Hhead Hrest]. constructor.
    + now rewrite Hq'.
    + intros q job. rewrite Hrun. intros [= <- <-]. now apply started_shape.
    + now rewrite Htim.
    + intros _. rewrite Hrun. eauto.
    + rewrite Hbusy', Hbusy. discriminate.
    + rewrite Hjobs. now apply not_failed_alter.
Qed.

Lemma newItem_fresh (d : JobData) (o : QueueOptions) (now : Z) :
  mergeOptions o = standardOptions → freshItem (newItem d o now).
Proof. intros Ho. unfold freshItem, newItem. simpl. auto. Qed.

Lemma add_Shape (d : JobData) (o : QueueOptions) (now : Z) (st : State) :
  Shape st →
  mergeOptions o = standardOptions →
  Shape (add "processVideo" d o now st).
Proof.
  intros HS Ho. pose proof (newItem_fresh d o now Ho) as Hnew.
  destruct (add_cases d o now st)
    as [(Hbusy & Hjobs & Hq & Hrun & Htim & Hbusy')
       |(Hidle & head & rest & Hq & Hjobs & Hq' & Hrun & Htim & Hbusy')].
  - constructor.
    + rewrite Hq. apply Forall_app. split; [apply (shape_queue st HS)|].
      now apply Forall_singleton.
    + intros q job. rewrite Hrun. apply (shape_running st HS).
    + rewrite Htim. apply (shape_timers st HS).
    + intros _. rewrite Hrun. now apply (shape_busy st HS).
    + rewrite Hbusy'. discriminate.
    + rewrite Hjobs. apply (shape_not_failed st HS).
  - rewrite (shape_idle st HS Hidle) in Hq. injection Hq as <- <-. constructor.
    + rewrite Hq'. constructor.
    + intros q job. rewrite Hrun. intros [= <- <-]. now apply started_shape.
    + rewrite Htim. apply (shape_timers st HS).
    + intros _. rewrite Hrun. eauto.
    + rewrite Hbusy'. discriminate.
    + rewrite Hjobs. apply not_failed_alter; [discriminate|apply (shape_not_failed st HS)].
Qed.

(** With the options of the routes an item in flight always has a retry
    left: its failure sets a timer of 5000 ms and writes nothing to the
    store. *)
Lemma finishedJob_standard (job : WorkItem) (outcome : Result + string)
    (finishedAt writtenAt : Z)
    (st : State) :
  attempt job = 1 → options job = standardOptions →
  videoQueue (finishedJob job outcome finishedAt writtenAt st) = videoQueue st ∧
  running (finishedJob job outcome finishedAt writtenAt st) = None ∧
  isProcessing (finishedJob job outcome finishedAt writtenAt st) = isProcessing st ∧
  ((∃ result, outcome = inl result ∧
      jobs (finishedJob job outcome finishedAt writtenAt st)
        = alter (markCompleted result finishedAt writtenAt) (itemJob job) (jobs st) ∧
      timers (finishedJob job outcome finishedAt writtenAt st) = timers st) ∨
   (∃ msg, outcome = inr msg ∧
      jobs (finishedJob job outcome finishedAt writtenAt st) = jobs st ∧
      timers (finishedJob job outcome finishedAt writtenAt st)
        = (timers st ++ [{| timerDelay := 5000; timerData := data job;
                            timerOptions := standardOptions |}])%list)).
Proof.
  intros Ha Ho. unfold finishedJob, finishJob, attemptsRemain, videoQueue.
  rewrite Ha, Ho. destruct outcome as [result|msg]; simpl.
  - repeat split. left. exists result. auto.
  - repeat split. right. exists msg. auto.
Qed.

Lemma settle_Shape (outcome : Result + string) (finishedAt writtenAt now : Z) (st : State) :
  Inv st → Shape st → Shape (settle outcome finishedAt writtenAt now st).
Proof.
  intros HI HS. destruct (running st) as [[q job]|] eqn:Hrun;
    [|unfold settle; now rewrite Hrun].
  pose proof (inv_running_queue st HI q job Hrun) as ->.
  rewrite (settle_unfold outcome finishedAt writtenAt now st _ job Hrun).
  destruct (shape_running st HS _ job Hrun) as (_ & Ha & Ho).
  assert (isProcessing st = true) as Hbusy.
  { destruct (isProcessing st) eqn:Hb; [reflexivity|].
    rewrite (inv_idle st HI Hb) in Hrun. discriminate. }
  destruct (finishedJob_standard job outcome finishedAt writtenAt st Ha Ho)
    as (Hq & Hnone & Hbusy' & Hcases).
  apply drainNext_Shape.
  - rewrite Hq. apply (shape_queue st HS).
  - destruct Hcases as [(result & _ & _ & ->)|(msg & _ & _ & ->)].
    + apply (shape_timers st HS).
    + apply Forall_app. split; [apply (shape_timers st HS)|].
      apply Forall_singleton. split; reflexivity.
  - destruct Hcases as [(result & _ & -> & _)|(msg & _ & -> & _)].
    + apply not_failed_alter; [discriminate|apply (shape_not_failed st HS)].
    + apply (shape_not_failed st HS).
  - exact Hnone.
  - congruence.
Qed.

Lemma fireTimer_Shape (i : nat) (now : Z) (st : State) :
  Shape st → Shape (fireTimer i now st).
Proof.
  intros HS. unfold fireTimer. destruct (timers st !! i) as [t|] eqn:Ht; [|exact HS].
  pose proof (shape_timers st HS) as Htimers.
  apply add_Shape.
  - constructor; cbn [jobs running isProcessing timers].
    + apply (shape_queue st HS).
    + apply (shape_running st HS).
    + now apply Forall_delete.
    + apply (shape_busy st HS).
    + apply (shape_idle st HS).
    + apply (shape_not_failed st HS).
  - rewrite Forall_lookup in Htimers. destruct (Htimers i t Ht) as [-> _]. reflexivity.
Qed.

Lemma postDownload_Shape (errorsEmpty : bool) (body : DownloadBody) (newId ip : string)
    (now : Z) (st : State) :
  Shape st → Shape (postDownload errorsEmpty body newId ip now st).2.
Proof.
  intros HS. unfold postDownload. destruct errorsEmpty; [|exact HS]. cbn [snd].
  apply add_Shape; [|reflexivity].
  constructor; cbn [jobs running isProcessing timers].
  - apply (shape_queue st HS).
  - apply (shape_running st HS).
  - apply (shape_timers st HS).
  - apply (shape_busy st HS).
  - apply (shape_idle st HS).
  - intros j r. rewrite lookup_insert. case_decide.
    + intros [= <-]. discriminate.
    + apply (shape_not_failed st HS).
Qed.

Lemma onProgress_Shape (j : string) (p : Q) (msg : string) (now : Z) (st : State) :
  Shape st → Shape (onProgress j p msg now st).
Proof.
  intros HS. unfold onProgress.
  constructor; cbn [jobs running isProcessing timers].
  - apply (shape_queue st HS).
  - apply (shape_running st HS).
  - apply (shape_timers st HS).
  - apply (shape_busy st HS).
  - apply (shape_idle st HS).
  - intros h r. rewrite lookup_alter. case_decide.
    + destruct (jobs st !! j) as [r0|] eqn:Hr0; simpl; [|discriminate].
      intros [= <-]. simpl. apply (shape_not_failed st HS _ r0 Hr0).
    + apply (shape_not_failed st HS).
Qed.

Lemma deleteJob_Shape (j : string) (now : Z) (st : State) :
  Shape st → Shape (deleteJob j now st).2.
Proof.
  intros HS. unfold deleteJob. destruct (jobs st !! j) as [job|] eqn:Hjob; [|exact HS].
  cbn [snd]. constructor; cbn [jobs running isProcessing timers].
  - apply (shape_queue st HS).
  - apply (shape_running st HS).
  - apply (shape_timers st HS).
  - apply (shape_busy st HS).
  - apply (shape_idle st HS).
  - intros j' r.
    destruct (status job); rewrite ?lookup_insert, ?lookup_delete; case_decide;
      try discriminate; try apply (shape_not_failed st HS);
      intros [= <-]; discriminate.
Qed.

Lemma cleanup_Shape (now : Z) (st : State) : Shape st → Shape (cleanup now st).
Proof.
  intros HS. constructor; cbn [cleanup jobs running isProcessing timers].
  - apply (shape_queue st HS).
  - apply (shape_running st HS).
  - apply (shape_timers st HS).
  - apply (shape_busy st HS).
  - apply (shape_idle st HS).
  - intros j r Hr. apply map_lookup_filter_Some in Hr as [Hr _].
    apply (shape_not_failed st HS j r Hr).
Qed.

Lemma next_Shape (e : Event) (st : State) : Inv st → Shape st → Shape (next e st).
Proof.
  intros HI HS. destruct e; cbn [next].
  - now apply postDownload_Shape.
  - now apply onProgress_Shape.
  - now apply settle_Shape.
  - now apply fireTimer_Shape.
  - now apply deleteJob_Shape.
  - now apply cleanup_Shape.
Qed.

Lemma initial_Shape : Shape initial.
Proof.
  constructor; unfold initial, videoQueue; simpl.
  - rewrite lookup_empty. constructor.
  - discriminate.
  - constructor.
  - discriminate.
  - intros _. now rewrite lookup_empty.
  - intros j r. rewrite lookup_empty. discriminate.
Qed.

Lemma reachable_Shape (st : State) : reachable st → Shape st.
Proof.
  induction 1 as [|st e Hreach IH He]; [apply initial_Shape|].
  apply next_Shape; [now apply reachable_Inv|exact IH].
Qed.

(** X14. No job is ever marked failed.  A work item made by [add] starts at
    attempt 0 with the three attempts of the route, so every failure of the
    processor finds a retry left, and the branch that writes [failed] is
    never taken: in every reachable state no record of the store has the
    status [failed], the item in flight is at its attempt 1, and every
    pending retry timer has the delay 5000 ms. *)
Theorem no_job_is_ever_failed (st : State) :
  reachable st →
  (∀ j r, jobs st !! j = Some r → status r ≠ failed) ∧
  (∀ q job, running st = Some (q, job) → attempt job = 1) ∧
  Forall (λ t, timerDelay t = 5000) (timers st).
Proof.
  intros Hreach. pose proof (reachable_Shape st Hreach) as HS.
  split; [apply (shape_not_failed st HS)|]. split.
  - intros q job Hrun. now destruct (shape_running st HS q job Hrun) as (_ & Ha & _).
  - eapply Forall_impl; [apply (shape_timers st HS)|]. now intros t [_ Ht].
Qed.

Lemma filter_all {A} (f : A → bool) (l : list A) :
  Forall (λ x, f x = true) l → List.filter f l = l.
Proof.
  induction 1 as [|x l Hx _ IH]; simpl; [reflexivity|]. now rewrite Hx, IH.
Qed.

Lemma filter_none {A} (f : A → bool) (l : list A) :
  Forall (λ x, f x = false) l → List.filter f l = [].
Proof.
  induction 1 as [|x l Hx _ IH]; simpl; [reflexivity|]. now rewrite Hx, IH.
Qed.

(** X15. The statistics of the queue never show a job as processing: the item
    in flight has been taken out of the queue, so in every reachable state
    [processing] is [0] and [waiting] equals [total], also while a job is
    being processed; and [total] is [0] whenever [isProcessing] is
    [false]. *)
Theorem getStats_never_counts_job_in_flight (st : State) :
  reachable st →
  processingCount (getStats "processVideo" st) = 0%nat ∧
  waitingCount (getStats "processVideo" st) = total (getStats "processVideo" st) ∧
  total (getStats "processVideo" st) = length (videoQueue st) ∧
  (busy (getStats "processVideo" st) = false → total (getStats "processVideo" st) = 0%nat).
Proof.
  intros Hreach. pose proof (reachable_Shape st Hreach) as HS.
  pose proof (shape_queue st HS) as Hq.
  unfold getStats. cbn [processingCount waitingCount total busy].
  fold (videoQueue st).
  rewrite (filter_none (hasItemStatus itemProcessing)), (filter_all (hasItemStatus waiting)).
  - repeat split; try reflexivity. intros Hidle. now rewrite (shape_idle st HS Hidle).
  - eapply Forall_impl; [exact Hq|]. intros job (Hs & _). unfold hasItemStatus. now rewrite Hs.
  - eapply Forall_impl; [exact Hq|]. intros job (Hs & _). unfold hasItemStatus. now rewrite Hs.
Qed.

(** X16. Work is never left stranded and never doubled: in every reachable
    state the queue is being drained exactly when an item is in flight, an
    idle queue is empty, and no job has two work items (queued, in flight
    or waiting for a retry timer). *)
Theorem queue_is_drained (st : State) :
  reachable st →
  (isProcessing st = true ↔ is_Some (running st)) ∧
  (isProcessing st = false → videoQueue st = []) ∧
  NoDup (pendingIds st).
Proof.
  intros Hreach. pose proof (reachable_Shape st Hreach) as HS.
  pose proof (reachable_Inv st Hreach) as HI.
  split; [|split].
  - split; [apply (shape_busy st HS)|]. intros [x Hx].
    destruct (isProcessing st) eqn:Hb; [reflexivity|].
    rewrite (inv_idle st HI Hb) in Hx. discriminate.
  - apply (shape_idle st HS).
  - apply (inv_nodup st HI).
Qed.
Lemma no_job_is_ever_failed_witness :
  (∀ j r,
     jobs (next (Settle (inr "yt-dlp exited with code 1") 2000 2000 2000) submitted) !! j = Some r →
     status r ≠ failed) ∧
  Forall (λ t, timerDelay t = 5000)
         (timers (next (Settle (inr "yt-dlp exited with code 1") 2000 2000 2000) submitted)).
Proof.
  destruct (no_job_is_ever_failed
              (next (Settle (inr "yt-dlp exited with code 1") 2000 2000 2000) submitted))
    as (Hnf & _ & Hdelay).
  - apply reachable_next; [apply submitted_reachable|exact I].
  - split; [exact Hnf|exact Hdelay].
Defined.

Lemma getStats_never_counts_job_in_flight_witness :
  is_Some (running submitted) ∧ processingCount (getStats "processVideo" submitted) = 0%nat.
Proof.
  split; [eexists; reflexivity|].
  apply getStats_never_counts_job_in_flight, submitted_reachable.
Defined.

Lemma queue_is_drained_witness :
  isProcessing submitted = true ↔ is_Some (running submitted).
Proof. apply queue_is_drained, submitted_reachable. Defined.

(** *** A submission and the requests that follow *)

(** The record [POST /download] stores for a body. *)
Definition newRecord (body : DownloadBody) (newId ip : string) (now : Z) : JobRecord :=
  {| id := newId; url := b_url body;
     platform := UrlValidator.detectPlatform (b_url body);
     quality := default "best" (b_quality body);
     removeWatermark := default true (b_removeWatermark body);
     format := default "mp4" (b_format body);
     status := queued; progress := 0; message := None;
     createdAt := now; updatedAt := now; clientIP := ip;
     downloadUrl := None; fileSize := None; completedAt := None;
     error := None; failedAt := None |}.



(** A cancel/delete request for a job the store holds. *)
Lemma deleteJob_known (j : string) (now : Z) (st : State) (r : JobRecord) :
  jobs st !! j = Some r →
  httpStatus (deleteJob j now st).1 = 200 ∧
  jobs (deleteJob j now st).2
    = match status r with
      | processing | queued => <[j := markCancelled now r]> (jobs st)
      | _ => delete j (jobs st)
      end ∧
  queues (deleteJob j now st).2 = queues st ∧
  running (deleteJob j now st).2 = running st ∧
  timers (deleteJob j now st).2 = timers st ∧
  isProcessing (deleteJob j now st).2 = isProcessing st.
Proof. intros Hr. unfold deleteJob. rewrite Hr. auto 10. Qed.

(** Two jobs: the first is in flight, the second waits in the queue. *)
Definition twoSubmitted : State :=
  next (Submit true tiktokBody "job-2" "10.0.0.1" 1200) submitted.

Lemma twoSubmitted_reachable : reachable twoSubmitted.
Proof.
  apply reachable_next; [apply submitted_reachable|].
  split; [reflexivity|]. vm_compute. intros Hin.
  apply list_elem_of_singleton in Hin. discriminate Hin.
Qed.

(** X18. Two cancel/delete requests for a job that follow each other with
    no other step of the system between them remove its record: the first
    cancels a queued or processing job and removes any other, the second
    removes the cancelled record (answering 200) or finds nothing
    (answering 404), and a third finds nothing; none of them touches the
    queue, the item in flight or the retry timers, so the work of the job
    goes on without its record.  With a step of the runner between the two
    requests this fails: a job cancelled while it waits in the queue is
    started when the job in flight settles, its status is [processing]
    again, and the second request cancels it once more and leaves the
    record in the store. *)
Theorem two_deletes_remove_record :
  (∀ (st : State) (j : string) (r : JobRecord) (t1 t2 t3 : Z),
     jobs st !! j = Some r →
     httpStatus (deleteJob j t1 st).1 = 200 ∧
     (httpStatus (deleteJob j t2 (deleteJob j t1 st).2).1 = 200 ↔
      status r = queued ∨ status r = processing) ∧
     jobs (deleteJob j t2 (deleteJob j t1 st).2).2 = delete j (jobs st) ∧
     httpStatus (deleteJob j t3 (deleteJob j t2 (deleteJob j t1 st).2).2).1 = 404 ∧
     queues (deleteJob j t2 (deleteJob j t1 st).2).2 = queues st ∧
     running (deleteJob j t2 (deleteJob j t1 st).2).2 = running st ∧
     timers (deleteJob j t2 (deleteJob j t1 st).2).2 = timers st ∧
     isProcessing (deleteJob j t2 (deleteJob j t1 st).2).2 = isProcessing st) ∧
  (∃ (r1 r2 r3 : JobRecord),
     reachable twoSubmitted ∧
     jobs (next (Delete "job-2" 1500) twoSubmitted) !! "job-2" = Some r1 ∧
     status r1 = cancelled ∧
     jobs (next (Settle (inl someResult) 2000 2000 2000)
             (next (Delete "job-2" 1500) twoSubmitted)) !! "job-2" = Some r2 ∧
     status r2 = processing ∧
     jobs (next (Delete "job-2" 2500)
             (next (Settle (inl someResult) 2000 2000 2000)
                (next (Delete "job-2" 1500) twoSubmitted))) !! "job-2" = Some r3 ∧
     status r3 = cancelled).
Proof.
  split.
  - intros st j r t1 t2 t3 Hr.
    destruct (deleteJob_known j t1 st r Hr)
      as (Hresp1 & Hjobs1 & Hq1 & Hrun1 & Htim1 & Hbusy1).
    split; [exact Hresp1|].
    assert ((status r = queued ∨ status r = processing) ∨
            ¬ (status r = queued ∨ status r = processing)) as [Hlive|Hdone].
    { destruct (status r); auto; right; intros [H|H]; discriminate H. }
    + assert (jobs (deleteJob j t1 st).2 !! j = Some (markCancelled t1 r)) as Hr1.
      { rewrite Hjobs1. destruct Hlive as [-> | ->]; apply lookup_insert_eq. }
      destruct (deleteJob_known j t2 _ _ Hr1)
        as (Hresp2 & Hjobs2 & Hq2 & Hrun2 & Htim2 & Hbusy2).
      assert (jobs (deleteJob j t2 (deleteJob j t1 st).2).2 = delete j (jobs st)) as Hgone.
      { rewrite Hjobs2, Hjobs1. cbn [markCancelled status].
        destruct Hlive as [-> | ->]; apply delete_insert_eq. }
      split; [tauto|]. split; [exact Hgone|]. split; [|repeat split; congruence].
      unfold deleteJob at 1. now rewrite Hgone, lookup_delete_eq.
    + assert (jobs (deleteJob j t1 st).2 = delete j (jobs st)) as Hgone1.
      { rewrite Hjobs1. destruct (status r); tauto || reflexivity. }
      assert (deleteJob j t2 (deleteJob j t1 st).2
              = ({| httpStatus := 404; ok := false; text := "Job not found" |},
                 (deleteJob j t1 st).2)) as Hsecond.
      { unfold deleteJob at 1. now rewrite Hgone1, lookup_delete_eq. }
      rewrite Hsecond. cbn [fst snd httpStatus].
      split; [split; [discriminate|tauto]|]. split; [exact Hgone1|].
      split; [|auto].
      unfold deleteJob at 1. now rewrite Hgone1, lookup_delete_eq.
  - destruct (jobs (next (Delete "job-2" 1500) twoSubmitted) !! "job-2")
      as [r1|] eqn:H1; [|vm_compute in H1; discriminate H1].
    destruct (jobs (next (Settle (inl someResult) 2000 2000 2000)
                      (next (Delete "job-2" 1500) twoSubmitted)) !! "job-2")
      as [r2|] eqn:H2; [|vm_compute in H2; discriminate H2].
    destruct (jobs (next (Delete "job-2" 2500)
                      (next (Settle (inl someResult) 2000 2000 2000)
                         (next (Delete "job-2" 1500) twoSubmitted))) !! "job-2")
      as [r3|] eqn:H3; [|vm_compute in H3; discriminate H3].
    exists r1, r2, r3.
    vm_compute in H1. injection H1 as <-.
    vm_compute in H2. injection H2 as <-.
    vm_compute in H3. injection H3 as <-.
    split; [apply twoSubmitted_reachable|]. repeat split; reflexivity.
Qed.

Lemma two_deletes_remove_record_witness :
  jobs (deleteJob "job-1" 1600 (deleteJob "job-1" 1500 submitted).2).2 !! "job-1" = None ∧
  running (deleteJob "job-1" 1600 (deleteJob "job-1" 1500 submitted).2).2 = running submitted.
Proof.
  destruct (jobs submitted !! "job-1") as [r|] eqn:Hr; [|vm_compute in Hr; discriminate Hr].
  destruct two_deletes_remove_record as [Hboth _].
  destruct (Hboth submitted "job-1" r 1500 1600 1700 Hr)
    as (_ & _ & Hgone & _ & _ & Hrun & _).
  split; [|exact Hrun]. rewrite Hgone. apply lookup_delete_eq.
Defined.

(** *** Cancellation does not drop the work *)

(** Every record that is not completed has work outstanding. *)
Definition Live (st : State) : Prop :=
  ∀ j r, jobs st !! j = Some r → status r ≠ completed → j ∈ pendingIds st.

Lemma add_pending (d : JobData) (o : QueueOptions) (now : Z) (st : State) :
  (isProcessing st = false → running st = None) →
  pendingIds (add "processVideo" d o now st) ≡ₚ jobId d :: pendingIds st.
Proof.
  intros Hidle0.
  destruct (add_cases d o now st)
    as [(Hbusy & Hjobs & Hq & Hrun & Htim & Hbusy')
       |(Hidle & head & rest & Hq & Hjobs & Hq' & Hrun & Htim & Hbusy')].
  - rewrite !pendingIds_eq, Hq, Htim, (runningIds_same _ _ Hrun), map_app.
    apply Permutation_snoc_front.
  - pose proof (Hidle0 Hidle) as Hnone.
    assert (itemJob head :: map itemJob rest =
            (map itemJob (videoQueue st) ++ [jobId d])%list) as Hids.
    { change (itemJob head :: map itemJob rest) with (map itemJob (head :: rest)).
      rewrite <- Hq, map_app. reflexivity. }
    rewrite !pendingIds_eq, Hq', Htim, (runningIds_Some _ _ _ Hrun),
      (runningIds_None _ Hnone).
    change (itemJob (started head)) with (itemJob head). simpl.
    etrans; [symmetry; apply Permutation_middle|].
    rewrite (app_comm_cons _ _ (itemJob head)), Hids.
    apply Permutation_snoc_front.
Qed.

Lemma drainNext_pending (now : Z) (st : State) :
  running st = None →
  pendingIds (drainNext "processVideo" now st) ≡ₚ pendingIds st.
Proof.
  intros Hnone.
  destruct (drainNext_cases now st)
    as [(Hq & Hjobs & Hq' & Hrun & Htim & Hbusy')
       |(head & rest & Hq & Hjobs & Hq' & Hrun & Htim & Hbusy')].
  - rewrite !pendingIds_eq, Hq', Hq, Htim, (runningIds_same _ _ Hrun). reflexivity.
  - rewrite (pendingIds_running _ _ _ Hrun), (pendingIds_idle st Hnone), Hq', Hq, Htim.
    reflexivity.
Qed.

Lemma running_pending (st : State) (q : string) (job : WorkItem) :
  running st = Some (q, job) → itemJob job ∈ pendingIds st.
Proof.
  intros Hrun. rewrite (pendingIds_running st q job Hrun). apply elem_of_cons. now left.
Qed.

Lemma Live_step (st st' : State) :
  (∀ j r', jobs st' !! j = Some r' → status r' ≠ completed →
           j ∈ pendingIds st' ∨ ∃ r, jobs st !! j = Some r ∧ status r ≠ completed) →
  (∀ j, j ∈ pendingIds st → j ∈ pendingIds st') →
  Live st → Live st'.
Proof.
  intros Hjobs Hpend HL j r' Hr' Hst.
  destruct (Hjobs j r' Hr' Hst) as [Hin|(r & Hr & Hrst)]; [exact Hin|].
  apply Hpend, (HL j r Hr Hrst).
Qed.

Lemma alter_origin (f : JobRecord → JobRecord) (h : string) (m : gmap string JobRecord)
    (j : string) (r' : JobRecord) :
  alter f h m !! j = Some r' →
  (j = h ∧ ∃ r, m !! h = Some r ∧ r' = f r) ∨ (j ≠ h ∧ m !! j = Some r').
Proof.
  rewrite lookup_alter. case_decide as Hj.
  - subst j. destruct (m !! h) as [r|]; simpl; [|discriminate].
    intros [= <-]. left. eauto.
  - intros Hr. now right.
Qed.

Lemma drainNext_Live (now : Z) (st : State) :
  running st = None → Live st → Live (drainNext "processVideo" now st).
Proof.
  intros Hnone HL. pose proof (drainNext_pending now st Hnone) as Hperm.
  apply (Live_step st); [|intros j Hj; now rewrite Hperm|exact HL].
  intros j r' Hr' Hst.
  destruct (drainNext_cases now st)
    as [(_ & Hjobs & _)|(head & rest & _ & Hjobs & _ & Hrun & _)].
  - right. exists r'. rewrite <- Hjobs. auto.
  - rewrite Hjobs in Hr'. apply alter_origin in Hr' as [(-> & _)|(_ & Hr')].
    + left. apply (running_pending _ _ _ Hrun).
    + right. eauto.
Qed.

Lemma add_Live (d : JobData) (o : QueueOptions) (now : Z) (st : State) :
  (isProcessing st = false → running st = None) →
  (∀ j r, jobs st !! j = Some r → status r ≠ completed →
          j = jobId d ∨ j ∈ pendingIds st) →
  Live (add "processVideo" d o now st).
Proof.
  intros Hidle0 HL j r' Hr' Hst.
  pose proof (add_pending d o now st Hidle0) as Hperm.
  assert (∀ r, jobs st !! j = Some r → status r ≠ completed →
               j ∈ pendingIds (add "processVideo" d o now st)) as Hold.
  { intros r Hr Hrst. rewrite Hperm. apply elem_of_cons.
    destruct (HL j r Hr Hrst); auto. }
  destruct (add_cases d o now st)
    as [(_ & Hjobs & _)|(_ & head & rest & _ & Hjobs & _ & Hrun & _)].
  - rewrite Hjobs in Hr'. eauto.
  - rewrite Hjobs in Hr'. apply alter_origin in Hr' as [(-> & _)|(_ & Hr')].
    + apply (running_pending _ _ _ Hrun).
    + eauto.
Qed.

Lemma settle_Live (outcome : Result + string) (finishedAt writtenAt now : Z) (st : State) :
  Inv st → Shape st → Live st → Live (settle outcome finishedAt writtenAt now st).
Proof.
  intros HI HS HL. destruct (running st) as [[q job]|] eqn:Hrun;
    [|unfold settle; now rewrite Hrun].
  pose proof (inv_running_queue st HI q job Hrun) as ->.
  rewrite (settle_unfold outcome finishedAt writtenAt now st _ job Hrun).
  destruct (shape_running st HS _ job Hrun) as (_ & Ha & Ho).
  destruct (finishedJob_standard job outcome finishedAt writtenAt st Ha Ho)
    as (Hq & Hnone & _ & Hcases).
  apply drainNext_Live; [exact Hnone|].
  pose proof (pendingIds_running st _ job Hrun) as Hpend.
  intros j r' Hr' Hst.
  destruct Hcases as [(result & _ & Hjobs & Htim)|(msg & _ & Hjobs & Htim)].
  - rewrite Hjobs in Hr'. apply alter_origin in Hr' as [(_ & r & _ & ->)|(Hne & Hr')].
    + now contradiction Hst.
    + pose proof (HL j r' Hr' Hst) as Hin. rewrite Hpend in Hin.
      apply elem_of_cons in Hin as [Heq|Hin]; [contradiction|].
      now rewrite (pendingIds_idle _ Hnone), Hq, Htim.
  - rewrite Hjobs in Hr'. pose proof (HL j r' Hr' Hst) as Hin. rewrite Hpend in Hin.
    rewrite (pendingIds_idle _ Hnone), Hq, Htim, map_app. simpl.
    apply elem_of_cons in Hin as [->|Hin].
    + rewrite !elem_of_app. right. right. apply list_elem_of_singleton. reflexivity.
    + rewrite (assoc_L (++)). apply elem_of_app. now left.
Qed.

Lemma next_Live (e : Event) (st : State) :
  Inv st → Shape st → Live st → Live (next e st).
Proof.
  intros HI HS HL. destruct e; cbn [next].
  - unfold postDownload. destruct errorsEmpty; [|exact HL]. cbn [snd].
    apply add_Live; cbn [jobs isProcessing running jobDataOf jobId].
    + apply (inv_idle st HI).
    + intros j r. rewrite lookup_insert. case_decide as Hj; [now left|].
      intros Hr Hst. right. apply (HL j r Hr Hst).
  - unfold onProgress. intros h r' Hr' Hst. cbn [jobs] in Hr'.
    change (h ∈ pendingIds st).
    apply alter_origin in Hr' as [(-> & r & Hr & ->)|(_ & Hr')].
    + apply (HL _ r Hr Hst).
    + apply (HL h r' Hr' Hst).
  - now apply settle_Live.
  - unfold fireTimer. destruct (timers st !! i) as [t|] eqn:Ht; [|exact HL].
    apply add_Live; cbn [jobs isProcessing running].
    + apply (inv_idle st HI).
    + intros j r Hr Hst. pose proof (HL j r Hr Hst) as Hin.
      rewrite !pendingIds_eq in *. unfold videoQueue, runningIds in *. cbn [queues running timers].
      rewrite !elem_of_app in *. destruct Hin as [Hin|[Hin|Hin]]; auto.
      rewrite (delete_Permutation (timers st) i t Ht) in Hin. simpl in Hin.
      apply elem_of_cons in Hin as [->|Hin]; auto.
  - intros j' r' Hr' Hst.
    assert (pendingIds (deleteJob j now st).2 = pendingIds st) as ->.
    { unfold deleteJob. destruct (jobs st !! j); reflexivity. }
    unfold deleteJob in Hr'. destruct (jobs st !! j) as [job|] eqn:Hjob;
      [|apply (HL j' r' Hr' Hst)].
    cbn [snd jobs] in Hr'.
    destruct (decide (j' = j)) as [->|Hne].
    + apply (HL j job Hjob). intros Hc. rewrite Hc, lookup_delete_eq in Hr'. discriminate.
    + apply (HL j' r'); [|exact Hst].
      destruct (status job); revert Hr';
        rewrite ?lookup_insert_ne, ?lookup_delete_ne by congruence; auto.
  - intros j r Hr Hst. cbn [cleanup jobs] in Hr.
    apply map_lookup_filter_Some in Hr as [Hr _]. apply (HL j r Hr Hst).
Qed.

Lemma reachable_Live (st : State) : reachable st → Live st.
Proof.
  induction 1 as [|st e Hreach IH He].
  - intros j r Hr. unfold initial in Hr. cbn [jobs] in Hr.
    rewrite lookup_empty in Hr. discriminate.
  - apply next_Live; [now apply reachable_Inv|now apply reachable_Shape|exact IH].
Qed.

(** X19. Cancelling a job does not stop it.  In every reachable state a record
    of the store has work outstanding (an item in the queue, the item in
    flight, or a pending retry timer) exactly when its status is not
    [completed]; so a cancelled job always has its work item still, and
    will be run or retried like any other. *)
Theorem cancelled_job_keeps_its_work (st : State) (j : string) (r : JobRecord) :
  reachable st →
  jobs st !! j = Some r →
  (j ∈ pendingIds st ↔ status r ≠ completed) ∧
  (status r = cancelled → j ∈ pendingIds st).
Proof.
  intros Hreach Hr.
  pose proof (reachable_Live st Hreach) as HL.
  pose proof (reachable_Inv st Hreach) as HI.
  split; [split|].
  - intros Hin Hc. apply (inv_finished st HI j r Hr); [now left|exact Hin].
  - apply (HL j r Hr).
  - intros Hc. apply (HL j r Hr). rewrite Hc. discriminate.
Qed.

Lemma cancelled_job_keeps_its_work_witness :
  "job-1" ∈ pendingIds cancelledInFlight.
Proof.
  destruct (jobs cancelledInFlight !! "job-1") as [r|] eqn:Hr;
    [|vm_compute in Hr; discriminate Hr].
  destruct (cancelled_job_keeps_its_work cancelledInFlight "job-1" r
              cancelledInFlight_reachable Hr) as [_ Hcancelled].
  apply Hcancelled. vm_compute in Hr. injection Hr as <-. reflexivity.
Defined.

(** *** What a record shows *)

(** The result fields of a record agree with its status. *)
Definition consistent (r : JobRecord) : Prop :=
  error r = None ∧ failedAt r = None ∧
  match status r with
  | completed => is_Some (downloadUrl r) ∧ is_Some (fileSize r) ∧ is_Some (completedAt r)
  | _ => downloadUrl r = None ∧ fileSize r = None ∧ completedAt r = None
  end.

Definition Done (m : gmap string JobRecord) : Prop :=
  ∀ j r, m !! j = Some r → consistent r.

Lemma Done_alter (f : JobRecord → JobRecord) (h : string) (m : gmap string JobRecord) :
  Done m →
  (∀ r, m !! h = Some r → consistent r → consistent (f r)) →
  Done (alter f h m).
Proof.
  intros HD Hf j r' Hr'. apply alter_origin in Hr' as [(-> & r & Hr & ->)|(_ & Hr')].
  - apply (Hf r Hr), (HD h r Hr).
  - apply (HD j r' Hr').
Qed.

Lemma consistent_markProcessing (now : Z) (r : JobRecord) :
  status r ≠ completed → consistent r → consistent (markProcessing now r).
Proof.
  intros Hst (He & Hf & Hc). unfold consistent. simpl.
  destruct (status r); try contradiction; auto.
Qed.

(** A progress callback leaves the status and the result fields alone,
    whatever the status is. *)
Lemma consistent_reportProgress (p : Q) (msg : string) (now : Z) (r : JobRecord) :
  consistent r → consistent (reportProgress p msg now r).
Proof. intros H. exact H. Qed.

Lemma consistent_markCompleted (result : Result) (finishedAt writtenAt : Z) (r : JobRecord) :
  consistent r → consistent (markCompleted result finishedAt writtenAt r).
Proof. intros (He & Hf & _). unfold consistent. simpl. eauto 10. Qed.

Lemma consistent_markCancelled (now : Z) (r : JobRecord) :
  status r ≠ completed → consistent r → consistent (markCancelled now r).
Proof.
  intros Hst (He & Hf & Hc). unfold consistent. simpl.
  destruct (status r); try contradiction; auto.
Qed.

Lemma pending_not_completed (st : State) (j : string) (r : JobRecord) :
  Inv st → j ∈ pendingIds st → jobs st !! j = Some r → status r ≠ completed.
Proof. intros HI Hin Hr Hc. apply (inv_finished st HI j r Hr); [now left|exact Hin]. Qed.

Lemma drainNext_Done (now : Z) (st : State) :
  Inv st → running st = None → Done (jobs st) →
  Done (jobs (drainNext "processVideo" now st)).
Proof.
  intros HI Hnone HD.
  destruct (drainNext_cases now st)
    as [(_ & -> & _)|(head & rest & Hq & -> & _)]; [exact HD|].
  apply Done_alter; [exact HD|]. intros r Hr. apply consistent_markProcessing.
  apply (pending_not_completed st (itemJob head) r HI); [|exact Hr].
  rewrite (pendingIds_idle st Hnone), Hq. simpl. apply elem_of_cons. now left.
Qed.

Lemma add_Done (d : JobData) (o : QueueOptions) (now : Z) (st : State) :
  Shape st → Done (jobs st) →
  (∀ r, jobs st !! jobId d = Some r → status r ≠ completed) →
  Done (jobs (add "processVideo" d o now st)).
Proof.
  intros HS HD Hd.
  destruct (add_cases d o now st)
    as [(_ & -> & _)|(Hidle & head & rest & Hq & -> & _)]; [exact HD|].
  rewrite (shape_idle st HS Hidle) in Hq. injection Hq as <- <-.
  apply Done_alter; [exact HD|]. intros r Hr. apply consistent_markProcessing.
  now apply Hd.
Qed.

Lemma next_Done (e : Event) (st : State) :
  Inv st → Shape st → Done (jobs st) → Done (jobs (next e st)).
Proof.
  intros HI HS HD. destruct e; cbn [next].
  - unfold postDownload. destruct errorsEmpty; [|exact HD]. cbn [snd].
    assert (∀ m, Done m → Done (<[newId := newRecord body newId ip now]> m)) as Hins.
    { intros m Hm j r. rewrite lookup_insert. case_decide; [|apply Hm].
      intros [= <-]. unfold consistent. simpl. auto. }
    apply add_Done.
    + constructor; cbn [jobs running isProcessing timers].
      * apply (shape_queue st HS).
      * apply (shape_running st HS).
      * apply (shape_timers st HS).
      * apply (shape_busy st HS).
      * apply (shape_idle st HS).
      * intros j r. rewrite lookup_insert. case_decide.
        -- intros [= <-]. discriminate.
        -- apply (shape_not_failed st HS).
    + apply (Hins _ HD).
    + intros r. cbn [jobs jobDataOf jobId]. rewrite lookup_insert_eq.
      intros [= <-]. discriminate.
  - unfold onProgress. cbn [jobs]. apply Done_alter; [exact HD|]. intros r Hr.
    apply consistent_reportProgress.
  - destruct (running st) as [[q job]|] eqn:Hrun; [|unfold settle; now rewrite Hrun].
    pose proof (inv_running_queue st HI q job Hrun) as ->.
    rewrite (settle_unfold outcome finishedAt writtenAt now st _ job Hrun).
    destruct (shape_running st HS _ job Hrun) as (_ & Ha & Ho).
    destruct (finishedJob_standard job outcome finishedAt writtenAt st Ha Ho)
      as (_ & Hnone & _ & Hcases).
    destruct (finishedJob_ok job outcome finishedAt writtenAt st _ HI Hrun) as (HI1 & _).
    apply drainNext_Done; [exact HI1|exact Hnone|].
    destruct Hcases as [(result & _ & -> & _)|(msg & _ & -> & _)]; [|exact HD].
    apply Done_alter; [exact HD|]. intros r _. apply consistent_markCompleted.
  - unfold fireTimer. destruct (timers st !! i) as [t|] eqn:Ht; [|exact HD].
    apply add_Done; cbn [jobs].
    + constructor; cbn [jobs running isProcessing timers].
      * apply (shape_queue st HS).
      * apply (shape_running st HS).
      * apply Forall_delete, (shape_timers st HS).
      * apply (shape_busy st HS).
      * apply (shape_idle st HS).
      * apply (shape_not_failed st HS).
    + exact HD.
    + intros r Hr. apply (pending_not_completed st (jobId (timerData t)) r HI); [|exact Hr].
      rewrite pendingIds_eq, !elem_of_app. right. right.
      apply list_elem_of_fmap. exists t. split; [reflexivity|].
      now apply list_elem_of_lookup_2 with i.
  - unfold deleteJob. destruct (jobs st !! j) as [job|] eqn:Hjob; [|exact HD].
    cbn [snd jobs]. intros j' r'.
    destruct (status job) eqn:Hst; rewrite ?lookup_insert, ?lookup_delete;
      case_decide; try discriminate; try apply HD;
      intros [= <-]; apply consistent_markCancelled; try apply (HD j job Hjob);
      rewrite Hst; discriminate.
  - cbn [cleanup jobs]. intros j r Hr.
    apply map_lookup_filter_Some in Hr as [Hr _]. apply (HD j r Hr).
Qed.

Lemma reachable_Done (st : State) : reachable st → Done (jobs st).
Proof.
  induction 1 as [|st e Hreach IH He].
  - intros j r Hr. unfold initial in Hr. cbn [jobs] in Hr.
    rewrite lookup_empty in Hr. discriminate.
  - apply next_Done; [now apply reachable_Inv|now apply reachable_Shape|exact IH].
Qed.

(** A run in which a completed record shows a progress below 100: the
    first attempt of the job is rejected while its [yt-dlp] child keeps
    running, the retry succeeds, and the child of the first attempt then
    reports once more. *)
Definition lateCallback : list Event :=
  [Submit true tiktokBody "job-1" "10.0.0.1" 1000;
   Settle (inr "This video is private or unavailable") 2000 2000 2000;
   Fire 0 7000;
   Settle (inl someResult) 9000 9001 9001;
   Progress "job-1" 25 "Downloading video..." 9500].

(** X20. What a status request can show.  In every reachable state a record
    has a download URL, a file size and a completion time exactly when its
    status is [completed], and no record ever has an error message or a
    failure time.  The progress of a completed record is not always 100: a
    callback of an earlier attempt can still write to it. *)
Theorem record_fields_follow_status :
  (∀ (st : State) (j : string) (r : JobRecord),
     reachable st →
     jobs st !! j = Some r →
     (status r = completed ↔ is_Some (downloadUrl r)) ∧
     (status r = completed ↔ is_Some (fileSize r)) ∧
     (status r = completed ↔ is_Some (completedAt r)) ∧
     error r = None ∧ failedAt r = None) ∧
  (∃ (st : State) (r : JobRecord),
     reachable st ∧ jobs st !! "job-1" = Some r ∧
     status r = completed ∧ progress r = 25%Q ∧
     completedAt r = Some 9000 ∧ updatedAt r = 9500).
Proof.
  split.
  - intros st j r Hreach Hr.
    destruct (reachable_Done st Hreach j r Hr) as (He & Hf & Hc).
    destruct (status r); try destruct Hc as ([u Hu] & [s Hs] & [t Ht]);
      try destruct Hc as (Hu & Hs & Ht);
      rewrite ?Hu, ?Hs, ?Ht; repeat split; auto; try discriminate;
      try (intros [x Hx]; discriminate Hx); eauto.
  - exists (run lateCallback initial).
    destruct (jobs (run lateCallback initial) !! "job-1") as [r|] eqn:Hr;
      [|vm_compute in Hr; discriminate Hr].
    exists r. split.
    + unfold lateCallback, run, fold_left.
      repeat (apply reachable_next; [|first [exact I|vm_compute; eauto]]).
      * apply reachable_initial.
      * split; [reflexivity|]. intros Hin. inversion Hin.
    + split; [reflexivity|].
      vm_compute in Hr. injection Hr as <-. repeat split; reflexivity.
Qed.

End JobProperties.

(** ** The error handler *)

Module ErrorProperties.
Import ErrorHandler.

#[local] Arguments String.append !_ _ /.

(** The status the chain sets is an error status. *)
Lemma classify_status (err : Err) (status : Z) (body : ErrorBody) :
  classify err = Some (status, body) →
  status ∈ [400; 401; 403; 404; 429; 507; 408; 410].
Proof.
  unfold classify.
  repeat match goal with
         | |- context [if ?b then _ else _] => destruct b
         end;
    intros [= <- <-] || discriminate; compute_done.
Qed.

(** X21. On a response whose status is still [200] (or unset) the handler
    always answers with a status between 400 and 507, and with [500]
    exactly when no branch of the chain applies.  When no branch applies
    and a status other than [200] was set before, the handler keeps that
    status, whatever it is, and sends the body of an internal error. *)
Theorem errorHandler_status (err : Err) (statusCode : Z) :
  (statusCode = 0 ∨ statusCode = 200 →
   400 <= (errorHandler err statusCode).1 <= 507 ∧
   ((errorHandler err statusCode).1 = 500 ↔ classify err = None)) ∧
  (classify err = None → statusCode ≠ 0 → statusCode ≠ 200 →
   errorHandler err statusCode = (statusCode, defaultBody)).
Proof.
  unfold errorHandler. destruct (classify err) as [[status body]|] eqn:Hc.
  - apply classify_status in Hc.
    assert (status = 400 ∨ status = 401 ∨ status = 403 ∨ status = 404 ∨ status = 429 ∨
            status = 507 ∨ status = 408 ∨ status = 410) as Hs.
    { repeat (apply elem_of_cons in Hc as [->|Hc]; [tauto|]). inversion Hc. }
    split; [|discriminate].
    intros _. cbn [fst].
    destruct Hs as [-> | [-> | [-> | [-> | [-> | [-> | [-> | ->]]]]]]]; simpl;
      (split; [lia|split; [lia|discriminate]]).
  - split.
    + intros [-> | ->]; simpl; (split; [lia|tauto]).
    + intros _ H0 H200. apply Z.eqb_neq in H0, H200. now rewrite H0, H200.
Qed.

Lemma errorHandler_status_witness :
  (errorHandler (newError "disk quota exceeded") 200).1 = 500 ∧
  errorHandler (newError "disk quota exceeded") 201 = (201, defaultBody).
Proof.
  destruct (errorHandler_status (newError "disk quota exceeded") 200) as [Hfresh _].
  destruct (errorHandler_status (newError "disk quota exceeded") 201) as [_ Hkept].
  split.
  - apply Hfresh; [now right|reflexivity].
  - apply Hkept; [reflexivity|lia|lia].
Defined.

(** The text the [catch] block puts in front of a message adds no
    occurrence of ['timeout']. *)
Lemma failed_prefix_timeout (message : string) :
  JsString.includes "timeout" ("Failed to extract video information: " ++ message)
  = JsString.includes "timeout" message.
Proof. simpl. reflexivity. Qed.

(** X22. A failure of [extractVideoMetadata] is never answered with [408]:
    the message the [catch] block gives a timeout does not contain
    ['timeout'], so the handler falls through to [500] and the body of an
    internal error.  The status of a failed [POST /extract] is [403],
    [410] or [500]; it is [403] when the failure mentions
    ['Private video'] or ['not available'] (and no ['timeout']). *)
Theorem extract_failure_status (message : string) :
  (JsString.includes "timeout" message = true →
   extractFailureResponse message = (500, defaultBody)) ∧
  (JsString.includes "timeout" message = false →
   JsString.includes "Private video" message = true ∨
   JsString.includes "not available" message = true →
   (extractFailureResponse message).1 = 403) ∧
  (extractFailureResponse message).1 ≠ 408 ∧
  ((extractFailureResponse message).1 = 403 ∨
   (extractFailureResponse message).1 = 410 ∨
   (extractFailureResponse message).1 = 500).
Proof.
  unfold extractFailureResponse, VideoProcessor.extractVideoMetadataCatch.
  destruct (JsString.includes "timeout" message) eqn:Ht.
  - split; [reflexivity|]. split; [discriminate|]. split; [discriminate|]. now right; right.
  - split; [discriminate|].
    destruct (JsString.includes "Private video" message || JsString.includes "not available" message)
      eqn:Hp.
    + split; [reflexivity|]. split; [discriminate|]. now left.
    + split.
      * intros _ [H|H]; rewrite H in Hp; [discriminate Hp|].
        rewrite orb_true_r in Hp. discriminate Hp.
      * unfold errorHandler, classify, newError, nameIs, codeIs, messageIncludes.
        cbn [errName errCode errMessage String.eqb Ascii.eqb Bool.eqb].
        rewrite failed_prefix_timeout, Ht.
        assert (String.eqb ("Failed to extract video information: " ++ message) "" = false)
          as -> by reflexivity.
        cbn [negb andb].
        destruct (JsString.includes "private" _);
          [|destruct (JsString.includes "unavailable" _)];
          simpl; (split; [discriminate|tauto]).
Qed.

Lemma extract_failure_status_witness :
  extractFailureResponse "Command failed: timeout of 30000ms exceeded" = (500, defaultBody) ∧
  (extractFailureResponse "ERROR: Private video. Sign in to view").1 = 403.
Proof.
  split.
  - apply (extract_failure_status "Command failed: timeout of 30000ms exceeded").
    reflexivity.
  - apply (extract_failure_status "ERROR: Private video. Sign in to view");
      [reflexivity|now left].
Defined.

End ErrorProperties.

(** ** API keys *)

Module AuthProperties.
Import Auth.

#[local] Arguments String.append !_ _ /.

Lemma has_In (key : string) (keys : list string) : has key keys = true ↔ In key keys.
Proof.
  unfold has. rewrite existsb_exists. split.
  - intros (k & Hin & Heq). apply String.eqb_eq in Heq. now subst k.
  - intros Hin. exists key. split; [exact Hin|apply String.eqb_refl].
Qed.

Lemma addApiKey_In (key k : string) (keys : list string) :
  In k (addApiKey key keys) ↔ k = key ∨ In k keys.
Proof.
  unfold addApiKey, VideoProcessor.set_add.
  destruct (existsb (String.eqb key) keys) eqn:Hex.
  - split; [now right|]. intros [->|Hin]; [|exact Hin]. now apply has_In.
  - rewrite in_app_iff. simpl. intuition.
Qed.

Lemma removeApiKey_In (key k : string) (keys : list string) :
  In k (removeApiKey key keys).2 ↔ k ≠ key ∧ In k keys.
Proof.
  unfold removeApiKey. cbn [snd]. rewrite filter_In, negb_true_iff, String.eqb_neq. tauto.
Qed.

Lemma has_iff (k : string) (keys keys' : list string) :
  (In k keys' ↔ In k keys) → has k keys' = has k keys.
Proof.
  intros H. destruct (has k keys) eqn:Hk.
  - apply has_In, H, has_In, Hk.
  - destruct (has k keys') eqn:Hk'; [|reflexivity].
    apply has_In, H, has_In in Hk'. congruence.
Qed.

(** With authentication on, a non-empty key in the header decides alone,
    by its membership in the store. *)
Lemma validateApiKey_header (env : Env) (keys : list string) (key : string)
    (query : option string) :
  envIs "development" (NODE_ENV env) && envIs "true" (SKIP_AUTH env) = false →
  key ≠ "" →
  validateApiKey env keys {| headerApiKey := Some key; queryApiKey := query |}
  = if has key keys then Next (Some key) else Reject 401 "Invalid API key".
Proof.
  intros Hauth Hkey. apply String.eqb_neq in Hkey.
  unfold validateApiKey, orElse, truthy. rewrite Hauth. cbn [headerApiKey queryApiKey].
  rewrite !Hkey. cbn [negb]. rewrite Hkey. simpl.
  destruct (has key keys); reflexivity.
Qed.

(** X23. With authentication on: a non-empty key given in the header is
    accepted once [addApiKey] has stored it, whatever the query string
    holds, and is rejected with [401 Invalid API key] once [removeApiKey]
    has taken it out; [removeApiKey] returns [true] exactly when the store
    held the key; neither call changes whether another key is held.  The
    empty key authenticates nobody, even when it was added to the store. *)
Theorem api_key_round_trip (env : Env) (keys : list string) (key : string)
    (query : option string) :
  envIs "development" (NODE_ENV env) && envIs "true" (SKIP_AUTH env) = false →
  key ≠ "" →
  let req := {| headerApiKey := Some key; queryApiKey := query |} in
  validateApiKey env (addApiKey key keys) req = Next (Some key) ∧
  validateApiKey env (removeApiKey key (addApiKey key keys)).2 req
    = Reject 401 "Invalid API key" ∧
  ((removeApiKey key keys).1 = true ↔ In key keys) ∧
  (∀ k, k ≠ key →
        has k (addApiKey key keys) = has k keys ∧
        has k (removeApiKey key keys).2 = has k keys) ∧
  validateApiKey env (addApiKey "" keys) {| headerApiKey := Some ""; queryApiKey := None |}
    = Reject 401 "API key is required. Include X-API-Key header or apiKey query parameter.".
Proof.
  intros Hauth Hkey req. subst req.
  rewrite !(validateApiKey_header env _ key query Hauth Hkey).
  split; [|split; [|split; [|split]]].
  - assert (has key (addApiKey key keys) = true) as ->; [|reflexivity].
    apply has_In, addApiKey_In. now left.
  - assert (has key (removeApiKey key (addApiKey key keys)).2 = false) as ->; [|reflexivity].
    destruct (has key _) eqn:Hh; [|reflexivity].
    apply has_In, removeApiKey_In in Hh as [Hh _]. congruence.
  - apply has_In.
  - intros k Hk. split; apply has_iff.
    + rewrite addApiKey_In. tauto.
    + rewrite removeApiKey_In. tauto.
  - unfold validateApiKey. rewrite Hauth. reflexivity.
Qed.

Lemma api_key_round_trip_witness :
  validateApiKey {| NODE_ENV := Some "production"; SKIP_AUTH := None |}
    (addApiKey "vd_1700000000000_k3y" API_KEYS)
    {| headerApiKey := Some "vd_1700000000000_k3y"; queryApiKey := Some "demo-key-12345" |}
  = Next (Some "vd_1700000000000_k3y") ∧
  validateApiKey {| NODE_ENV := Some "production"; SKIP_AUTH := None |}
    (removeApiKey "vd_1700000000000_k3y" (addApiKey "vd_1700000000000_k3y" API_KEYS)).2
    {| headerApiKey := Some "vd_1700000000000_k3y"; queryApiKey := Some "demo-key-12345" |}
  = Reject 401 "Invalid API key".
Proof.
  destruct (api_key_round_trip {| NODE_ENV := Some "production"; SKIP_AUTH := None |}
              API_KEYS "vd_1700000000000_k3y" (Some "demo-key-12345"))
    as (Hadd & Hremove & _).
  - reflexivity.
  - discriminate.
  - split; [exact Hadd|exact Hremove].
Defined.

Lemma substring_short (n : nat) (s : string) :
  (String.length s <= n)%nat → String.substring 0 n s = s.
Proof.
  revert n. induction s as [|c s IH]; intros n Hn.
  - destruct n; reflexivity.
  - destruct n as [|n]; simpl in Hn; [lia|]. simpl. rewrite IH; [reflexivity|lia].
Qed.

Lemma substring_length (n : nat) (s : string) :
  String.length (String.substring 0 n s) = Nat.min n (String.length s).
Proof.
  revert n. induction s as [|c s IH]; intros n.
  - destruct n; reflexivity.
  - destruct n as [|n]; simpl; [reflexivity|]. now rewrite IH.
Qed.

Lemma append_length (a b : string) :
  String.length (a ++ b) = (String.length a + String.length b)%nat.
Proof. induction a as [|c a IH]; simpl; [reflexivity|now rewrite IH]. Qed.

Lemma lookup_map {A B} (f : A → B) (l : list A) (i : nat) :
  map f l !! i = f <$> (l !! i).
Proof.
  revert i. induction l as [|x l IH]; intros [|i]; simpl; try reflexivity. apply IH.
Qed.

(** X24. [listApiKeys] lists one entry per stored key, in the order of the
    store, with the true length of the key.  The masked text has at most
    13 characters, but a key of at most 10 characters is not masked at
    all: it is listed in full, followed by the three dots. *)
Theorem listApiKeys_masking (keys : list string) :
  length (listApiKeys keys) = length keys ∧
  ∀ (i : nat) (key : string),
    keys !! i = Some key →
    ∃ entry,
      listApiKeys keys !! i = Some entry ∧
      keyLength entry = String.length key ∧
      (String.length (maskedKey entry) <= 13)%nat ∧
      ((String.length key <= 10)%nat → maskedKey entry = key ++ "...").
Proof.
  unfold listApiKeys. split; [apply length_map|].
  intros i key Hi. rewrite lookup_map, Hi. eexists. split; [reflexivity|].
  cbn [keyLength maskedKey]. split; [reflexivity|]. split.
  - rewrite append_length, substring_length. cbn [String.length]. lia.
  - intros Hshort. now rewrite substring_short.
Qed.

Lemma listApiKeys_masking_witness :
  ∃ entry,
    listApiKeys ["short"; "demo-key-12345"] !! 0%nat = Some entry ∧
    maskedKey entry = "short" ++ "...".
Proof.
  destruct (listApiKeys_masking ["short"; "demo-key-12345"]) as [_ H].
  destruct (H 0%nat "short" eq_refl) as (entry & Hentry & _ & _ & Hclear).
  exists entry. split; [exact Hentry|]. apply Hclear. simpl. lia.
Defined.

End AuthProperties.
